(** * js-confuser transform core: a shallow embedding and its properties

    The development follows the TypeScript sources of the obfuscator's
    transform pipeline:

    - [transforms/transform.ts]           (placeholders, identifier generation)
    - [transforms/controlFlowFlattening/controlFlowFlattening.ts]
    - [transforms/rgf.ts]
    - the Dispatcher pass and the Flatten pass

    JavaScript numbers that the passes compute with are small integers, so
    they are embedded as [Z]; the few fractional constants (probabilities,
    the chunking fraction) are embedded as exact rationals [Q].  Every call
    of [Math.random()] consumes one draw of an explicit generator state. *)

From Stdlib Require Import ZArith QArith Qminmax List String Ascii Bool Lia Permutation Sorted.
From stdpp Require Import gmap strings list pretty.
Import ListNotations.

Set Warnings "-register-all,-clear-no-such-hyp,-level-tolerance,-notation-for-abbreviation,-at-level-200-changed".

Local Open Scope string_scope.
Local Open Scope Z_scope.

(** ** Randomness

    [Math.random()] returns a double in [0, 1).  A generator state is a
    sequence of raw 53-bit draws together with a read position; the value
    of the [n]-th call is [(raw n mod 2^53) / 2^53]. *)
Module Random.

Record RNG : Type := mkRNG { raw : nat -> Z; pos : nat }.

Definition mantissa : Z := 2 ^ 53.

(** Numerator of the next draw, always in [0, 2^53). *)
Definition draw (g : RNG) : Z := raw g (pos g) mod mantissa.

Definition advance (g : RNG) : RNG := mkRNG (raw g) (S (pos g)).

(** The state monad in which every randomized helper lives. *)
Definition Rand (A : Type) : Type := RNG -> A * RNG.

Definition ret {A} (a : A) : Rand A := fun g => (a, g).

Definition bind {A B} (m : Rand A) (k : A -> Rand B) : Rand B :=
  fun g => let (a, g') := m g in k a g'.

(** [Math.random()] as a rational. *)
Definition Math_random : Rand Q :=
  fun g => (draw g # Z.to_pos mantissa, advance g).

(** [Math.floor(Math.random() * n)] for an integer [n].  The product is
    taken exactly here.  JavaScript rounds it to a double before the floor,
    so for a draw whose exact product lies less than half a unit in the last
    place below an integer the code yields that integer and this definition
    the one before it. *)
Definition random_below (n : Z) : Rand Z :=
  fun g => ((draw g * n) / mantissa, advance g).

(** Modelled from the spec: [util/random.ts] is not among the sources.
    [getRandomInteger(min, max)] is [Math.floor(Math.random() * (max - min) + min)];
    section 4.E of the specification gives its range for [(2, 5)] as the
    half-open interval [[2,5)]. *)
Definition getRandomInteger (min max : Z) : Rand Z :=
  fun g => let (r, g') := random_below (max - min) g in (r + min, g').

(** Modelled from the spec: [choice(arr)] returns the element at a
    uniformly drawn index, [arr[Math.floor(Math.random() * arr.length)]]. *)
Definition choice {A} (d : A) (arr : list A) : Rand A :=
  fun g => let (i, g') := random_below (Z.of_nat (length arr)) g in
           (nth (Z.to_nat i) arr d, g').

(** Modelled from the spec: [chance(p)] is a Bernoulli trial that
    succeeds with probability [p] percent, [Math.random() < p / 100]. *)
Definition chance (percent : Z) : Rand bool :=
  fun g => (draw g * 100 <? percent * mantissa, advance g).

(** [xs.map(() => f())]: run [f] once per element, left to right. *)
Fixpoint replicateM {A} (n : nat) (f : Rand A) : Rand (list A) :=
  match n with
  | O => ret []
  | S n' => bind f (fun a => bind (replicateM n' f) (fun l => ret (a :: l)))
  end.

(** A generator that replays a finite script of raw draws, then zeros. *)
Definition scripted (l : list Z) : RNG := mkRNG (fun n => nth n l 0) 0.

#[global] Arguments Math_random : simpl never.
#[global] Arguments random_below : simpl never.
#[global] Arguments getRandomInteger : simpl never.
#[global] Arguments choice : simpl never.
#[global] Arguments chance : simpl never.

End Random.

Notation "'let!' x ':=' m 'in' k" := (Random.bind m (fun x => k))
  (at level 10, x pattern, m at level 100, k at level 200).

(** ** JavaScript numbers beyond the finite ones

    Division by zero and [Math.min] can leave the finite numbers; the two
    places of the sources that divide ([fraction] and the threshold of
    [numberLiteral]) are embedded with this small extension. *)
Module JSNum.

Inductive jsnum : Type :=
| Fin (q : Q)
| PosInf
| NegInf
| NaN.

(** [a / b] on finite operands. *)
Definition js_div (a b : Q) : jsnum :=
  if Qeq_bool b 0 then
    (if Qeq_bool a 0 then NaN
     else if Qle_bool 0 a then PosInf else NegInf)
  else Fin (a / b).

(** [Math.min(a, x)] for a finite [a]. *)
Definition js_min (a : Q) (x : jsnum) : jsnum :=
  match x with
  | Fin q => Fin (Qmin a q)
  | PosInf => Fin a
  | NegInf => NegInf
  | NaN => NaN
  end.

(** [u > x] for a finite [u]; comparisons with [NaN] are false. *)
Definition js_gt (u : Q) (x : jsnum) : bool :=
  match x with
  | Fin q => negb (Qle_bool u q)
  | PosInf => false
  | NegInf => true
  | NaN => false
  end.

(** [u < q] on finite numbers. *)
Definition Qlt_bool (u q : Q) : bool := negb (Qle_bool q u).

#[global] Arguments js_gt : simpl never.
#[global] Arguments js_div : simpl never.

End JSNum.

(** ** Control Flow Flattening: the chunking fraction
    ([controlFlowFlattening.ts], lines 141-148) *)
Module Fraction.
Import JSNum.

(** The value of [fraction] before the clamp:
    [0.9], divided by [Math.max(1.2, body.length - 18)] when
    [body.length > 20]. *)
Definition schedule (len : nat) : jsnum :=
  let fraction := 9 # 10 in
  if (20 <? Z.of_nat len)%Z
  then js_div fraction (Qmax (12 # 10) (inject_Z (Z.of_nat len - 18)))
  else Fin fraction.

(** [fraction = Math.min(0.1, fraction)], then the fallback
    [if (isNaN(fraction) || !isFinite(fraction)) fraction = 0.5]. *)
Definition fraction (len : nat) : Q :=
  match js_min (1 # 10) (schedule len) with
  | Fin q => q
  | _ => 1 # 2
  end.

End Fraction.

(** ** The syntax tree

    The passes work on ESTree objects: every node has a [type], a few
    scalar attributes (a name, an operator, a literal value, flags) and
    child properties that hold a node, [null], or an array of nodes.  The
    traversal ([walk]) visits arrays like nodes and lists them among the
    parents of their elements, so an array is a node of the tree here too.
    A node is its kind (type and scalar attributes) and the list of its
    children, in the order of the object's keys. *)
Module Ast.

Inductive literal : Type :=
| LNum (z : Z)             (* an integer-valued number *)
| LFrac (text : string)    (* any other number, by its source text *)
| LStr (s : string)
| LBool (b : bool)
| LNull.

Module Ty.
Inductive kind : Type :=
| Array                                     (* a JavaScript array of nodes *)
| Null                                      (* null or undefined *)
| Program                                   (* [body] *)
| BlockStatement                            (* [body] *)
| ExpressionStatement                       (* expression *)
| Directive (text : string)                 (* expression statement with [directive] *)
| VariableDeclaration (kind : string)       (* [declarations] *)
| VariableDeclarator                        (* id, init *)
| FunctionDeclaration (async generator : bool)   (* id, [params], body *)
| FunctionExpression (async generator : bool)    (* id, [params], body *)
| ArrowFunctionExpression (async : bool)         (* [params], body *)
| ReturnStatement                           (* argument *)
| IfStatement                               (* test, consequent, alternate *)
| ForStatement                              (* init, test, update, body *)
| WhileStatement                            (* test, body *)
| DoWhileStatement                          (* body, test *)
| LabeledStatement                          (* label, body *)
| BreakStatement                            (* label *)
| ContinueStatement                         (* label *)
| SwitchStatement                           (* discriminant, [cases] *)
| SwitchCase                                (* test, [consequent] *)
| ThrowStatement                            (* argument *)
| TryStatement                              (* block, handler, finalizer *)
| GotoStatement (label : string)            (* CFF's synthetic jump *)
| Identifier (name : string)
| Literal (value : literal)
| ThisExpression
| Super
| MetaProperty
| ArrayExpression                           (* [elements] *)
| ObjectExpression                          (* [properties] *)
| Property (computed : bool)                (* key, value *)
| MethodDefinition (computed : bool)        (* key, value *)
| UnaryExpression (operator : string)       (* argument *)
| BinaryExpression (operator : string)      (* left, right *)
| LogicalExpression (operator : string)     (* left, right *)
| AssignmentExpression (operator : string)  (* left, right *)
| ConditionalExpression                     (* test, consequent, alternate *)
| CallExpression                            (* callee, [arguments] *)
| NewExpression                             (* callee, [arguments] *)
| MemberExpression (computed : bool)        (* object, property *)
| SequenceExpression                        (* [expressions] *)
| SpreadElement                             (* argument *)
| RestElement                               (* argument *)
| AwaitExpression                           (* argument *)
| ArrayPattern                              (* [elements] *)
| Other (type : string).                    (* any other node type *)
End Ty.

Inductive Node : Type :=
| Nd (k : Ty.kind) (children : list Node).

Definition kind_of (n : Node) : Ty.kind := let (k, _) := n in k.
Definition children_of (n : Node) : list Node := let (_, cs) := n in cs.

(** *** Constructors of [util/gen.ts]

    The helpers of [util/gen.ts] build plain ESTree objects; statement
    lists given to [IfStatement], [WhileStatement] and [FunctionExpression]
    are wrapped in a [BlockStatement], and a name given where a node is
    expected becomes an [Identifier]. *)
Definition Arr (l : list Node) : Node := Nd Ty.Array l.
Definition Null : Node := Nd Ty.Null [].
Definition Identifier (name : string) : Node := Nd (Ty.Identifier name) [].
Definition Literal (v : literal) : Node := Nd (Ty.Literal v) [].
Definition NumLit (z : Z) : Node := Literal (LNum z).
Definition StrLit (s : string) : Node := Literal (LStr s).
Definition GotoStatement (label : string) : Node := Nd (Ty.GotoStatement label) [].
Definition BlockStatement (body : list Node) : Node := Nd Ty.BlockStatement [Arr body].
Definition ExpressionStatement (e : Node) : Node := Nd Ty.ExpressionStatement [e].
Definition SequenceExpression (es : list Node) : Node := Nd Ty.SequenceExpression [Arr es].
Definition BinaryExpression (op : string) (l r : Node) : Node :=
  Nd (Ty.BinaryExpression op) [l; r].
Definition LogicalExpression (op : string) (l r : Node) : Node :=
  Nd (Ty.LogicalExpression op) [l; r].
Definition UnaryExpression (op : string) (a : Node) : Node :=
  Nd (Ty.UnaryExpression op) [a].
Definition AssignmentExpression (op : string) (l r : Node) : Node :=
  Nd (Ty.AssignmentExpression op) [l; r].
Definition ConditionalExpression (t c a : Node) : Node :=
  Nd Ty.ConditionalExpression [t; c; a].
Definition opt_block (o : option (list Node)) : Node :=
  match o with Some b => BlockStatement b | None => Null end.
Definition IfStatement (test : Node) (consequent : list Node)
    (alternate : option (list Node)) : Node :=
  Nd Ty.IfStatement [test; BlockStatement consequent; opt_block alternate].
Definition opt_label (o : option string) : Node :=
  match o with Some l => Identifier l | None => Null end.
Definition BreakStatement (label : option string) : Node :=
  Nd Ty.BreakStatement [opt_label label].
Definition ContinueStatement (label : option string) : Node :=
  Nd Ty.ContinueStatement [opt_label label].
Definition LabeledStatement (label : string) (body : Node) : Node :=
  Nd Ty.LabeledStatement [Identifier label; body].
Definition WhileStatement (test : Node) (body : list Node) : Node :=
  Nd Ty.WhileStatement [test; BlockStatement body].
Definition SwitchCase (test : Node) (consequent : list Node) : Node :=
  Nd Ty.SwitchCase [test; Arr consequent].
Definition SwitchStatement (discriminant : Node) (cases : list Node) : Node :=
  Nd Ty.SwitchStatement [discriminant; Arr cases].
Definition VariableDeclarator (id : Node) (init : Node) : Node :=
  Nd Ty.VariableDeclarator [id; init].
Definition VariableDeclaration (declarations : list Node) : Node :=
  Nd (Ty.VariableDeclaration "var") [Arr declarations].
Definition ReturnStatement (argument : Node) : Node :=
  Nd Ty.ReturnStatement [argument].
Definition ThrowStatement (argument : Node) : Node :=
  Nd Ty.ThrowStatement [argument].
Definition MemberExpression (object property : Node) (computed : bool) : Node :=
  Nd (Ty.MemberExpression computed) [object; property].
Definition CallExpression (callee : Node) (args : list Node) : Node :=
  Nd Ty.CallExpression [callee; Arr args].
Definition NewExpression (callee : Node) (args : list Node) : Node :=
  Nd Ty.NewExpression [callee; Arr args].
Definition ArrayExpression (elements : list Node) : Node :=
  Nd Ty.ArrayExpression [Arr elements].
Definition ArrayPattern (elements : list Node) : Node :=
  Nd Ty.ArrayPattern [Arr elements].
Definition ObjectExpression (properties : list Node) : Node :=
  Nd Ty.ObjectExpression [Arr properties].
Definition Property (key value : Node) (computed : bool) : Node :=
  Nd (Ty.Property computed) [key; value].
Definition SpreadElement (a : Node) : Node := Nd Ty.SpreadElement [a].
Definition AwaitExpression (a : Node) : Node := Nd Ty.AwaitExpression [a].
Definition FunctionExpression (params : list Node) (body : list Node) : Node :=
  Nd (Ty.FunctionExpression false false) [Null; Arr params; BlockStatement body].

(** *** Classification helpers of [traverse.ts] and [util/insert.ts] *)

(** Modelled from the spec: [isBlock(n)] of [traverse.ts] holds when
    [n.type] is [Program] or [BlockStatement] (section 4.B). *)
Definition isBlock (n : Node) : bool :=
  match kind_of n with
  | Ty.Program | Ty.BlockStatement => true
  | _ => false
  end.

(** Modelled from the spec: the function-like nodes of [util/insert.ts]
    are function declarations, function expressions and arrow functions. *)
Definition isFunction (n : Node) : bool :=
  match kind_of n with
  | Ty.FunctionDeclaration _ _ | Ty.FunctionExpression _ _
  | Ty.ArrowFunctionExpression _ => true
  | _ => false
  end.

(** Modelled from the spec: [isVarContext(n)] of [util/insert.ts] is true
    for any function-like node or [Program] (section 4.B). *)
Definition isVarContext (n : Node) : bool :=
  isFunction n || match kind_of n with Ty.Program => true | _ => false end.

Definition isGoto (n : Node) : bool :=
  match kind_of n with Ty.GotoStatement _ => true | _ => false end.

(** Every node of the tree, in the order [walk] enters them. *)
Fixpoint nodes (n : Node) : list Node :=
  match n with
  | Nd k cs => n :: flat_map nodes cs
  end.

(** The tree holds a [GotoStatement] somewhere. *)
Fixpoint containsGoto (n : Node) : bool :=
  match n with
  | Nd k cs => isGoto n || existsb containsGoto cs
  end.

End Ast.

(** ** Placeholders ([transform.ts], [getPlaceholder]) *)
Module Placeholder.
Import Random.

(** [n.toString(10)] for a single decimal digit. *)
Definition digit (d : Z) : string :=
  String (ascii_of_nat (48 + Z.to_nat d)) EmptyString.

(** [[...Array(size)].map(() => Math.floor(Math.random() * 10).toString(10)).join("")] *)
Definition genRanHex (size : nat) : Rand string :=
  let! ds := replicateM size (random_below 10) in
  ret (String.concat "" (map digit ds)).

Definition getPlaceholder : Rand string :=
  let! s := genRanHex 10 in ret ("__p_" ++ s)%string.

End Placeholder.

(** ** A small evaluator

    The state machinery that CFF emits is built from identifiers, integer
    literals, [+], [<], [>], [!=], conditionals, sequences and the compound
    assignments [+=], [-=], [*=], [=].  The evaluator gives these their
    JavaScript meaning over an environment of integer variables; every
    other construct is outside the fragment and has no value here. *)
Module Eval.
Import Ast.

Inductive value : Type :=
| VNum (z : Z)
| VBool (b : bool).

Abbreviation env := (gmap string Z).

Definition truthy (v : value) : bool :=
  match v with
  | VNum z => negb (z =? 0)
  | VBool b => b
  end.

Definition binop (op : string) (a b : Z) : option value :=
  if String.eqb op "+" then Some (VNum (a + b))
  else if String.eqb op "-" then Some (VNum (a - b))
  else if String.eqb op "*" then Some (VNum (a * b))
  else if String.eqb op "<" then Some (VBool (a <? b))
  else if String.eqb op ">" then Some (VBool (a >? b))
  else if String.eqb op "!=" then Some (VBool (negb (a =? b)))
  else if String.eqb op "===" then Some (VBool (a =? b))
  else None.

(** The arithmetic of a compound assignment [x op= v]. *)
Definition assignop (op : string) (old : option Z) (v : Z) : option Z :=
  if String.eqb op "=" then Some v
  else match old with
       | None => None
       | Some o =>
           if String.eqb op "+=" then Some (o + v)
           else if String.eqb op "-=" then Some (o - v)
           else if String.eqb op "*=" then Some (o * v)
           else None
       end.

Fixpoint eval (e : Node) (rho : env) {struct e} : option (value * env) :=
  match e with
  | Nd (Ty.Literal (LNum z)) [] => Some (VNum z, rho)
  | Nd (Ty.Literal (LBool b)) [] => Some (VBool b, rho)
  | Nd (Ty.Identifier x) [] =>
      match rho !! x with
      | Some z => Some (VNum z, rho)
      | None => None
      end
  | Nd (Ty.BinaryExpression op) [l; r] =>
      match eval l rho with
      | Some (VNum a, rho1) =>
          match eval r rho1 with
          | Some (VNum b, rho2) =>
              match binop op a b with
              | Some v => Some (v, rho2)
              | None => None
              end
          | _ => None
          end
      | _ => None
      end
  | Nd Ty.ConditionalExpression [t; c; a] =>
      match eval t rho with
      | Some (v, rho1) => if truthy v then eval c rho1 else eval a rho1
      | None => None
      end
  | Nd (Ty.AssignmentExpression op) [Nd (Ty.Identifier x) []; r] =>
      (* the old value of [x] is read before the right-hand side runs *)
      let old := rho !! x in
      match eval r rho with
      | Some (VNum v, rho1) =>
          match assignop op old v with
          | Some z => Some (VNum z, <[x := z]> rho1)
          | None => None
          end
      | _ => None
      end
  | Nd Ty.SequenceExpression [Nd Ty.Array es] =>
      (fix seq (es : list Node) (last : option value) (rho : env)
         : option (value * env) :=
         match es with
         | [] => match last with Some v => Some (v, rho) | None => None end
         | e1 :: es' =>
             match eval e1 rho with
             | Some (v, rho1) => seq es' (Some v) rho1
             | None => None
             end
         end) es None rho
  | _ => None
  end.


End Eval.

(** ** Control Flow Flattening: state encoding and transitions
    ([controlFlowFlattening.ts], lines 456-601 and 662-681) *)
Module StateEncoding.
Import Random Ast JSNum.

(** [Set.prototype.add] on a set that remembers insertion order. *)
Definition set_add (x : Z) (s : list Z) : list Z :=
  if existsb (Z.eqb x) s then s else s ++ [x].

(** The [do { ... } while (caseSelection.size !== uniqueStatesNeeded)] loop;
    [fuel] bounds the number of iterations. *)
Fixpoint selectStates (fuel : nat) (chunks_length : nat) (caseSelection : list Z)
  : Rand (option (list Z)) :=
  match fuel with
  | O => ret None
  | S fuel' =>
      let! newState := getRandomInteger 1 (Z.of_nat chunks_length * 15) in
      let caseSelection := set_add newState caseSelection in
      if Nat.eqb (length caseSelection) chunks_length
      then ret (Some caseSelection)
      else selectStates fuel' chunks_length caseSelection
  end.

(** [stateValues.reduce((a, b) => b + a, 0)] *)
Definition getCurrentState (stateValues : list Z) : Z :=
  fold_left (fun a b => b + a) stateValues 0.

(** The component vector of one chunk: random components, then one
    random index is overwritten so that the sum is [state].  The index is
    drawn inside the array, where JavaScript's indexed store and the list
    update agree. *)
Definition chunkStateValues (k : nat) (state : Z) : Rand (list Z) :=
  let! stateValues := replicateM k (getRandomInteger (-250) 250) in
  let! correctIndex := getRandomInteger 0 (Z.of_nat (length stateValues)) in
  let i := Z.to_nat correctIndex in
  ret (<[i := state - (getCurrentState stateValues - nth i stateValues 0)]> stateValues).

(** [Object.values(chunks).forEach((chunk, i) => ...)]: one vector per
    chunk, stored under the chunk's label.  Returns the vectors in chunk
    order together with the final [labelToStates]. *)
Fixpoint assignStates (k : nat) (chunks : list (string * Z))
    (labelToStates : gmap string (list Z))
  : Rand (list (list Z) * gmap string (list Z)) :=
  match chunks with
  | [] => ret ([], labelToStates)
  | (label, state) :: rest =>
      let! stateValues := chunkStateValues k state in
      let! r := assignStates k rest (<[label := stateValues]> labelToStates) in
      ret (stateValues :: fst r, snd r)
  end.

Record encoding : Type := mkEncoding {
  caseStates : list Z;
  stateVars : list string;
  switchLabel : string;
  vectors : list (list Z);
  labelToStates : gmap string (list Z)
}.

(** Lines 456-515 for the chunk labels [labels] (in chunk order). *)
Definition encodeStates (fuel : nat) (labels : list string) : Rand (option encoding) :=
  let! sel := selectStates fuel (length labels) [] in
  match sel with
  | None => ret None
  | Some caseStates =>
      let! k := getRandomInteger 2 5 in
      let! stateVars := replicateM (Z.to_nat k) Placeholder.getPlaceholder in
      let! switchLabel := Placeholder.getPlaceholder in
      let! r := assignStates (length stateVars) (combine labels caseStates) ∅ in
      ret (Some (mkEncoding caseStates stateVars switchLabel (fst r) (snd r)))
  end.

(** Modelled from the spec: the template parser is external.  The parse
    of the source text [v1+v2+...+vk] is the left-nested sum of the
    identifiers (section 4.E: the discriminant is the sum
    [v1 + v2 + ... + vk]). *)
Definition discriminant (stateVars : list string) : Node :=
  match stateVars with
  | [] => Null
  | v :: vs =>
      fold_left (fun acc x => BinaryExpression "+" acc (Identifier x)) vs (Identifier v)
  end.

Section WithStateVars.
Variable stateVars : list string.

Definition stateVar (i : nat) : string := nth i stateVars "".

(** [numberLiteral(num, depth, stateValues)].  [levels] is the number
    of depths left before [depth > 10] holds. *)
Fixpoint numberLiteral_at (levels : nat) (num : Z) (depth : Z)
    (stateValues : list Z) : Rand Node :=
  match levels with
  | O => ret (NumLit num)
  | S levels' =>
      let! u := Math_random in
      if js_gt u (js_div (8 # 10) (inject_Z (depth * 4)))
      then ret (NumLit num)
      else
        let! opposing := getRandomInteger 0 (Z.of_nat (length stateVars)) in
        let opposing := Z.to_nat opposing in
        let! u2 := Math_random in
        if js_gt u2 (Fin (1 # 2)) then
          let! x := getRandomInteger (-250) 250 in
          let! operator := choice "<" ["<"; ">"] in
          let answer :=
            if String.eqb operator "<"
            then x <? nth opposing stateValues 0
            else x >? nth opposing stateValues 0 in
          let! correct := numberLiteral_at levels' num (depth + 1) stateValues in
          let! wrong := getRandomInteger (-250) 250 in
          let! incorrect := numberLiteral_at levels' wrong (depth + 1) stateValues in
          let! lhs := numberLiteral_at levels' x (depth + 1) stateValues in
          ret (ConditionalExpression
                 (BinaryExpression operator lhs (Identifier (stateVar opposing)))
                 (if answer then correct else incorrect)
                 (if answer then incorrect else correct))
        else
          let! rest := numberLiteral_at levels' (num - nth opposing stateValues 0)
                         (depth + 1) stateValues in
          ret (BinaryExpression "+" (Identifier (stateVar opposing)) rest)
  end.

Definition numberLiteral (num : Z) (depth : Z) (stateValues : list Z) : Rand Node :=
  numberLiteral_at (Z.to_nat (11 - depth)) num depth stateValues.

(** [createTransitionExpression(index, add, mutatingStateValues)];
    the array is updated in place, so its new contents are returned
    with the expression. *)
Definition createTransitionExpression (index : nat) (add : Z)
    (mutatingStateValues : list Z) : Rand (Node * list Z) :=
  let newValue := nth index mutatingStateValues 0 + add in
  let! u := Math_random in
  if js_gt u (Fin (1 # 2)) then
    let! lit := numberLiteral add 0 mutatingStateValues in
    ret (AssignmentExpression "+=" (Identifier (stateVar index)) lit,
         <[index := newValue]> mutatingStateValues)
  else
    let double := nth index mutatingStateValues 0 * 2 in
    let diff := double - newValue in
    let! two := numberLiteral 2 0 mutatingStateValues in
    let first := AssignmentExpression "*=" (Identifier (stateVar index)) two in
    let mutatingStateValues := <[index := double]> mutatingStateValues in
    let! d := numberLiteral diff 0 mutatingStateValues in
    ret (SequenceExpression
           [first; AssignmentExpression "-=" (Identifier (stateVar index)) d],
         <[index := newValue]> mutatingStateValues).

(** [mutatingStateValues.map((_v, stateValueIndex) => ...)], from index
    [i] on, for the [n] remaining indices. *)
Fixpoint transitionsFrom (n : nat) (i : nat) (nextStateValues : list Z)
    (mutatingStateValues : list Z) : Rand (list Node * list Z) :=
  match n with
  | O => ret ([], mutatingStateValues)
  | S n' =>
      let diff := nth i nextStateValues 0 - nth i mutatingStateValues 0 in
      let! r := createTransitionExpression i diff mutatingStateValues in
      let! rs := transitionsFrom n' (S i) nextStateValues (snd r) in
      ret (fst r :: fst rs, snd rs)
  end.

(** The statement that replaces a [GotoStatement] found in a chunk whose
    vector is [current], jumping to the chunk whose vector is [next]. *)
Definition transitionStatement (current next : list Z) : Rand Node :=
  let! r := transitionsFrom (length current) 0 next current in
  ret (ExpressionStatement (SequenceExpression (fst r))).

End WithStateVars.

End StateEncoding.

(** The sum of the components of a state vector. *)
Definition sumZ (l : list Z) : Z := fold_right Z.add 0 l.

(** The state variables [stateVars] hold the vector [vals] in [rho]. *)
Definition holds (stateVars : list string) (vals : list Z) (rho : Eval.env) : Prop :=
  Forall2 (fun x v => rho !! x = Some v) stateVars vals.


(** Sample generator states for the worked examples. *)
Module Samples.
Import Random.
Definition rng_a : RNG := scripted [0; 2 ^ 52; 2 ^ 51; 0; 2 ^ 50].
Definition rng_b : RNG := scripted [2 ^ 52 + 1; 2 ^ 50; 0; 0; 2 ^ 52 + 1; 0; 2 ^ 52; 2 ^ 52 + 1; 2 ^ 52].
(** A pseudo-random sequence: multiples of an odd constant. *)
Definition rng_c : RNG := mkRNG (fun n => (Z.of_nat n + 1) * 7046029254386353) 0.
(** The raw draw for which [Math.floor(Math.random() * n)] is [index]. *)
Definition draw_for (index n : Z) : Z := (index * 2 ^ 53 + n - 1) / n.
(** Draws that spell [return] in the randomized mode. *)
Definition rng_return : RNG :=
  scripted [draw_for 44 53; draw_for 31 63; draw_for 46 63; draw_for 47 63;
            draw_for 44 63; draw_for 40 63].
(** Draws for which two state variables get the same placeholder: the
    totals 6, 10 and 1, two state variables, all thirty digits zero, and
    the vectors [3;3], [5;5] and [0;1]. *)
Definition rng_collide : RNG :=
  scripted ([draw_for 5 44; draw_for 9 44; draw_for 0 44; draw_for 0 3]
            ++ repeat 0 30
            ++ [draw_for 253 500; draw_for 253 500; draw_for 1 2;
                draw_for 255 500; draw_for 255 500; draw_for 1 2;
                draw_for 250 500; draw_for 250 500; draw_for 1 2]).
(** A less regular sequence: a cubic polynomial of the position. *)
Definition rng_d : RNG :=
  mkRNG (fun n => let x := Z.of_nat n + 1 in
                  x * x * x * 7046029254386353 + x * x * 2862933555777941 + x * 104729) 0.
End Samples.

(** ** RGF: the name-resolution loop ([rgf.ts], lines 194-246) *)
Module Resolve.

(** An entry of [collect].  [location] stands for the identity of the
    function node [location[0]]; [name] is [object.id?.name]. *)
Record candidate : Type := mkCandidate {
  location : nat;
  references : gset string;
  name : option string
}.

(** JavaScript truthiness of [name]: defined and not the empty string. *)
Definition has_name (c : candidate) : option string :=
  match name c with
  | Some s => if String.eqb s "" then None else Some s
  | None => None
  end.

(** The body of the inner [collect.forEach((o) => ...)] for one entry:
    [o.location[0] !== location1[0] && o.references.size &&
     o.references.delete(name)]. *)
Definition erase (nm : string) (loc : nat) (o : candidate) : candidate * bool :=
  if (negb (Nat.eqb (location o) loc)
      && negb (Nat.eqb (size (references o)) 0)
      && bool_decide (nm ∈ references o))%bool
  then (mkCandidate (location o) (references o ∖ {[nm]}) (name o), true)
  else (o, false).

Fixpoint eraseAll (nm : string) (loc : nat) (collect : list candidate)
  : list candidate * bool :=
  match collect with
  | [] => ([], false)
  | o :: rest =>
      let (o', h1) := erase nm loc o in
      let (rest', h2) := eraseAll nm loc rest in
      (o' :: rest', h1 || h2)
  end.

(** One step of the outer [forEach], at index [i]: the entry is read as
    it is now, after the deletions of the earlier steps. *)
Definition visit (i : nat) (st : list candidate * bool) : list candidate * bool :=
  let (collect, hit) := st in
  match nth_error collect i with
  | Some c =>
      match Nat.eqb (size (references c)) 0, has_name c with
      | true, Some nm =>
          let (collect', h) := eraseAll nm (location c) collect in
          (collect', hit || h)
      | _, _ => st
      end
  | None => st
  end.

(** One iteration of the [while (true)] loop: the sets after the pass,
    and [hit]. *)
Definition pass (collect : list candidate) : list candidate * bool :=
  fold_left (fun st i => visit i st) (seq 0 (length collect)) (collect, false).

(** The loop; [fuel] bounds the number of iterations. *)
Fixpoint resolve (fuel : nat) (start miss : nat) (collect : list candidate)
  : option (list candidate) :=
  match fuel with
  | O => None
  | S fuel' =>
      let (collect', hit) := pass collect in
      let miss' := if hit then 0%nat else S miss in
      if Nat.ltb start miss' then Some collect'
      else resolve fuel' start miss' collect'
  end.

(** [var start = collect.length * 2; var miss = 0; while (true) ...] *)
Definition resolveNames (fuel : nat) (collect : list candidate)
  : option (list candidate) :=
  resolve fuel (length collect * 2) 0 collect.

(** [collect.forEach((o) => { if (!o.references.size) queue.push(...) })] *)
Definition queue (collect : list candidate) : list nat :=
  map location (List.filter (fun o => Nat.eqb (size (references o)) 0) collect).

(** The number of names still referenced, over all candidates. *)
Definition pending (collect : list candidate) : nat :=
  fold_right (fun o n => (size (references o) + n)%nat) 0%nat collect.

(** Iterations that always suffice. *)
Definition enough (collect : list candidate) : nat :=
  ((pending collect + 1) * (length collect * 2 + 2))%nat.

End Resolve.

(** ** Identifier generation ([transform.ts], lines 187-333) *)
Module Identifiers.
Import Random.

(** The part of the obfuscator that [generateIdentifier] reads and
    writes. *)
Record obfuscator : Type := mkObfuscator {
  varCount : Z;
  generated : gset string
}.

(** How a call ends: with a value, with a thrown error, or still running
    when the iteration budget is spent. *)
Inductive outcome (A : Type) : Type :=
| Returned (a : A)
| Threw (message : string)
| OutOfFuel.
Arguments Returned {A} a.
Arguments Threw {A} message.
Arguments OutOfFuel {A}.

(** [s.split("")] *)
Fixpoint split_chars (s : string) : list string :=
  match s with
  | EmptyString => []
  | String c rest => String c EmptyString :: split_chars rest
  end.

Definition characters : list string :=
  split_chars "_ABCDEFGHIJKLMNOPQRSTUVWXYZabcdefghijklmnopqrstuvwxyz".
Definition numbers : list string := split_chars "0123456789".
Definition combined : list string := characters ++ numbers.

Definition keyWords : list string :=
  ["if"; "in"; "for"; "let"; "new"; "try"; "var"; "case"; "else"; "null";
   "break"; "catch"; "class"; "const"; "super"; "throw"; "while"; "yield";
   "delete"; "export"; "import"; "public"; "return"; "switch"; "default";
   "finally"; "private"; "continue"; "debugger"; "function"; "arguments";
   "protected"; "instanceof"; "function"; "await"; "async"].

(** The zero-width non-joiner U+200C, in UTF-8. *)
Definition zwnj : string :=
  String (ascii_of_nat 226) (String (ascii_of_nat 128) (String (ascii_of_nat 140) "")).

(** [s.repeat(n)] *)
Fixpoint repeat_string (s : string) (n : nat) : string :=
  match n with
  | O => ""
  | S n' => s ++ repeat_string s n'
  end.

(** [Math.floor(Math.random() * 16).toString(16)], upper-cased. *)
Definition hexDigitUpper (d : Z) : string :=
  nth (Z.to_nat d) (split_chars "0123456789ABCDEF") "".

Section WithConstants.
(** [constants.ts] is not among the sources: the two reserved sets
    are parameters. *)
Variables reservedKeywords reservedIdentifiers : gset string.
(** [alphabeticalGenerator] of [util/random.ts], likewise. *)
Variable alphabeticalGenerator : Z -> string.
(** The mode that [ComputeProbabilityMap(overrideMode ||
    this.options.identifierGenerator, ...)] hands to its callback; a
    weighted option draws it afresh at every call. *)
Variable resolveMode : Rand string.

(** The [for] loop of the randomized mode, from index [i] on. *)
Fixpoint randomizedFrom (n : nat) (first : bool) : Rand string :=
  match n with
  | O => ret ""
  | S n' =>
      let! c := choice "" (if first then characters else combined) in
      let! rest := randomizedFrom n' false in
      ret (c ++ rest)
  end.

(** The [while (1)] loop of the mangled mode. *)
Fixpoint mangledFrom (fuel : nat) (count : Z) : outcome (string * Z) :=
  match fuel with
  | O => OutOfFuel
  | S fuel' =>
      let result := alphabeticalGenerator count in
      let count := count + 1 in
      if bool_decide (result ∈ reservedKeywords) || bool_decide (result ∈ reservedIdentifiers)
      then mangledFrom fuel' count
      else Returned (result, count)
  end.

(** The callback given to [ComputeProbabilityMap]: the identifier for
    one mode, and the value of [count] afterwards. *)
Definition byMode (fuel : nat) (mode : string) (length count : Z)
  : Rand (outcome (string * Z)) :=
  if String.eqb mode "randomized" then
    let! result := randomizedFrom (Z.to_nat length) true in
    ret (Returned (result, count))
  else if String.eqb mode "hexadecimal" then
    let! ds := replicateM (Z.to_nat length) (random_below 16) in
    ret (Returned ("_0x" ++ String.concat "" (map hexDigitUpper ds), count))
  else if String.eqb mode "mangled" then
    ret (mangledFrom fuel count)
  else if String.eqb mode "number" then
    ret (Returned ("var_" ++ pretty count, count))
  else if String.eqb mode "zeroWidth" then
    let safe := repeat_string zwnj (Z.to_nat (count + 1)) in
    let! kw := choice "" keyWords in
    ret (Returned (kw ++ safe, count))
  else ret (Threw ("Invalid 'identifierGenerator' mode: " ++ mode)).

(** [do { identifier = ... } while (set.has(identifier))] *)
Fixpoint attempt (fuel : nat) (length count : Z) (set : gset string)
  : Rand (outcome string) :=
  match fuel with
  | O => ret OutOfFuel
  | S fuel' =>
      let! mode := resolveMode in
      let! r := byMode fuel' mode length count in
      match r with
      | Returned (identifier, count') =>
          if bool_decide (identifier ∈ set)
          then attempt fuel' length count' set
          else ret (Returned identifier)
      | Threw m => ret (Threw m)
      | OutOfFuel => ret OutOfFuel
      end
  end.

(** [generateIdentifier(length, count)].  With [count == -1] the
    obfuscator's counter and its [generated] set are used and updated;
    with any other [count] the set is a fresh one that is dropped on
    return. *)
Definition generateIdentifier (fuel : nat) (length count : Z) (o : obfuscator)
  : Rand (outcome string * obfuscator) :=
  let! length := (if length =? -1 then getRandomInteger 6 8 else ret length) in
  let shared := count =? -1 in
  let o1 := if shared then mkObfuscator (varCount o + 1) (generated o) else o in
  let count := if shared then varCount o1 else count in
  let set := if shared then generated o1 else ∅ in
  let! r := attempt fuel length count set in
  match r with
  | Returned identifier =>
      if String.eqb identifier "" then ret (Threw "identifier null", o1)
      else if shared
           then ret (Returned identifier,
                     mkObfuscator (varCount o1) ({[identifier]} ∪ generated o1))
           else ret (Returned identifier, o1)
  | Threw m => ret (Threw m, o1)
  | OutOfFuel => ret (OutOfFuel, o1)
  end.

(** A run of calls that all use the shared counter, one per requested
    [length]; the identifiers returned so far, oldest first. *)
Fixpoint generateAll (fuel : nat) (lengths : list Z) (o : obfuscator)
  : Rand (outcome (list string) * obfuscator) :=
  match lengths with
  | [] => ret (Returned [], o)
  | len :: rest =>
      let! r := generateIdentifier fuel len (-1) o in
      match fst r with
      | Returned id =>
          let! rs := generateAll fuel rest (snd r) in
          match fst rs with
          | Returned ids => ret (Returned (id :: ids), snd rs)
          | Threw m => ret (Threw m, snd rs)
          | OutOfFuel => ret (OutOfFuel, snd rs)
          end
      | Threw m => ret (Threw m, snd r)
      | OutOfFuel => ret (OutOfFuel, snd r)
      end
  end.

End WithConstants.

End Identifiers.

(** ** Identifier classification

    [getIdentifierInfo(o, p)] and [getDefiningIdentifier(o, p)] live in
    [util/identifiers.ts], which is not among the sources; the passes read
    their answers for an occurrence, and these answers are inputs here. *)
Module Scope.

Record IdentifierInfo : Type := mkInfo {
  isReferenced : bool;          (* [info.spec.isReferenced] *)
  isDefined : bool;             (* [info.spec.isDefined] *)
  isModified : bool;            (* [info.spec.isModified] *)
  isFunctionDeclaration : bool;
  isFunctionCall : bool
}.

End Scope.

(** ** Dispatcher: rewriting of references (class [Dispatcher], lines 164-189
    and 468-585) *)
Module Dispatcher.
Import Random Ast.
Import Scope.

(** The names that [transform] generates once per context. *)
Record generatedNames : Type := mkNames {
  payloadArg : string;
  dispatcherFnName : string;
  expectedGet : string;
  expectedClearArgs : string;
  expectedNew : string;
  newReturnMemberName : string
}.

(** What happens to an entry of [identifiers]. *)
Inductive effect : Type :=
| Untouched
| ReplaceParent (e : Node)      (* [this.replace(p[0], expr)] *)
| ReplaceSelf (e : Node)        (* [this.replace(o, ...)] *)
| Throws (message : string).

(** An identifier enters [identifiers] when it is not reserved, is a
    reference, and is neither defined nor modified there (lines 164-189). *)
Definition collected (reserved : bool) (info : IdentifierInfo) : bool :=
  negb reserved && isReferenced info && negb (isDefined info) && negb (isModified info).

Section CallSites.
Variable nm : generatedNames.
(** [newFnNames], and the names still in [functionDeclarations]. *)
Variable newFnNames : gmap string string.
Variable functionDeclarations : gset string.

Definition is_nil {A} (l : list A) : bool :=
  match l with [] => true | _ => false end.

(** Lines 500-552: the expression that replaces the call [f(arguments)].
    The debugging comment that [addComment] attaches is not part of the
    node. *)
Definition rewriteCall (newName : string) (arguments : list Node) : Rand Node :=
  let assignmentExpressions :=
    if is_nil arguments then []
    else [AssignmentExpression "=" (Identifier (payloadArg nm))
            (ArrayExpression arguments)] in
  let dispatcherArgs :=
    if is_nil arguments
    then [StrLit newName; StrLit (expectedClearArgs nm)]
    else [StrLit newName] in
  let! type := choice "" ["CallExpression"; "NewExpression"] in
  let callExpression :=
    if String.eqb type "CallExpression" then
      CallExpression (Identifier (dispatcherFnName nm)) dispatcherArgs
    else if String.eqb type "NewExpression" then
      let dispatcherArgs :=
        if Nat.eqb (length dispatcherArgs) 1
        then (dispatcherArgs ++ [Identifier "undefined"])%list
        else dispatcherArgs in
      MemberExpression
        (NewExpression (Identifier (dispatcherFnName nm))
           (dispatcherArgs ++ [StrLit (expectedNew nm)])%list)
        (Identifier (newReturnMemberName nm)) false
    else Null in
  ret (if is_nil assignmentExpressions then callExpression
       else SequenceExpression (assignmentExpressions ++ [callExpression])%list).

(** The getter form of a non-invoking reference. *)
Definition getter (newName : string) : Node :=
  CallExpression (Identifier (dispatcherFnName nm))
    [StrLit newName; StrLit (expectedGet nm)].

(** The body of [identifiers.forEach(([o, p]) => ...)] for the
    occurrence [o], whose closest parent [p[0]] is [parent] and which
    is the [slot]-th child of it; [info] is [getIdentifierInfo(o, p)]
    at that moment. *)
Definition rewriteIdentifier (o : Node) (parent : Node) (slot : nat)
    (info : IdentifierInfo) : Rand effect :=
  match o with
  | Nd (Ty.Identifier name) _ =>
      match newFnNames !! name with
      | None => ret Untouched
      | Some newName =>
          if String.eqb newName "" then ret Untouched
          else if negb (bool_decide (name ∈ functionDeclarations))
          then ret (Throws "newName, missing function declaration")
          else
            match parent with
            | Nd Ty.CallExpression [callee; Nd Ty.Array arguments] =>
                if isFunctionCall info && Nat.eqb slot 0 then
                  (* invoking call expression: [a();] *)
                  if String.eqb name (dispatcherFnName nm) then ret Untouched
                  else
                    let! expr := rewriteCall newName arguments in
                    ret (ReplaceParent expr)
                else if isDefined info then ret Untouched
                else if isModified info then ret Untouched
                else ret (ReplaceSelf (getter newName))
            | _ =>
                (* non-invoking reference: [a] *)
                if isDefined info then ret Untouched
                else if isModified info then ret Untouched
                else ret (ReplaceSelf (getter newName))
            end
      end
  | _ => ret Untouched
  end.

End CallSites.

End Dispatcher.

(** ** RGF: routing references through the reference array
    ([rgf.ts], lines 255-321) *)
Module References.
Import Ast Scope.

Section WithTables.
Variable reservedIdentifiers : gset string.
(** [names]: the index of every extracted function declaration. *)
Variable names : gmap string nat.
(** [definingNodes]: the identifier node [object.id] recorded for the
    name; a node is known by an identity number. *)
Variable definingNodes : gmap string nat.
Variable referenceSignatures : gmap nat string.
Variable referenceArray : string.

Definition memberExpression (index : nat) : Node :=
  MemberExpression (Identifier referenceArray) (NumLit (Z.of_nat index)) true.

(** Modelled from the spec: the template parser is external.  The
    parse of [typeof R[i] === "function" && R[i]["sig"]] (section 4.H). *)
Definition compiledTest (index : nat) : Node :=
  let signature := default "_" (referenceSignatures !! index) in
  LogicalExpression "&&"
    (BinaryExpression "===" (UnaryExpression "typeof" (memberExpression index))
       (StrLit "function"))
    (MemberExpression (memberExpression index) (StrLit signature) true).

Definition conditionalExpression (index : nat) : Node :=
  ConditionalExpression
    (compiledTest index)
    (FunctionExpression []
       [ReturnStatement
          (CallExpression (memberExpression index)
             [Identifier referenceArray; SpreadElement (Identifier "arguments")])])
    (memberExpression index).

(** [p[0] && p[0].type === "AssignmentExpression" && p[0].left === o] *)
Definition isAssignmentTarget (parent : Node) (slot : nat) : bool :=
  match kind_of parent with
  | Ty.AssignmentExpression _ => Nat.eqb slot 0
  | _ => false
  end.

(** The callback of the walk for the node [o], the [slot]-th child of
    [parent]: what [o] is afterwards.  [info] is
    [getIdentifierInfo(o, p)] and [definer] the identity of
    [getDefiningIdentifier(o, p)[0]], if any. *)
Definition rewriteReference (o parent : Node) (slot : nat)
    (info : IdentifierInfo) (definer : option nat) : Node :=
  match o with
  | Nd (Ty.Identifier name) _ =>
      if bool_decide (name ∈ reservedIdentifiers) then o
      else
        match names !! name with
        | None => o
        | Some index =>
            if isReferenced info && negb (isDefined info) then
              match definer with
              | None => o
              | Some pointingTo =>
                  if bool_decide (definingNodes !! name = Some pointingTo) then
                    if isAssignmentTarget parent slot
                    then memberExpression index
                    else conditionalExpression index
                  else o
              end
            else o
        end
  | _ => o
  end.

End WithTables.

End References.

(** ** Flatten: return statements and the replacement body
    (class [Flatten], lines 249-298 and 321-470) *)
Module Flatten.
Import Random Ast.

(** The names drawn for one flattened function. *)
Record generatedNames : Type := mkNames {
  newName : string;             (* the flat function *)
  resultName : string;
  propName : string;
  returnOutputName : string;
  decoyKey : string;
  decoyKeys : list string       (* the eight [this.gen.generate()] of the decoys *)
}.

Definition isReturn (n : Node) : bool :=
  match kind_of n with Ty.ReturnStatement => true | _ => false end.

(** [!o.argument] *)
Definition isAbsent (n : Node) : bool :=
  match n with Nd Ty.Null [] => true | _ => false end.

(** [o.argument.type == "Identifier" && o.argument.name == "undefined"] *)
Definition isUndefinedIdentifier (n : Node) : bool :=
  match n with
  | Nd (Ty.Identifier name) [] => String.eqb name "undefined"
  | _ => false
  end.

(** Modelled from the spec: [getVarContext(o, p)] of [util/insert.ts] is
    the nearest enclosing var context (section 4.B).  The return
    statements of [n] whose var context is the function being flattened
    are those not inside a nested function. *)
Fixpoint ownReturns (n : Node) : list Node :=
  match n with
  | Nd k cs =>
      if isVarContext n then []
      else ((if isReturn n then [n] else []) ++ flat_map ownReturns cs)%list
  end.

(** [xs.filter(() => chance(25))] *)
Fixpoint filterChance (percent : Z) (xs : list Node) : Rand (list Node) :=
  match xs with
  | [] => ret []
  | x :: rest =>
      let! keep := chance percent in
      let! rest' := filterChance percent rest in
      ret (if keep then x :: rest' else rest')
  end.

Section WithFunction.
Variable nm : generatedNames.
(** [output]: the modified names; [newOutputNames[name]]. *)
Variable output : list string.
Variable newOutputNames : string -> string.
(** [shuffle] of [util/random.ts], which is not among the sources. *)
Variable shuffle : list Node -> Rand (list Node).

Definition outputProperty (outputName : string) : Node :=
  Property (StrLit (newOutputNames outputName)) (Identifier outputName) true.

(** The property that carries the return value, unless the statement
    has no argument or returns the identifier [undefined]. *)
Definition returnProperty (argument : Node) : list Node :=
  if isAbsent argument || isUndefinedIdentifier argument then []
  else [Property (StrLit (returnOutputName nm)) argument true].

Definition returnObject (argument : Node) : Node :=
  ObjectExpression (returnProperty argument ++ map outputProperty output)%list.

(** [result.prop = { ... }], the new argument of a return statement. *)
Definition assignResult (argument : Node) : Node :=
  AssignmentExpression "="
    (MemberExpression (Identifier (resultName nm)) (Identifier (propName nm)) false)
    (returnObject argument).

(** The walk of lines 250-291: children first, then the exit
    callback of a return statement that belongs to the function. *)
Fixpoint rewriteReturns (n : Node) : Node :=
  match n with
  | Nd k cs =>
      if isVarContext n then n
      else
        let cs' := map rewriteReturns cs in
        if isReturn n
        then Nd k (assignResult (hd Null cs') :: tl cs')
        else Nd k cs'
  end.

Definition hasDirective (n : Node) : bool :=
  match kind_of n with Ty.Directive _ => true | _ => false end.

(** The body that moves into the flat function: the trailing
    [return] is appended, the returns are rewritten, a leading
    directive is dropped. *)
Definition movedBody (body : list Node) : list Node :=
  let newBody := map rewriteReturns (body ++ [ReturnStatement Null])%list in
  match newBody with
  | first :: rest => if hasDirective first then rest else newBody
  | [] => newBody
  end.

(** The statements that move, as they are before the rewrite. *)
Definition movedStatements (body : list Node) : list Node :=
  match (body ++ [ReturnStatement Null])%list with
  | first :: rest => if hasDirective first then rest else first :: rest
  | [] => []
  end.

(** [r'] is the return statement [r] after the rewrite: its argument
    is the assignment built from the (rewritten) argument of [r]. *)
Definition rewritten (r' r : Node) : Prop :=
  isReturn r = true /\ isReturn r' = true /\
  hd Null (children_of r') = assignResult (rewriteReturns (hd Null (children_of r))).

Definition getOutputMemberExpression (outputName : string) : Node :=
  MemberExpression
    (MemberExpression (Identifier (resultName nm)) (StrLit (propName nm)) true)
    (StrLit outputName) true.

Definition resultMember (key : string) : Node :=
  MemberExpression (Identifier (resultName nm)) (StrLit key) true.

Definition key (i : nat) : string := nth i (decoyKeys nm) "".

Definition decoyTemplates : list Node :=
  [ IfStatement (resultMember (key 0))
      [ThrowStatement
         (NewExpression (Identifier "Error") [getOutputMemberExpression (key 1)])] None;
    IfStatement (resultMember (key 2)) [ReturnStatement (Literal (LBool true))] None;
    IfStatement (resultMember (key 3))
      [ReturnStatement (Identifier (resultName nm))] None;
    IfStatement (resultMember (decoyKey nm))
      [ReturnStatement (resultMember (decoyKey nm))] None;
    IfStatement (resultMember (key 4)) [ReturnStatement (resultMember (key 5))] None;
    IfStatement (resultMember (key 6)) [ReturnStatement (Identifier (newName nm))] None;
    IfStatement (resultMember (key 7))
      [ExpressionStatement
         (AssignmentExpression "=" (Identifier (newName nm)) (Identifier "undefined"))]
      None;
    IfStatement (UnaryExpression "!" (Identifier (resultName nm)))
      [ReturnStatement Null] None ].

(** [if (result.prop) return result.prop.returnValue;] *)
Definition realReturn : Node :=
  IfStatement (resultMember (propName nm))
    [ReturnStatement (getOutputMemberExpression (returnOutputName nm))] None.

(** The new body of the original function (lines 329-470). *)
Definition newObjectBody (async : bool) (input newParamNames : list string)
  : Rand (list Node) :=
  let callExpression :=
    CallExpression (Identifier (newName nm))
      [ArrayExpression (map Identifier input);
       ArrayExpression (map Identifier newParamNames);
       Identifier (resultName nm)] in
  let head :=
    [VariableDeclaration
       [VariableDeclarator (Identifier (resultName nm)) (ObjectExpression [])];
     ExpressionStatement
       (if async then AwaitExpression callExpression else callExpression)] in
  let outputs :=
    map (fun outputName =>
           ExpressionStatement
             (AssignmentExpression "=" (Identifier outputName)
                (getOutputMemberExpression (newOutputNames outputName))))
        (rev output) in
  let! decoyNodes := filterChance 25 decoyTemplates in
  let! decoyNodes := shuffle (decoyNodes ++ [realReturn])%list in
  ret (head ++ outputs ++ decoyNodes)%list.

End WithFunction.

End Flatten.

(** Sample names for the worked examples of Flatten. *)
Module FlattenSamples.
Definition nm : Flatten.generatedNames :=
  Flatten.mkNames "flat_f" "result" "prop" "ret" "dk"
    ["d0"; "d1"; "d2"; "d3"; "d4"; "d5"; "d6"; "d7"].
Definition outKey (name : string) : string := ("k_" ++ name)%string.
Definition reverse (l : list Ast.Node) : Random.Rand (list Ast.Node) :=
  Random.ret (rev l).
End FlattenSamples.

(** ** Control Flow Flattening: chunking
    ([controlFlowFlattening.ts], lines 150-450) *)
Module Chunking.
Import Random Ast JSNum Placeholder.

Record chunk : Type := mkChunk { label : string; body : list Node }.

(** The three variables that [finishCurrentChunk] closes over. *)
Record builder : Type := mkBuilder {
  chunks : list chunk;
  currentBody : list Node;
  currentLabel : string
}.

(** An optional string argument that JavaScript finds falsy. *)
Definition given (o : option string) : option string :=
  match o with
  | Some s => if String.eqb s "" then None else Some s
  | None => None
  end.

Definition finishCurrentChunk (pointingLabel newLabel : option string) (b : builder)
  : Rand builder :=
  let! newLabel :=
    (match given newLabel with Some l => ret l | None => getPlaceholder end) in
  let pointingLabel :=
    match given pointingLabel with Some l => l | None => newLabel end in
  let currentBody := (currentBody b ++ [GotoStatement pointingLabel])%list in
  ret (mkBuilder (chunks b ++ [mkChunk (currentLabel b) currentBody])%list [] newLabel).

(** [currentBody.push(stmt)] *)
Definition push (stmt : Node) (b : builder) : builder :=
  mkBuilder (chunks b) (currentBody b ++ [stmt])%list (currentLabel b).

(** [chunks.push(...more)] *)
Definition pushChunks (more : list chunk) (b : builder) : builder :=
  mkBuilder (chunks b ++ more)%list (currentBody b) (currentLabel b).

(** [chunks[chunks.length - 1].body.pop()] *)
Fixpoint popLast (cs : list chunk) : list chunk :=
  match cs with
  | [] => []
  | [c] => [mkChunk (label c) (removelast (body c))]
  | c :: rest => c :: popLast rest
  end.

Definition isBreak (n : Node) : bool :=
  match kind_of n with Ty.BreakStatement => true | _ => false end.

(** [o.label.name] of a break or continue statement, if it has a label. *)
Definition jumpLabel (n : Node) : option string :=
  match n with
  | Nd _ [Nd (Ty.Identifier l) _] => Some l
  | _ => None
  end.

(** [f] on every element, unless it fails on one. *)
Fixpoint allSome {A B} (f : A -> option B) (l : list A) : option (list B) :=
  match l with
  | [] => Some []
  | a :: rest =>
      match f a with
      | Some b =>
          match allSome f rest with
          | Some rest' => Some (b :: rest')
          | None => None
          end
      | None => None
      end
  end.

(** The walk of lines 233-260 over the body of a labeled loop: every
    [break] and [continue] must name the loop's own label [lbl], and is
    then replaced by a jump to [afterPath] or [updatePath]; one foreign
    jump makes the whole rewrite impossible. *)
Fixpoint replaceJumps (lbl afterPath updatePath : string) (n : Node) : option Node :=
  match n with
  | Nd k cs =>
      let jump :=
        match k with
        | Ty.BreakStatement => Some afterPath
        | Ty.ContinueStatement => Some updatePath
        | _ => None
        end in
      match jump with
      | Some target =>
          match jumpLabel n with
          | Some l => if String.eqb l lbl then Some (GotoStatement target) else None
          | None => None
          end
      | None =>
          match allSome (replaceJumps lbl afterPath updatePath) cs with
          | Some cs' => Some (Nd k cs')
          | None => None
          end
      end
  end.

(** The test of line 204-216 on one case of a labeled [switch]. *)
Definition badCase (lbl : string) (x : Node) : bool :=
  match x with
  | Nd Ty.SwitchCase [test; Nd Ty.Array consequent] =>
      match kind_of test with
      | Ty.Null => true                                   (* default case *)
      | _ =>
          match consequent with
          | [] => true                                    (* must have a body *)
          | _ =>
              let last := List.last consequent Null in
              (* the first break statement must be the last statement *)
              existsb isBreak (removelast consequent)
              || negb (isBreak last)
              || match jumpLabel last with
                 | Some l => negb (String.eqb l lbl)
                 | None => true
                 end
          end
      end
  | _ => true
  end.

(** [control.test || Literal(true)] *)
Definition testOrTrue (test : Node) : Node :=
  match kind_of test with Ty.Null => Literal (LBool true) | _ => test end.

Definition is_nil {A} (l : list A) : bool :=
  match l with [] => true | _ => false end.

(** Threading of a result that may be missing. *)
Definition bindOpt {A B} (m : Rand (option A)) (k : A -> Rand (option B))
  : Rand (option B) :=
  let! r := m in
  match r with
  | Some a => k a
  | None => ret None
  end.

(** The computation yields a result, whatever the generator. *)
Definition succeeds {A} (m : Rand (option A)) : Prop :=
  forall g, exists a g', m g = (Some a, g').

Section Flattening.
(** The chunking fraction of the block. *)
Variable fraction : Q.
(** [flattenBody] for the bodies nested one level deeper. *)
Variable flattenNested : list Node -> string -> Rand (option (list chunk)).

(** Lines 427-433: the statement joins the current chunk, or starts a
    new one. *)
Definition plain (stmt : Node) (b : builder) : Rand builder :=
  if is_nil (currentBody b) then ret (push stmt b)
  else
    let! u := Math_random in
    if Qlt_bool u fraction then ret (push stmt b)
    else
      let! b := finishCurrentChunk None None b in
      ret (push stmt b).

(** Lines 262-315: a labeled [switch] whose cases passed the test. *)
Fixpoint flattenCases (switchVarName afterPath : string) (cases : list Node)
    (b : builder) : Rand (option builder) :=
  match cases with
  | [] => ret (Some b)
  | switchCase :: rest =>
      let test := nth 0 (children_of switchCase) Null in
      let consequent := children_of (nth 1 (children_of switchCase) Null) in
      let! entryPath := getPlaceholder in
      let b :=
        push (IfStatement
                (BinaryExpression "===" (Identifier switchVarName) test)
                [GotoStatement entryPath] None) b in
      bindOpt
        (flattenNested (removelast consequent ++ [GotoStatement afterPath])%list entryPath)
        (fun more =>
           let b := pushChunks more b in
           if is_nil rest then ret (Some b)
           else
             let! b := finishCurrentChunk None None b in
             flattenCases switchVarName afterPath rest b)
  end.

Definition flattenSwitch (discriminant : Node) (cases : list Node) (b : builder)
  : Rand (option builder) :=
  let! switchVarName := getPlaceholder in
  let b :=
    push (VariableDeclaration
            [VariableDeclarator (Identifier switchVarName) discriminant]) b in
  let! afterPath := getPlaceholder in
  let! b := finishCurrentChunk None None b in
  bindOpt (flattenCases switchVarName afterPath cases b)
    (fun b =>
       let! b := finishCurrentChunk (Some afterPath) (Some afterPath) b in
       ret (Some b)).

(** Lines 316-365: a labeled [for] or [while] loop with a block body
    [loopBody], after its jumps were replaced. *)
Definition flattenLoop (testPath updatePath bodyPath afterPath : string)
    (init test update : Node) (loopBody : list Node) (b : builder)
  : Rand (option builder) :=
  let b :=
    match kind_of init with
    | Ty.Null => b
    | Ty.VariableDeclaration _ => push init b
    | _ => push (ExpressionStatement init) b
    end in
  let! b := finishCurrentChunk (Some testPath) (Some testPath) b in
  let b := push (IfStatement (testOrTrue test) [GotoStatement bodyPath] None) b in
  let! b := finishCurrentChunk (Some afterPath) (Some bodyPath) b in
  let! innerBothPath := getPlaceholder in
  bindOpt
    (flattenNested (loopBody ++ [GotoStatement updatePath])%list innerBothPath)
    (fun more =>
       let b := pushChunks more b in
       let! b := finishCurrentChunk (Some innerBothPath) (Some updatePath) b in
       let b :=
         match kind_of update with
         | Ty.Null => b
         | _ => push (ExpressionStatement update) b
         end in
       let! b := finishCurrentChunk (Some testPath) (Some afterPath) b in
       ret (Some b)).

(** Lines 223-260 and 316: the four labels are drawn, the jumps of the
    loop body are checked and replaced, and the loop is flattened; when a
    jump leaves for another label the statement is kept whole. *)
Definition flattenLabeledLoop (stmt : Node) (lbl : string)
    (init test update loopBlock : Node) (b : builder) : Rand (option builder) :=
  let! testPath := getPlaceholder in
  let! updatePath := getPlaceholder in
  let! bodyPath := getPlaceholder in
  let! afterPath := getPlaceholder in
  match replaceJumps lbl afterPath updatePath loopBlock with
  | None => ret (Some (push stmt b))
  | Some (Nd _ [Nd Ty.Array loopBody]) =>
      flattenLoop testPath updatePath bodyPath afterPath init test update loopBody b
  | Some _ => ret (Some (push stmt b))
  end.

(** Lines 223-230 and 262 for a [switch]: the four labels are drawn
    although the switch uses none of them; [control.body] is undefined, so
    the walk finds nothing. *)
Definition flattenLabeledSwitch (discriminant : Node) (cases : list Node)
    (b : builder) : Rand (option builder) :=
  let! testPath := getPlaceholder in
  let! updatePath := getPlaceholder in
  let! bodyPath := getPlaceholder in
  let! afterPath := getPlaceholder in
  flattenSwitch discriminant cases b.

(** Lines 369-425: an [if] whose branches are blocks. *)
Definition flattenIf (test : Node) (consequent : list Node)
    (alternate : option (list Node)) (b : builder) : Rand (option builder) :=
  let! b := finishCurrentChunk None None b in
  let! yesPath := getPlaceholder in
  let! noPath := getPlaceholder in
  let! afterPath := getPlaceholder in
  let b := push (IfStatement test [GotoStatement yesPath] None) b in
  bindOpt
    (flattenNested (consequent ++ [GotoStatement afterPath])%list yesPath)
    (fun more =>
       let b := pushChunks more b in
       match alternate with
       | Some alternateBody =>
           bindOpt
             (flattenNested (alternateBody ++ [GotoStatement afterPath])%list noPath)
             (fun more =>
                let b := pushChunks more b in
                let! b := finishCurrentChunk (Some noPath) (Some afterPath) b in
                ret (Some b))
       | None =>
           let! b := finishCurrentChunk (Some afterPath) (Some afterPath) b in
           ret (Some b)
       end).

(** The callback of [body.forEach((stmt, i) => ...)].  [hoisted] tells
    that [functionDeclarations] has the statement, [isLast] that
    [i === body.length - 1]. *)
Definition flattenStatement (hoist : bool) (stmt : Node) (isLast : bool) (b : builder)
  : Rand (option builder) :=
  let otherwise := let! b := plain stmt b in ret (Some b) in
  match stmt with
  | Nd (Ty.FunctionDeclaration _ _) _ =>
      if hoist then ret (Some b) else otherwise
  | Nd (Ty.GotoStatement l) _ =>
      if isLast then otherwise
      else let! b := finishCurrentChunk (Some l) None b in ret (Some b)
  | Nd Ty.LabeledStatement [Nd (Ty.Identifier lbl) _; control] =>
      match control with
      | Nd Ty.SwitchStatement [discriminant; Nd Ty.Array cases] =>
          if is_nil cases || existsb (badCase lbl) cases
          then ret (Some (push stmt b))
          else flattenLabeledSwitch discriminant cases b
      | Nd Ty.ForStatement [init; test; update; Nd Ty.BlockStatement blk] =>
          flattenLabeledLoop stmt lbl init test update (Nd Ty.BlockStatement blk) b
      | Nd Ty.WhileStatement [test; Nd Ty.BlockStatement blk] =>
          flattenLabeledLoop stmt lbl Null test Null (Nd Ty.BlockStatement blk) b
      | _ => otherwise
      end
  | Nd Ty.IfStatement [test; Nd Ty.BlockStatement [Nd Ty.Array consequent]; alternate] =>
      match alternate with
      | Nd Ty.Null [] => flattenIf test consequent None b
      | Nd Ty.BlockStatement [Nd Ty.Array alternateBody] =>
          flattenIf test consequent (Some alternateBody) b
      | _ => otherwise
      end
  | _ => otherwise
  end.

Fixpoint forEachStatement (hoist : bool) (body : list Node) (b : builder)
  : Rand (option builder) :=
  match body with
  | [] => ret (Some b)
  | stmt :: rest =>
      bindOpt (flattenStatement hoist stmt (is_nil rest) b)
        (fun b => forEachStatement hoist rest b)
  end.

End Flattening.

(** [flattenBody(body, startingLabel)].  [depth] bounds the nesting of
    flattened structures; [hoist] is set for the body of the block itself,
    whose function declarations are in [functionDeclarations]. *)
Fixpoint flattenBody (depth : nat) (fraction : Q) (hoist : bool) (body : list Node)
    (startingLabel : option string) : Rand (option (list chunk)) :=
  match depth with
  | O => ret None
  | S depth' =>
      let! startingLabel :=
        (match startingLabel with Some l => ret l | None => getPlaceholder end) in
      bindOpt
        (forEachStatement fraction
           (fun body label => flattenBody depth' fraction false body (Some label))
           hoist body (mkBuilder [] [] startingLabel))
        (fun b =>
           let! b := finishCurrentChunk None None b in
           ret (Some (popLast (chunks b))))
  end.

(** Nesting depth of a tree: enough for [flattenBody]. *)
Fixpoint height (n : Node) : nat :=
  match n with
  | Nd _ cs => S (fold_right (fun c m => Nat.max (height c) m) 0%nat cs)
  end.

End Chunking.

(** ** Control Flow Flattening: rewriting the chunks and assembling the
    dispatcher ([controlFlowFlattening.ts], lines 81-148 and 442-752) *)
Module Assemble.
Import Random Ast JSNum Placeholder StateEncoding Chunking.

(** What the walk over a chunk statement knows when it leaves a node. *)
Record visited : Type := mkVisited {
  node : Node;                (* the node as it is now *)
  breaks : nat;               (* rewritten gotos below it that found no block yet *)
  replacedLiteral : bool      (* the node was a literal and has been replaced *)
}.

(** Lines 629-632: an integer literal of magnitude below 100000. *)
Definition eligibleLiteral (k : Ty.kind) : option Z :=
  match k with
  | Ty.Literal (LNum z) => if Z.abs z <? 100000 then Some z else None
  | _ => None
  end.

(** [replaceIdentifierOrLiteral]: a property or method whose key was
    replaced becomes computed. *)
Definition keyReplaced (k : Ty.kind) (children : list visited) : Ty.kind :=
  match children with
  | key :: _ =>
      if replacedLiteral key then
        match k with
        | Ty.Property _ => Ty.Property true
        | Ty.MethodDefinition _ => Ty.MethodDefinition true
        | _ => k
        end
      else k
  | [] => k
  end.

(** [n] copies of [x]. *)
Definition copies {A} (n : nat) (x : A) : list A := repeat x n.

(** [a.splice(index, 0, x)] *)
Definition splice {A} (index : nat) (x : A) (a : list A) : list A :=
  (firstn index a ++ x :: skipn index a)%list.

(** [Array.prototype.sort()] without a comparator orders the elements by
    their string forms. *)
Fixpoint insertSorted (x : nat) (l : list nat) : list nat :=
  match l with
  | [] => [x]
  | y :: rest =>
      if String.leb (pretty x) (pretty y) then x :: y :: rest
      else y :: insertSorted x rest
  end.

Definition sortAsStrings (l : list nat) : list nat :=
  fold_right insertSorted [] l.

Section WithEncoding.
Variable stateVars : list string.
Variable labelToStates : gmap string (list Z).
Variable switchLabel : string.
(** [labelToStates[chunk.label]] of the chunk being rewritten. *)
Variable chunkStates : list Z.

Definition breakOut : Node := BreakStatement (Some switchLabel).

(** A block body after its elements were visited: each is followed by
    one [break] per goto rewritten inside it ([p[blockIndex].body.splice]
    right after the element that holds the goto). *)
Definition withBreaks (elements : list visited) : list Node :=
  flat_map (fun v => node v :: copies (breaks v) breakOut) elements.

Definition pendingBreaks (vs : list visited) : nat :=
  fold_right (fun v m => (breaks v + m)%nat) 0%nat vs.

(** Modelled from the spec: [walk] of [traverse.ts] descends pre-order
    into every child of a node, arrays included, with the node added to
    the parents, and runs the exit callback of a node once its children
    are done (section 4.B).  Here: the children of a node, visited in order
    by [visit]. *)
Fixpoint eachChild (visit : Node -> positive -> Rand (option (visited * positive)))
    (cs : list Node) (made : positive) : Rand (option (list visited * positive)) :=
  match cs with
  | [] => ret (Some ([], made))
  | c :: rest =>
      bindOpt (visit c made)
        (fun r =>
           bindOpt (eachChild visit rest (snd r))
             (fun rs => ret (Some (fst r :: fst rs, snd rs))))
  end.

(** The exit of a node of kind [k] whose children were visited: a goto
    becomes the transition to its target, the [body] array of a block
    takes the breaks of its elements, any other node passes them up. *)
Definition leave (inBlock : bool) (k : Ty.kind) (vs : list visited)
  : Rand (option visited) :=
  match k with
  | Ty.GotoStatement target =>
      match labelToStates !! target with
      | None => ret None       (* [ok(nextStateValues, o.label)] fails *)
      | Some nextStateValues =>
          let! s := transitionStatement stateVars chunkStates nextStateValues in
          ret (Some (mkVisited s 1 false))
      end
  | Ty.Array =>
      if inBlock
      then ret (Some (mkVisited (Nd k (withBreaks vs)) 0 false))
      else ret (Some (mkVisited (Nd k (map node vs)) (pendingBreaks vs) false))
  | _ =>
      ret (Some (mkVisited (Nd (keyReplaced k vs) (map node vs)) (pendingBreaks vs) false))
  end.

(** Lines 627-684, the walk over one statement of a chunk.  [inFunction]
    tells that a parent is a var context, [inBlock] that the closest
    parent is a block (whose [body] array the node then is); [made] is the
    counter of replaced literals. *)
Fixpoint rewriteNode (inFunction inBlock : bool) (n : Node) (made : positive)
  : Rand (option (visited * positive)) :=
  match n with
  | Nd k cs =>
      let children :=
        eachChild (rewriteNode (inFunction || isVarContext n) (isBlock n)) cs in
      let descend :=
        bindOpt (children made)
          (fun r =>
             bindOpt (leave inBlock k (fst r))
               (fun v => ret (Some (v, snd r)))) in
      match eligibleLiteral k with
      | Some value =>
          let! u := Math_random in
          if Qlt_bool u (4 # made) && negb inFunction then
            bindOpt (children (made + 1)%positive)
              (fun r =>
                 let! e := numberLiteral stateVars value 0 chunkStates in
                 ret (Some (mkVisited e 0 true, snd r)))
          else descend
      | None => descend
      end
  end.

(** [chunk.body.forEach((stmt, stmtIndex) => ...)]: the statements after
    the walk, and [breaksInsertion]. *)
Fixpoint rewriteStatements (stmts : list Node) (stmtIndex : nat) (made : positive)
  : Rand (option (list Node * list nat)) :=
  match stmts with
  | [] => ret (Some ([], []))
  | stmt :: rest =>
      bindOpt (rewriteNode false false stmt made)
        (fun r =>
           let v := fst r in
           bindOpt (rewriteStatements rest (S stmtIndex) (snd r))
             (fun rs =>
                let addBreak := negb (Nat.eqb (breaks v) 0) in
                ret (Some (node v :: fst rs,
                           if addBreak then stmtIndex :: snd rs else snd rs))))
  end.

(** Lines 691-696: [breaksInsertion.sort(); breaksInsertion.reverse();]
    then one [splice] per index. *)
Definition insertBreaks (body : list Node) (breaksInsertion : list nat) : list Node :=
  fold_left (fun body index => splice (index + 1) breakOut body)
    (rev (sortAsStrings breaksInsertion)) body.

(** The body of a case: lines 620-696 for one chunk. *)
Definition rewriteChunk (body : list Node) : Rand (option (list Node)) :=
  bindOpt (rewriteStatements body 0 1%positive)
    (fun r => ret (Some (insertBreaks (fst r) (snd r)))).

End WithEncoding.

Record case : Type := mkCase { caseBody : list Node; state : Z; order : nat }.

(** [chunks.forEach((chunk, i) => ...)] of lines 612-710, from index [i]
    on. *)
Fixpoint makeCases (e : encoding) (endLabel : string) (chunks : list chunk) (i : nat)
  : Rand (option (list case)) :=
  match chunks with
  | [] => ret (Some [])
  | c :: rest =>
      if String.eqb (label c) endLabel then makeCases e endLabel rest (S i)
      else
        match labelToStates e !! label c with
        | None => ret None                (* [ok(labelToStates[chunk.label])] fails *)
        | Some chunkStates =>
            bindOpt
              (rewriteChunk (stateVars e) (labelToStates e) (switchLabel e) chunkStates
                 (body c))
              (fun caseBody =>
                 bindOpt (makeCases e endLabel rest (S i))
                   (fun cases =>
                      ret (Some (mkCase caseBody (nth i (caseStates e) 0) i :: cases))))
        end
  end.

Inductive outcome : Type :=
| Unchanged
| Rewritten (body : list Node).

Definition isFunctionDeclaration (n : Node) : bool :=
  match kind_of n with Ty.FunctionDeclaration _ _ => true | _ => false end.

(** [chunks[chunks.length - 1].body.push(goto END_LABEL);
     chunks.push({ label: "END_LABEL", body: [] })] *)
Fixpoint closeChunks (cs : list chunk) : list chunk :=
  match cs with
  | [] => [mkChunk "END_LABEL" []]
  | [c] => [mkChunk (label c) (body c ++ [GotoStatement "END_LABEL"])%list;
            mkChunk "END_LABEL" []]
  | c :: rest => c :: closeChunks rest
  end.

Section Transform.
(** [shuffle] of [util/random.ts], which is not among the sources. *)
Variable shuffle : list case -> Rand (list case).
(** The guards that other modules decide: [containsLexicallyBoundVariables],
    the probability map, and the redefinition of a hoisted function
    (lines 87-139). *)
Variable lexicallyBound : bool.
Variable approve : Rand bool.
Variable redefined : bool.

(** Lines 712-748. *)
Definition assemble (e : encoding) (functionDeclarations : list Node)
    (cases : list case) (initStateValues : list Z) (endState : Z) : list Node :=
  let discriminant := discriminant (stateVars e) in
  let switchStatement :=
    SwitchStatement discriminant
      (map (fun x => SwitchCase (NumLit (state x)) (caseBody x)) cases) in
  (rev functionDeclarations ++
   [VariableDeclaration
      (map (fun vi => VariableDeclarator (Identifier (fst vi)) (NumLit (snd vi)))
           (combine (stateVars e) initStateValues));
    WhileStatement
      (BinaryExpression "!=" discriminant (NumLit endState))
      [LabeledStatement (switchLabel e) switchStatement]])%list.

(** The exit callback of [transform] for a block with statements [body].
    [fuel] bounds the draws of state totals. *)
Definition transform (fuel : nat) (body : list Node) : Rand (option outcome) :=
  if (length body <? 3)%nat then ret (Some Unchanged)
  else if lexicallyBound then ret (Some Unchanged)
  else
    let! approved := approve in
    if negb approved then ret (Some Unchanged)
    else
      let functionDeclarations := List.filter isFunctionDeclaration body in
      if redefined then ret (Some Unchanged)
      else
        let fraction := Fraction.fraction (length body) in
        bindOpt
          (flattenBody (height (Arr body)) fraction true body None)
          (fun chunks =>
             let chunks := closeChunks chunks in
             if (length chunks <? 3)%nat then ret (Some Unchanged)
             else
               let startLabel := label (hd (mkChunk "" []) chunks) in
               let endLabel := label (List.last chunks (mkChunk "" [])) in
               bindOpt (encodeStates fuel (map label chunks))
                 (fun e =>
                    match labelToStates e !! startLabel, labelToStates e !! endLabel with
                    | Some initStateValues, Some endStateValues =>
                        let endState := getCurrentState endStateValues in
                        bindOpt (makeCases e endLabel chunks 0)
                          (fun cases =>
                             let! cases := shuffle cases in
                             ret (Some (Rewritten
                                          (assemble e functionDeclarations cases
                                             initStateValues endState))))
                    | _, _ => ret None
                    end)).

End Transform.

End Assemble.

(** A sample block for the worked example of Control Flow Flattening:
    [var a = 1; var b = 2;
     L: while (a < 5) { a = a + 1; if (a === 3) continue L; b = b + a; }
     if (b) { b = 0; } else { b = 1; }
     return b;] *)
Module CFFSamples.
Import Ast.
Definition assign (x : string) (e : Node) : Node :=
  ExpressionStatement (AssignmentExpression "=" (Identifier x) e).
Definition var (x : string) (z : Z) : Node :=
  VariableDeclaration [VariableDeclarator (Identifier x) (NumLit z)].
Definition block : list Node :=
  [ var "a" 1; var "b" 2;
    LabeledStatement "L"
      (WhileStatement (BinaryExpression "<" (Identifier "a") (NumLit 5))
         [ assign "a" (BinaryExpression "+" (Identifier "a") (NumLit 1));
           Nd Ty.IfStatement
             [BinaryExpression "===" (Identifier "a") (NumLit 3);
              ContinueStatement (Some "L"); Null];
           assign "b" (BinaryExpression "+" (Identifier "b") (Identifier "a")) ]);
    IfStatement (Identifier "b") [assign "b" (NumLit 0)] (Some [assign "b" (NumLit 1)]);
    ReturnStatement (Identifier "b") ].
Definition reverse (l : list Assemble.case) : Random.Rand (list Assemble.case) :=
  Random.ret (rev l).
End CFFSamples.

(** ** Shapes of generated names

    What the generated names look like, character by character. *)
Module Shape.

(** An ASCII decimal digit. *)
Definition isDecimal (c : ascii) : bool :=
  (48 <=? nat_of_ascii c)%nat && (nat_of_ascii c <=? 57)%nat.

(** A character that may start a JavaScript identifier, among ASCII:
    a letter or the underscore. *)
Definition identStart (c : ascii) : bool :=
  let n := nat_of_ascii c in
  ((65 <=? n) && (n <=? 90) || (97 <=? n) && (n <=? 122) || (n =? 95))%nat.

(** A character that may continue one. *)
Definition identPart (c : ascii) : bool := identStart c || isDecimal c.

(** The string is one character, which satisfies [p]. *)
Definition single (p : ascii -> bool) (s : string) : bool :=
  match s with
  | String c EmptyString => p c
  | _ => false
  end.

(** A well-formed ASCII identifier. *)
Definition wellFormed (s : string) : bool :=
  match s with
  | String c rest => identStart c && forallb identPart (list_ascii_of_string rest)
  | EmptyString => false
  end.

End Shape.

(** ** Independent name generators ([transform.ts], [getGenerator], lines 187-203) *)
Module Generator.
Import Random Identifiers.

(** The two variables that [generate] closes over. *)
Record generator : Type := mkGenerator {
  count : Z;
  identifiers : gset string
}.

(** [var count = 0; var identifiers = new Set();] *)
Definition fresh : generator := mkGenerator 0 ∅.

(** ["var_" + count], the name of the [number] mode. *)
Definition numbered (k : Z) : string := ("var_" ++ pretty k)%string.

Section WithConstants.
Variables reservedKeywords reservedIdentifiers : gset string.
Variable alphabeticalGenerator : Z -> string.
(** The mode for [overrideMode || this.options.identifierGenerator]. *)
Variable resolveMode : Rand string.

(** [generate()]: the [do { count++; ... } while (identifiers.has(retValue))]
    loop, then [identifiers.add(retValue)].  [fuel] bounds its iterations
    and those of the loops inside [generateIdentifier]. *)
Fixpoint generate (fuel : nat) (gen : generator) (o : obfuscator)
  : Rand (outcome string * generator * obfuscator) :=
  match fuel with
  | O => ret (OutOfFuel, gen, o)
  | S fuel' =>
      let gen := mkGenerator (count gen + 1) (identifiers gen) in
      let! r := generateIdentifier reservedKeywords reservedIdentifiers
                  alphabeticalGenerator resolveMode fuel' (-1) (count gen) o in
      match fst r with
      | Returned retValue =>
          if bool_decide (retValue ∈ identifiers gen)
          then generate fuel' gen (snd r)
          else ret (Returned retValue,
                    mkGenerator (count gen) ({[retValue]} ∪ identifiers gen), snd r)
      | Threw m => ret (Threw m, gen, snd r)
      | OutOfFuel => ret (OutOfFuel, gen, snd r)
      end
  end.

(** [n] calls of [generate()], one after the other; the names returned,
    oldest first. *)
Fixpoint generateMany (fuel : nat) (n : nat) (gen : generator) (o : obfuscator)
  : Rand (outcome (list string) * generator * obfuscator) :=
  match n with
  | O => ret (Returned [], gen, o)
  | S n' =>
      let! r := generate fuel gen o in
      match r with
      | (Returned id, gen, o) =>
          let! rs := generateMany fuel n' gen o in
          match rs with
          | (Returned ids, gen, o) => ret (Returned (id :: ids), gen, o)
          | other => ret other
          end
      | (Threw m, gen, o) => ret (Threw m, gen, o)
      | (OutOfFuel, gen, o) => ret (OutOfFuel, gen, o)
      end
  end.

End WithConstants.
End Generator.

(** ** Node objects in place ([transform.ts], [replace] and [objectAssign],
    lines 349-391)

    [replace] and [objectAssign] work on the node objects themselves, which
    other nodes keep pointing to.  Here a node object is a finite map from
    property names to values, and the store maps an object's identity to
    its current contents. *)
Module Objects.

Inductive value : Type :=
| Comments (items : list string)     (* an array of comments *)
| Text (s : string)
| Opaque (tag : nat).                (* any other value, known by identity *)

Abbreviation object := (gmap string value).
Abbreviation store := (gmap nat object).

(** [node.leadingComments || []]; a value that is neither absent nor an
    array is outside the model. *)
Definition commentsOf (n : object) : option (list string) :=
  match n !! "leadingComments" with
  | None => Some []
  | Some (Comments l) => Some l
  | Some _ => None
  end.

(** [objectAssign(node1, node2)] for the objects at [l1] and [l2]; [None]
    when an [ok(...)] assertion fails. *)
Definition objectAssign (className : string) (l1 l2 : nat) (h : store) : option store :=
  match h !! l1, h !! l2 with
  | Some node1, Some node2 =>
      match commentsOf node1, commentsOf node2 with
      | Some comments1, Some comments2 =>
          let comments := (comments1 ++ comments2)%list in
          (* node2.leadingComments = comments *)
          let h := alter (insert "leadingComments" (Comments comments)) l2 h in
          (* node1._transform = node2._transform = this.className *)
          let h := alter (insert "_transform" (Text className)) l2 h in
          let h := alter (insert "_transform" (Text className)) l1 h in
          (* Object.assign(node1, node2) *)
          match h !! l1, h !! l2 with
          | Some node1, Some node2 => Some (<[l1 := node2 ∪ node1]> h)
          | _, _ => None
          end
      | _, _ => None
      end
  | _, _ => None
  end.

(** [for (var key in node1) delete node1[key]] *)
Definition clear (l : nat) (h : store) : store := alter (fun _ => ∅) l h.

Definition replace (className : string) (l1 l2 : nat) (h : store) : option store :=
  objectAssign className l1 l2 (clear l1 h).

End Objects.

(** ** Control Flow Flattening: where the breaks go *)
Module BreakSpec.
Import Ast.
(** The statements [body], numbered from [i] on, each followed by
    [break] when its number is in [idxs]. *)
Fixpoint breaksAfter (break : Node) (idxs : list nat) (i : nat) (body : list Node)
  : list Node :=
  match body with
  | [] => []
  | s :: rest =>
      (s :: (if existsb (Nat.eqb i) idxs then [break] else [])
         ++ breaksAfter break idxs (S i) rest)%list
  end.
End BreakSpec.

(** ** Control Flow Flattening: the jumps of the chunks *)
Module Targets.
Import Ast Chunking.

(** The labels that the [GotoStatement]s of a tree jump to. *)
Fixpoint gotoTargets (n : Node) : gset string :=
  match n with
  | Nd k cs =>
      (match k with Ty.GotoStatement l => {[ l ]} | _ => ∅ end)
        ∪ ⋃ (map gotoTargets cs)
  end.

Definition targetsOf (stmts : list Node) : gset string :=
  ⋃ (map gotoTargets stmts).

(** The labels jumped to from the bodies of [cs], and the labels that
    [cs] defines. *)
Definition chunkTargets (cs : list chunk) : gset string :=
  ⋃ (map (fun c => targetsOf (body c)) cs).

Definition chunkLabels (cs : list chunk) : gset string :=
  list_to_set (map label cs).

(** The last statement is a [GotoStatement]. *)
Definition endsWithGoto (stmts : list Node) : bool :=
  isGoto (List.last stmts Null).

(** What [flattenBody] returns once its [forEach] has left the builder
    [b]: the last [finishCurrentChunk()] closes the current chunk and the
    goto it added is popped again. *)
Definition closed (b : builder) : list chunk :=
  (chunks b ++ [mkChunk (currentLabel b) (currentBody b)])%list.

(** What holds of the builder between two statements of the [forEach]
    that started at label [start], when the statements may jump to the
    labels [ext]: the first chunk carries the starting label, every
    finished chunk ends with a goto, and every goto so far leads to a
    chunk, to the current label or to [ext]. *)
Record inv (start : string) (ext : gset string) (b : builder) : Prop := mkInv {
  inv_entry :
    match chunks b with c :: _ => label c = start | [] => currentLabel b = start end;
  inv_goto : Forall (fun c => endsWithGoto (body c) = true) (chunks b);
  inv_targets :
    chunkTargets (chunks b) ∪ targetsOf (currentBody b)
      ⊆ {[ currentLabel b ]} ∪ chunkLabels (chunks b) ∪ ext
}.

(** The same of a finished list of chunks. *)
Record wellChunked (start : string) (ext : gset string) (cs : list chunk) : Prop :=
  mkWellChunked {
  wc_entry : exists c rest, cs = c :: rest /\ label c = start;
  wc_goto : Forall (fun c => endsWithGoto (body c) = true) (removelast cs);
  wc_targets : chunkTargets cs ⊆ chunkLabels cs ∪ ext
}.

End Targets.

(** ** Control Flow Flattening: nodes that the walk over a chunk passes by *)
Module Walk.
Import Ast Assemble.

(** A node that the walk left as it was: nothing replaced, no break
    pending. *)
Definition kept (n : Node) : visited := mkVisited n 0 false.

End Walk.

(** ** RGF: what the queue depends on ([rgf.ts], lines 194-246) *)
Module Closure.
Import Resolve.

(** The entry [o] of the current list [whole] stands for the entry [o0]
    of [collect]: the same function, and every name that its reference
    set lost is the name of a candidate elsewhere whose reference set is
    empty. *)
Definition justified (whole : list candidate) (o0 o : candidate) : Prop :=
  location o = location o0 /\
  references o ⊆ references o0 /\
  forall x, x ∈ references o0 -> x ∉ references o ->
            exists r, In r whole /\ references r = ∅ /\ has_name r = Some x /\
                      location r <> location o0.

End Closure.

(** ** Control Flow Flattening: straight-line code
    ([controlFlowFlattening.ts], lines 150-177 and 427-440) *)
Module Chain.
Import Ast Chunking.

(** A statement that [flattenBody] treats as it stands: no function
    declaration, no jump of its own, no labeled statement and no [if]. *)
Definition simple (n : Node) : bool :=
  match kind_of n with
  | Ty.FunctionDeclaration _ _ | Ty.GotoStatement _
  | Ty.LabeledStatement | Ty.IfStatement => false
  | _ => true
  end.

(** The statements met when the chunks are run from the first one on, as
    long as each ends with the jump to the chunk that comes next in the
    list; the last chunk is run to its end. *)
Fixpoint follow (cs : list chunk) : option (list Node) :=
  match cs with
  | [] => None
  | c :: rest =>
      match rest with
      | [] => Some (body c)
      | next :: _ =>
          match List.last (body c) Null with
          | Nd (Ty.GotoStatement l) [] =>
              if String.eqb l (label next)
              then option_map (app (removelast (body c))) (follow rest)
              else None
          | _ => None
          end
      end
  end.

(** The chunks [cs] hold the statements [stmts], each chunk ends with the
    jump to the next one, and the last with the jump to [next]. *)
Fixpoint chainedTo (cs : list chunk) (next : string) (stmts : list Node) : Prop :=
  match cs with
  | [] => stmts = []
  | c :: rest =>
      exists s stmts',
        body c = (s ++ [GotoStatement
                          (match rest with [] => next | c' :: _ => label c' end)])%list /\
        stmts = (s ++ stmts')%list /\ chainedTo rest next stmts'
  end.

(** Where the statements seen so far are: in the closed chunks, then in
    the chunk under construction. *)
Definition carries (b : builder) (pre : list Node) : Prop :=
  exists p, pre = (p ++ currentBody b)%list /\ chainedTo (chunks b) (currentLabel b) p.

End Chain.

(** ** Flatten: what a function reads and writes
    (class [Flatten], lines 151-233) *)
Module FlattenScan.
Import Ast Scope.

(** A JavaScript [Set] of strings, in insertion order. *)
Definition has (x : string) (s : list string) : bool := existsb (String.eqb x) s.
Definition add (x : string) (s : list string) : list string :=
  if has x s then s else (s ++ [x])%list.
Definition delete (x : string) (s : list string) : list string :=
  List.filter (fun y => negb (String.eqb y x)) s.
(** [new Set(xs)] *)
Definition setOf (xs : list string) : list string :=
  fold_left (fun s x => add x s) xs [].

(** One call of the callback of [walk(object, parents, ...)]: the node
    [o], the answer of [getIdentifierInfo(o, p)], [o.hidden], and whether
    [o] is [object.id]. *)
Record visit : Type := mkVisit {
  node : Node;
  info : IdentifierInfo;
  hidden : bool;
  isOwnId : bool
}.

Record sets : Type := mkSets {
  defined : list string;
  references : list string;
  modified : list string;
  illegal : list string
}.

Section WithOptions.
Variable globalVariables : gset string.
Variable reservedIdentifiers : gset string.
(** [this.definedNames.get(x)] for the parents [x] that have a set. *)
Variable definedNames : list (gset string).

(** The name of [o] when the first [if] of the callback is entered. *)
Definition eligible (o : Node) : option string :=
  match o with
  | Nd (Ty.Identifier name) _ =>
      if negb (bool_decide (name ∈ globalVariables))
         && negb (bool_decide (name ∈ reservedIdentifiers))
      then Some name else None
  | _ => None
  end.

(** The tests that set [isIllegal] and return ["EXIT"]. *)
Definition exits (o : Node) : bool :=
  match kind_of o with
  | Ty.TryStatement => true
  | Ty.Identifier name => String.eqb name "arguments"
  | Ty.ThisExpression => true
  | Ty.Super => true
  | Ty.MetaProperty => true
  | Ty.VariableDeclaration kind => negb (String.eqb kind "var")
  | _ => false
  end.

(** The callback: the sets afterwards, and whether it set [isIllegal]
    and returned ["EXIT"]. *)
Definition callback (v : visit) (s : sets) : sets * bool :=
  if isOwnId v then (s, false)
  else
    let typeTests (s : sets) := (s, exits (node v)) in
    match eligible (node v) with
    | Some name =>
        if negb (isReferenced (info v)) then (s, false)
        else if hidden v then
          typeTests (mkSets (defined s) (references s) (modified s) (add name (illegal s)))
        else if isDefined (info v) then
          typeTests (mkSets (add name (defined s)) (references s) (modified s) (illegal s))
        else if isModified (info v) then
          typeTests (mkSets (defined s) (references s) (add name (modified s)) (illegal s))
        else
          typeTests (mkSets (defined s) (add name (references s)) (modified s) (illegal s))
    | None => typeTests s
    end.

(** The walk over the visits [vs]: the sets, and [isIllegal]. *)
Fixpoint scan (vs : list visit) (s : sets) : sets * bool :=
  match vs with
  | [] => (s, false)
  | v :: rest =>
      let (s', exit) := callback v s in
      if exit then (s', true) else scan rest s'
  end.

(** [defined.forEach((name) => { references.delete(name);
    modified.delete(name); })] *)
Definition withoutDefined (s : sets) : sets :=
  fold_left (fun s name =>
               mkSets (defined s) (delete name (references s))
                 (delete name (modified s)) (illegal s))
    (defined s) s.

Definition definedAbove : gset string := globalVariables ∪ ⋃ definedNames.

(** Lines 151-233: [input] and [output] of a function that is flattened,
    nothing when the callback returns before. *)
Definition classify (vs : list visit) : option (list string * list string) :=
  let (s, isIllegal) := scan vs (mkSets [] [] [] []) in
  if isIllegal then None
  else if negb (Nat.eqb (length (illegal s)) 0) then None
  else
    let s := withoutDefined s in
    let input := setOf (modified s ++ references s) in
    match List.find (fun x => negb (bool_decide (x ∈ definedAbove))) input with
    | Some x => if String.eqb x "" then Some (input, modified s) else None
    | None => Some (input, modified s)
    end.

(** The occurrence [v] is counted under the name [x]: the callback
    reaches the four sets with it. *)
Definition counted (v : visit) (x : string) : Prop :=
  isOwnId v = false /\ eligible (node v) = Some x /\
  isReferenced (info v) = true /\ hidden v = false.

(** Some occurrence among [vs] is counted under [x] and is a definition,
    a modification, a plain reference. *)
Definition definedBy (vs : list visit) (x : string) : Prop :=
  exists v, In v vs /\ counted v x /\ isDefined (info v) = true.
Definition modifiedBy (vs : list visit) (x : string) : Prop :=
  exists v, In v vs /\ counted v x /\ isDefined (info v) = false /\
            isModified (info v) = true.
Definition referencedBy (vs : list visit) (x : string) : Prop :=
  exists v, In v vs /\ counted v x /\ isDefined (info v) = false /\
            isModified (info v) = false.
Definition hiddenBy (vs : list visit) (x : string) : Prop :=
  exists v, In v vs /\ isOwnId v = false /\ eligible (node v) = Some x /\
            isReferenced (info v) = true /\ hidden v = true.
(** The callback reaches the tests on the node type. *)
Definition reached (v : visit) : Prop :=
  isOwnId v = false /\
  (eligible (node v) = None \/ isReferenced (info v) = true).

(** The sets hold what the occurrences among [vs] put there, besides
    what [s0] held. *)
Record collects (vs : list visit) (s0 s : sets) : Prop := mkCollects {
  c_defined : forall x, In x (defined s) <-> In x (defined s0) \/ definedBy vs x;
  c_modified : forall x, In x (modified s) <-> In x (modified s0) \/ modifiedBy vs x;
  c_references : forall x, In x (references s) <-> In x (references s0) \/ referencedBy vs x;
  c_illegal : forall x, In x (illegal s) <-> In x (illegal s0) \/ hiddenBy vs x;
  c_nodup : List.NoDup (defined s0) -> List.NoDup (modified s0) ->
            List.NoDup (references s0) ->
            List.NoDup (defined s) /\ List.NoDup (modified s) /\ List.NoDup (references s);
  c_reached : forall v, In v vs -> reached v -> exits (node v) = false
}.

End WithOptions.

End FlattenScan.

(** ** RGF: the slots of the reference array
    ([rgf.ts], lines 228-246, 323-333 and 441-443) *)
Module Slots.
Import Ast.

(** An entry of [queue]: a function declaration with its name
    [object.id.name], or another function; [content] is the expression
    [applySignature(newFunction)] built for it. *)
Inductive entry : Type :=
| Declaration (name : string) (content : Node)
| Expression (content : Node).

(** [var index = names.size; names.set(object.id.name, index);] *)
Definition assignIndex (names : gmap string nat) (q : entry) : gmap string nat :=
  match q with
  | Declaration name _ => <[name := size names]> names
  | Expression _ => names
  end.

(** The first [forEach]: [names] once every queued function is seen. *)
Definition assignNames (queue : list entry) : gmap string nat :=
  fold_left assignIndex queue ∅.

(** [elements[i] = v] on a JavaScript array: inside the array the element
    is replaced, beyond its end the array grows, with holes up to [i]. *)
Definition store (i : nat) (v : Node) (elements : list (option Node))
  : list (option Node) :=
  if (i <? length elements)%nat then <[i := Some v]> elements
  else (elements ++ repeat None (i - length elements) ++ [Some v])%list.

(** [arrayExpression.elements[names.get(name)] = applySignature(newFunction)] *)
Definition fill (names : gmap string nat) (elements : list (option Node)) (q : entry)
  : list (option Node) :=
  match q with
  | Declaration name content =>
      match names !! name with
      | Some index => store index content elements
      | None => elements
      end
  | Expression _ => elements
  end.

(** The second [forEach], on the array that starts empty. *)
Definition fillAll (names : gmap string nat) (queue : list entry) : list (option Node) :=
  fold_left (fill names) queue [].

(** The declarations of the queue, in its order. *)
Definition declared (queue : list entry) : list (string * Node) :=
  flat_map (fun q => match q with
                     | Declaration name content => [(name, content)]
                     | Expression _ => []
                     end) queue.

End Slots.

(** ** Dispatcher: which functions are dispatched
    (class [Dispatcher], lines 114-194) *)
Module DispatcherScan.
Import Ast Scope.

(** One call of the callback of [walk(object, parents, ...)]: the node
    [o] with its identity, and what the callback asks about it:
    [object == o], [context === c], [o.$requiresEval], whether a parent
    has [$dispatcherSkip] or is a [MethodDefinition], whether the inner walk
    finds [arguments], [this] or [super] of [o] itself,
    [getIdentifierInfo(o, p)], and [p[0].id.name] with the identity of
    [p[0]] when [p[0].id] is there. *)
Record visit : Type := mkVisit {
  node : Node;
  identity : nat;
  isObject : bool;
  inContext : bool;
  requiresEval : bool;
  skipped : bool;
  usesThis : bool;
  info : IdentifierInfo;
  parentDeclaration : option (string * nat)
}.

Record state : Type := mkState {
  functionDeclarations : gmap string nat;
  identifiers : list nat;
  illegalFnNames : gset string
}.

(** [o.type == "FunctionDeclaration" && o.id.name] *)
Definition declaration (o : Node) : option string :=
  match o with
  | Nd (Ty.FunctionDeclaration _ _) (Nd (Ty.Identifier name) _ :: _) =>
      if String.eqb name "" then None else Some name
  | _ => None
  end.

(** [o.$requiresEval || o.async || o.generator || p.find(...) ||
    o.body.type != "BlockStatement"] *)
Definition unsuitable (v : visit) : bool :=
  requiresEval v
  || match node v with
     | Nd (Ty.FunctionDeclaration async generator) [_; _; body] =>
         async || generator || skipped v
         || match kind_of body with Ty.BlockStatement => false | _ => true end
     | _ => skipped v
     end.

Section WithReserved.
Variable reservedIdentifiers : gset string.

(** The first half of the callback; the flag tells that it returned. *)
Definition declare (v : visit) (st : state) : state * bool :=
  if inContext v then
    match declaration (node v) with
    | Some name =>
        let illegal :=
          if unsuitable v then {[ name ]} ∪ illegalFnNames st else illegalFnNames st in
        match functionDeclarations st !! name with
        | Some _ =>
            (mkState (functionDeclarations st) (identifiers st) ({[ name ]} ∪ illegal), true)
        | None =>
            let illegal := if usesThis v then {[ name ]} ∪ illegal else illegal in
            (mkState (<[ name := identity v ]> (functionDeclarations st))
               (identifiers st) illegal, false)
        end
    | None => (st, false)
    end
  else (st, false).

Definition flag (name : string) (st : state) : state :=
  mkState (functionDeclarations st) (identifiers st) ({[ name ]} ∪ illegalFnNames st).

(** The second half: [if (o.type == "Identifier") ...]. *)
Definition identifier (v : visit) (st : state) : state :=
  match node v with
  | Nd (Ty.Identifier name) _ =>
      if bool_decide (name ∈ reservedIdentifiers) then st
      else if negb (isReferenced (info v)) then st
      else if isDefined (info v) then
        if isFunctionDeclaration (info v) then
          match parentDeclaration v with
          | Some (parentName, parent) =>
              match functionDeclarations st !! parentName with
              | Some d => if Nat.eqb d parent then st else flag name st
              | None => flag name st
              end
          | None => st
          end
        else flag name st
      else if isModified (info v) then flag name st
      else mkState (functionDeclarations st) (identifiers st ++ [identity v])
             (illegalFnNames st)
  | _ => st
  end.

Definition callback (st : state) (v : visit) : state :=
  if isObject v then st
  else
    let (st', returned) := declare v st in
    if returned then st' else identifier v st'.

Definition collect (vs : list visit) : state :=
  fold_left callback vs (mkState ∅ [] ∅).

(** [illegalFnNames.forEach((name) => { delete functionDeclarations[name] })]:
    the declarations that get a new name. *)
Definition dispatched (vs : list visit) : gmap string nat :=
  let st := collect vs in
  filter (fun entry => entry.1 ∉ illegalFnNames st) (functionDeclarations st).

(** The visit declares the function [name] in the context. *)
Definition declares (v : visit) (name : string) : Prop :=
  isObject v = false /\ inContext v = true /\ declaration (node v) = Some name.

(** The visit is an occurrence of [name] that assigns to it or defines it
    otherwise than as a function declaration. *)
Definition spoils (v : visit) (name : string) : Prop :=
  isObject v = false /\ kind_of (node v) = Ty.Identifier name /\
  name ∉ reservedIdentifiers /\ isReferenced (info v) = true /\
  (isDefined (info v) = true /\ isFunctionDeclaration (info v) = false \/
   isDefined (info v) = false /\ isModified (info v) = true).

(** The visit is pushed to [identifiers]. *)
Definition pushed (v : visit) : bool :=
  negb (isObject v)
  && match node v with
     | Nd (Ty.Identifier name) _ =>
         Dispatcher.collected (bool_decide (name ∈ reservedIdentifiers)) (info v)
     | _ => false
     end.

End WithReserved.

End DispatcherScan.


(** ** Properties *)

(** *** Induction over syntax trees *)
Section TreeInduction.
Import Ast.

Lemma Node_rect_Forall (P : Node -> Prop) :
  (forall k cs, Forall P cs -> P (Nd k cs)) -> forall n, P n.
Proof.
  intros H. fix IH 1. intros [k cs]. apply H.
  induction cs as [|c cs IHcs]; constructor; [apply IH | exact IHcs].
Qed.

End TreeInduction.


Section FractionFacts.
Import JSNum Fraction.
Local Open Scope Q_scope.

Lemma schedule_finite (len : nat) :
  exists q, schedule len = Fin q /\ 0 < q.
Proof.
  unfold schedule. destruct (20 <? Z.of_nat len)%Z eqn:E.
  - unfold js_div.
    assert (Hpos : 0 < Qmax (12 # 10) (inject_Z (Z.of_nat len - 18))).
    { eapply Qlt_le_trans; [| apply Q.le_max_l]. reflexivity. }
    destruct (Qeq_bool _ 0) eqn:E0.
    + apply Qeq_bool_iff in E0. rewrite E0 in Hpos. discriminate.
    + eexists; split; [reflexivity|].
      apply Qlt_shift_div_l; [exact Hpos|]. rewrite Qmult_0_l. reflexivity.
  - eexists; split; [reflexivity|]. reflexivity.
Qed.

Lemma schedule_short (len : nat) :
  (len <= 20)%nat -> schedule len = Fin (9 # 10).
Proof.
  intros H. unfold schedule.
  destruct (20 <? Z.of_nat len)%Z eqn:E; [|reflexivity].
  apply Z.ltb_lt in E. lia.
Qed.

Lemma schedule_long (len : nat) :
  (20 < len)%nat ->
  schedule len = Fin ((9 # 10) / inject_Z (Z.of_nat len - 18)).
Proof.
  intros H. unfold schedule.
  destruct (20 <? Z.of_nat len)%Z eqn:E.
  2:{ apply Z.ltb_ge in E. lia. }
  assert (Hle : 12 # 10 <= inject_Z (Z.of_nat len - 18)).
  { unfold Qle; simpl. lia. }
  unfold js_div.
  destruct (Qeq_bool _ 0) eqn:E0.
  - apply Qeq_bool_iff in E0.
    assert (Hpos : 0 < Qmax (12 # 10) (inject_Z (Z.of_nat len - 18))).
    { eapply Qlt_le_trans; [| apply Q.le_max_l]. reflexivity. }
    rewrite E0 in Hpos. discriminate.
  - f_equal. unfold Qmax, GenericMinMax.gmax.
    destruct (Qcompare_spec (12 # 10) (inject_Z (Z.of_nat len - 18))) as [He|Hl|Hg].
    + exfalso. unfold Qeq in He; simpl in He. lia.
    + reflexivity.
    + exfalso. apply (Qlt_not_le _ _ Hg). exact Hle.
Qed.

End FractionFacts.

Section FractionClamp.
Import JSNum Fraction.
Local Open Scope Q_scope.

Lemma fraction_short (len : nat) :
  (len <= 20)%nat -> fraction len = Qmin (1 # 10) (9 # 10).
Proof.
  intros H. unfold fraction. rewrite (schedule_short len H). reflexivity.
Qed.

Lemma fraction_long (len : nat) :
  (20 < len)%nat ->
  fraction len = Qmin (1 # 10) ((9 # 10) / inject_Z (Z.of_nat len - 18)).
Proof.
  intros H. unfold fraction. rewrite (schedule_long len H). reflexivity.
Qed.

Lemma ninth_cmp (k : Z) :
  (0 < k)%Z ->
  ((k <= 9)%Z -> 1 # 10 <= (9 # 10) / inject_Z k) /\
  ((9 < k)%Z -> (9 # 10) / inject_Z k < 1 # 10).
Proof.
  intros Hk. destruct k as [|p|p]; try lia.
  unfold Qdiv, Qinv, inject_Z; simpl Qnum; cbv iota beta.
  split; intros H.
  - unfold Qle; simpl. lia.
  - unfold Qlt; simpl. lia.
Qed.

(** C9.  The chunk-splitting fraction never exceeds 0.1: it is the
    minimum of 0.1 and the length schedule (0.9, divided by
    max(1.2, len - 18) past twenty statements); it is exactly 0.1 for
    every block of at most 27 statements and strictly below 0.1 exactly
    for the longer ones.  The NaN / infinity fallback to 0.5 never
    fires. *)
Theorem fraction_is_clamped (len : nat) :
  (exists f, schedule len = Fin f /\ fraction len = Qmin (1 # 10) f) /\
  fraction len <= 1 # 10 /\
  ((len <= 27)%nat -> fraction len == 1 # 10) /\
  (fraction len < 1 # 10 <-> (27 < len)%nat).
Proof.
  destruct (le_lt_dec len 20) as [Hs|Hl].
  - rewrite (fraction_short len Hs). split; [|split; [|split]].
    + exists (9 # 10). split; [apply schedule_short; exact Hs | reflexivity].
    + apply Q.le_min_l.
    + intros _. reflexivity.
    + split; [intros H; vm_compute in H; discriminate | lia].
  - rewrite (fraction_long len Hl).
    assert (Hk : (0 < Z.of_nat len - 18)%Z) by lia.
    destruct (ninth_cmp _ Hk) as [Hge Hlt].
    split; [|split; [|split]].
    + eexists. split; [apply schedule_long; exact Hl | reflexivity].
    + apply Q.le_min_l.
    + intros H27. apply Q.min_l. apply Hge. lia.
    + split.
      * intros H. destruct (le_lt_dec len 27) as [H27|H27]; [|exact H27].
        exfalso. rewrite Q.min_l in H by (apply Hge; lia).
        discriminate H.
      * intros H27. eapply Qle_lt_trans; [apply Q.le_min_r|].
        apply Hlt. lia.
Qed.

End FractionClamp.

(** *** Randomness: ranges of the helpers *)
Section RandomFacts.
Import Random.

Lemma mantissa_pos : 0 < mantissa.
Proof. reflexivity. Qed.

Lemma draw_range (g : RNG) : 0 <= draw g < mantissa.
Proof. unfold draw. apply Z.mod_pos_bound. exact mantissa_pos. Qed.

Lemma random_below_range (n : Z) (g : RNG) :
  0 < n -> 0 <= fst (random_below n g) < n.
Proof.
  intros Hn. unfold random_below; simpl.
  pose proof (draw_range g) as [H0 H1]. pose proof mantissa_pos as Hm.
  split.
  - apply Z.div_pos; [nia | exact Hm].
  - apply Z.div_lt_upper_bound; [exact Hm | nia].
Qed.

Lemma getRandomInteger_range (lo hi : Z) (g : RNG) :
  lo < hi -> lo <= fst (getRandomInteger lo hi g) < hi.
Proof.
  intros H. unfold getRandomInteger.
  pose proof (random_below_range (hi - lo) g ltac:(lia)) as Hr.
  destruct (random_below (hi - lo) g) as [r g1]; simpl in *. lia.
Qed.

Lemma replicateM_length {A} (n : nat) (f : Rand A) (g : RNG) :
  length (fst (replicateM n f g)) = n.
Proof.
  revert g. induction n as [|n IH]; intros g; simpl; [reflexivity|].
  unfold bind. destruct (f g) as [a g1].
  specialize (IH g1). destruct (replicateM n f g1) as [l g2]; simpl in *.
  f_equal. exact IH.
Qed.

Lemma replicateM_Forall {A} (P : A -> Prop) (n : nat) (f : Rand A) (g : RNG) :
  (forall g0, P (fst (f g0))) -> Forall P (fst (replicateM n f g)).
Proof.
  intros Hf. revert g. induction n as [|n IH]; intros g; simpl; [constructor|].
  unfold bind. pose proof (Hf g) as Ha. destruct (f g) as [a g1].
  specialize (IH g1). destruct (replicateM n f g1) as [l g2]; simpl in *.
  constructor; assumption.
Qed.

End RandomFacts.

(** *** State encoding *)
Section StateEncodingFacts.
Import Random Ast Eval StateEncoding.

Lemma getCurrentState_sum (l : list Z) : getCurrentState l = sumZ l.
Proof.
  unfold getCurrentState.
  enough (H : forall a, fold_left (fun a b => b + a) l a = a + sumZ l)
    by (rewrite H; lia).
  induction l as [|x l IH]; intros a; simpl; [lia|]. rewrite IH. lia.
Qed.

Lemma sumZ_insert (l : list Z) (i : nat) (x : Z) :
  (i < length l)%nat -> sumZ (<[i := x]> l) = sumZ l - nth i l 0 + x.
Proof.
  revert i. induction l as [|y l IH]; intros i Hi; simpl in *; [lia|].
  destruct i as [|i]; simpl; [lia|]. rewrite IH by lia. lia.
Qed.

Lemma set_add_spec (x : Z) (s : list Z) :
  NoDup s -> NoDup (set_add x s) /\
  (forall y, In y (set_add x s) <-> y = x \/ In y s) /\
  (length s <= length (set_add x s))%nat.
Proof.
  intros Hnd. unfold set_add.
  destruct (existsb (Z.eqb x) s) eqn:E.
  - apply existsb_exists in E as (y & Hy & Hxy). apply Z.eqb_eq in Hxy. subst y.
    split; [exact Hnd|]. split; [|lia]. intros y; split; [tauto|].
    intros [->|H]; assumption.
  - assert (Hx : ~ In x s).
    { intros Hin. assert (existsb (Z.eqb x) s = true) as E'
        by (apply existsb_exists; exists x; split; [exact Hin | apply Z.eqb_refl]).
      congruence. }
    split.
    + apply NoDup_ListNoDup. apply List.NoDup_app.
      * apply NoDup_ListNoDup. exact Hnd.
      * constructor; [intros []|constructor].
      * intros a Ha [<-|[]]. exact (Hx Ha).
    + split.
      * intros y. rewrite in_app_iff. simpl. split; [intros [H|[<-|[]]]; tauto | intros [->|H]; tauto].
      * rewrite length_app. simpl. lia.
Qed.

Lemma selectStates_spec (fuel n : nat) (sel : list Z) (g g' : RNG) (out : list Z) :
  selectStates fuel n sel g = (Some out, g') ->
  NoDup sel ->
  ((0 < n)%nat -> Forall (fun s => 1 <= s < Z.of_nat n * 15) sel) ->
  length out = n /\ NoDup out /\
  ((0 < n)%nat -> Forall (fun s => 1 <= s < Z.of_nat n * 15) out).
Proof.
  revert sel g. induction fuel as [|fuel IH]; intros sel g Hrun Hnd Hrange;
    simpl in Hrun; [discriminate|].
  unfold bind in Hrun.
  pose proof (getRandomInteger_range 1 (Z.of_nat n * 15) g) as Hr.
  destruct (getRandomInteger 1 (Z.of_nat n * 15) g) as [newState g1]; simpl in Hr.
  destruct (set_add_spec newState sel Hnd) as (Hnd' & Hin' & Hlen').
  assert (Hrange' : (0 < n)%nat ->
            Forall (fun s => 1 <= s < Z.of_nat n * 15) (set_add newState sel)).
  { intros Hn. apply Forall_forall. intros y Hy.
    apply list_elem_of_In, Hin' in Hy as [->|Hy]; [apply Hr; lia|].
    specialize (Hrange Hn). rewrite Forall_forall in Hrange.
    apply Hrange, list_elem_of_In, Hy. }
  destruct (Nat.eqb (length (set_add newState sel)) n) eqn:E.
  - injection Hrun as <- <-. apply Nat.eqb_eq in E. auto.
  - eapply IH; eassumption.
Qed.

Lemma chunkStateValues_spec (k : nat) (state : Z) (g : RNG) :
  (0 < k)%nat ->
  length (fst (chunkStateValues k state g)) = k /\
  sumZ (fst (chunkStateValues k state g)) = state.
Proof.
  intros Hk. unfold chunkStateValues, bind, ret.
  pose proof (replicateM_length k (getRandomInteger (-250) 250) g) as Hlen.
  destruct (replicateM k (getRandomInteger (-250) 250) g) as [sv g1]; simpl in Hlen.
  pose proof (getRandomInteger_range 0 (Z.of_nat (length sv)) g1 ltac:(lia)) as Hi.
  destruct (getRandomInteger 0 (Z.of_nat (length sv)) g1) as [ci g2]; simpl in *.
  split.
  - rewrite length_insert. exact Hlen.
  - rewrite sumZ_insert by lia. rewrite getCurrentState_sum. lia.
Qed.

Lemma assignStates_vectors (k : nat) (chunks : list (string * Z))
    (m : gmap string (list Z)) (g : RNG) :
  (0 < k)%nat ->
  Forall2 (fun v c => length v = k /\ sumZ v = snd c)
    (fst (fst (assignStates k chunks m g))) chunks.
Proof.
  intros Hk. revert m g. induction chunks as [|[label state] rest IH]; intros m g.
  - simpl. constructor.
  - simpl. unfold bind, ret.
    pose proof (chunkStateValues_spec k state g Hk) as Hv.
    destruct (chunkStateValues k state g) as [sv g1]; simpl in Hv.
    specialize (IH (<[label := sv]> m) g1).
    destruct (assignStates k rest (<[label := sv]> m) g1) as [[vs m'] g2]; simpl in *.
    constructor; [exact Hv | exact IH].
Qed.

Lemma assignStates_untouched (k : nat) (chunks : list (string * Z))
    (m : gmap string (list Z)) (g : RNG) (l : string) :
  ~ In l (map fst chunks) ->
  snd (fst (assignStates k chunks m g)) !! l = m !! l.
Proof.
  revert m g. induction chunks as [|[label state] rest IH]; intros m g Hl.
  - reflexivity.
  - simpl in *. unfold bind, ret.
    destruct (chunkStateValues k state g) as [sv g1].
    specialize (IH (<[label := sv]> m) g1 ltac:(tauto)).
    destruct (assignStates k rest (<[label := sv]> m) g1) as [[vs m'] g2]; simpl in *.
    rewrite IH. apply lookup_insert_ne. intros ->. tauto.
Qed.

Lemma assignStates_lookup (k : nat) (chunks : list (string * Z))
    (m : gmap string (list Z)) (g : RNG) (i : nat) (l : string) (st : Z) :
  nth_error chunks i = Some (l, st) ->
  ~ In l (map fst (skipn (S i) chunks)) ->
  snd (fst (assignStates k chunks m g)) !! l =
  nth_error (fst (fst (assignStates k chunks m g))) i.
Proof.
  revert m g i. induction chunks as [|[label state] rest IH]; intros m g i Hi Hlater.
  - destruct i; discriminate.
  - simpl. unfold bind, ret.
    destruct (chunkStateValues k state g) as [sv g1] eqn:Esv.
    destruct i as [|i]; simpl in Hi.
    + injection Hi as -> ->. simpl in Hlater.
      pose proof (assignStates_untouched k rest (<[l := sv]> m) g1 l Hlater) as Hu.
      destruct (assignStates k rest (<[l := sv]> m) g1) as [[vs m'] g2]; simpl in *.
      rewrite Hu. apply lookup_insert_eq.
    + specialize (IH (<[label := sv]> m) g1 i Hi Hlater).
      destruct (assignStates k rest (<[label := sv]> m) g1) as [[vs m'] g2]; simpl in *.
      exact IH.
Qed.

Lemma eval_discriminant_from (vs : list string) (vals : list Z) (acc : Node)
    (a : Z) (rho : env) :
  eval acc rho = Some (VNum a, rho) ->
  Forall2 (fun x v => rho !! x = Some v) vs vals ->
  eval (fold_left (fun acc x => BinaryExpression "+" acc (Identifier x)) vs acc) rho
  = Some (VNum (a + sumZ vals), rho).
Proof.
  intros Hacc H. revert acc a Hacc.
  induction H as [|x v vs vals Hx _ IH]; intros acc a Hacc; simpl.
  - rewrite Z.add_0_r. exact Hacc.
  - replace (a + (v + sumZ vals)) with ((a + v) + sumZ vals) by lia.
    apply IH. simpl. rewrite Hacc. rewrite Hx. reflexivity.
Qed.

Lemma eval_discriminant (vs : list string) (vals : list Z) (rho : env) :
  vs <> [] ->
  Forall2 (fun x v => rho !! x = Some v) vs vals ->
  eval (discriminant vs) rho = Some (VNum (sumZ vals), rho).
Proof.
  intros Hne H. destruct H as [|x v vs vals Hx H]; [congruence|].
  simpl. apply eval_discriminant_from; [|exact H].
  simpl. rewrite Hx. reflexivity.
Qed.

Lemma combine_fst_same_length {A B} (l : list A) (l' : list B) :
  length l = length l' -> map fst (combine l l') = l.
Proof.
  revert l'. induction l as [|a l IH]; intros [|b l'] H; simpl in *;
    try reflexivity; try discriminate.
  f_equal. apply IH. lia.
Qed.

Lemma skipn_combine {A B} (n : nat) (l : list A) (l' : list B) :
  skipn n (combine l l') = combine (skipn n l) (skipn n l').
Proof.
  revert l l'. induction n as [|n IH]; intros l l'; [reflexivity|].
  destruct l as [|a l]; [reflexivity|].
  destruct l' as [|b l']; simpl; [destruct (skipn n l); reflexivity|].
  apply IH.
Qed.

Lemma nth_error_combine_same_length {A B} (l : list A) (l' : list B) i a :
  length l = length l' -> nth_error l i = Some a ->
  exists b, nth_error (combine l l') i = Some (a, b).
Proof.
  revert l' i. induction l as [|x l IH]; intros [|y l'] i Hlen Hi;
    simpl in *; try discriminate; destruct i as [|i]; simpl in *; try discriminate.
  - injection Hi as ->. eauto.
  - apply IH; [lia | exact Hi].
Qed.

(** C1.  When the state encoding of a block with chunk labels [labels]
    is produced: the state totals are as many as the chunks, pairwise
    distinct, and drawn from [1, 15N]; the number of state variables is
    at least 2 and less than 5; the vector of every chunk has one
    component per state variable and sums to the chunk's state total,
    and it is the vector recorded under the chunk's label (when no later
    chunk carries the same label); and the switch discriminant evaluates
    to the sum of the state variables. *)
Theorem state_encoding_holds (fuel : nat) (labels : list string)
    (g g' : RNG) (e : encoding) :
  encodeStates fuel labels g = (Some e, g') ->
  length (caseStates e) = length labels /\
  NoDup (caseStates e) /\
  Forall (fun s => 1 <= s <= 15 * Z.of_nat (length labels)) (caseStates e) /\
  (2 <= length (stateVars e) < 5)%nat /\
  Forall2 (fun v s => length v = length (stateVars e) /\ sumZ v = s)
    (vectors e) (caseStates e) /\
  (forall i l, nth_error labels i = Some l ->
               ~ In l (skipn (S i) labels) ->
               labelToStates e !! l = nth_error (vectors e) i) /\
  (forall rho vals,
      Forall2 (fun x v => rho !! x = Some v) (stateVars e) vals ->
      eval (discriminant (stateVars e)) rho = Some (VNum (sumZ vals), rho)).
Proof.
  intros Hrun. unfold encodeStates, bind, ret in Hrun.
  destruct (selectStates fuel (length labels) [] g) as [[cs|] g1] eqn:Esel;
    [|discriminate].
  pose proof (selectStates_spec _ _ _ _ _ _ Esel NoDup_nil_2
                (fun _ => Forall_nil_2 _)) as (Hlen & Hnd & Hrange).
  pose proof (getRandomInteger_range 2 5 g1 ltac:(lia)) as Hk.
  destruct (getRandomInteger 2 5 g1) as [k g2]; simpl in Hk.
  pose proof (replicateM_length (Z.to_nat k) Placeholder.getPlaceholder g2) as Hvars.
  destruct (replicateM (Z.to_nat k) Placeholder.getPlaceholder g2) as [vars g3];
    simpl in Hvars.
  destruct (Placeholder.getPlaceholder g3) as [sw g4].
  assert (Hkpos : (0 < length vars)%nat) by lia.
  pose proof (assignStates_vectors (length vars) (combine labels cs) ∅ g4 Hkpos) as Hvec.
  pose proof (fun i l st => assignStates_lookup (length vars) (combine labels cs) ∅ g4 i l st)
    as Hmap.
  destruct (assignStates (length vars) (combine labels cs) ∅ g4) as [[vs m] g5];
    simpl in *.
  injection Hrun as <- <-. simpl.
  split; [exact Hlen|]. split; [exact Hnd|]. split.
  { destruct labels as [|l0 labels'].
    - destruct cs; [constructor | discriminate].
    - eapply List.Forall_impl; [|apply Hrange; simpl; lia].
      intros s Hs; simpl in Hs. simpl length. lia. }
  split; [lia|]. split.
  { clear -Hvec Hlen. revert vs Hvec. generalize dependent cs.
    induction labels as [|l labels IH]; intros [|c cs] Hlen vs Hvec;
      simpl in *; try discriminate.
    - inversion Hvec; constructor.
    - inversion Hvec as [|v c' vs' cs' Hv Hrest]; subst. constructor.
      + exact Hv.
      + apply IH; [lia | exact Hrest]. }
  split.
  { intros i l Hi Hlater.
    destruct (nth_error_combine_same_length labels cs i l (eq_sym Hlen) Hi) as [st Hst].
    apply (Hmap i l st Hst).
    rewrite skipn_combine, combine_fst_same_length; [exact Hlater|].
    rewrite !length_skipn. lia. }
  intros rho vals Hvals. apply eval_discriminant; [|exact Hvals].
  destruct vars; [simpl in Hvars; lia | discriminate].
Qed.

End StateEncodingFacts.

Lemma state_encoding_witness :
  exists e g',
    StateEncoding.encodeStates 8 ["a"; "b"; "c"] Samples.rng_a = (Some e, g') /\
    NoDup (StateEncoding.caseStates e) /\
    (2 <= length (StateEncoding.stateVars e) < 5)%nat /\
    Forall2 (fun v s => length v = length (StateEncoding.stateVars e) /\ sumZ v = s)
      (StateEncoding.vectors e) (StateEncoding.caseStates e).
Proof.
  destruct (StateEncoding.encodeStates 8 ["a"; "b"; "c"] Samples.rng_a)
    as [[e|] g'] eqn:E.
  - exists e, g'. split; [reflexivity|].
    pose proof (state_encoding_holds _ _ _ _ _ E) as H. tauto.
  - vm_compute in E. discriminate.
Defined.

(** *** Transitions between chunks *)
Section TransitionFacts.
Import Random Ast Eval StateEncoding JSNum.


Lemma holds_nth (vars : list string) (vals : list Z) (rho : env) (i : nat) :
  holds vars vals rho -> (i < length vars)%nat ->
  rho !! nth i vars "" = Some (nth i vals 0).
Proof.
  intros H. revert i. induction H as [|x v vars vals Hx _ IH]; intros i Hi;
    simpl in *; [lia|].
  destruct i as [|i]; [exact Hx | apply IH; lia].
Qed.




Lemma choice_lt_gt (g : RNG) :
  fst (choice "<" ["<"; ">"] g) = "<" \/ fst (choice "<" ["<"; ">"] g) = ">".
Proof.
  unfold choice. destruct (random_below _ g) as [i g1]; simpl.
  destruct (Z.to_nat i) as [|[|[|n]]]; simpl; auto.
Qed.

Section WithVars.
Variable stateVars : list string.
Hypothesis vars_nonempty : (0 < length stateVars)%nat.

Lemma opposing_in_range (g : RNG) :
  (Z.to_nat (fst (getRandomInteger 0 (Z.of_nat (length stateVars)) g))
   < length stateVars)%nat.
Proof.
  pose proof (getRandomInteger_range 0 (Z.of_nat (length stateVars)) g ltac:(lia)).
  lia.
Qed.

(** An obscured literal evaluates to the number it stands for, in every
    environment where the state variables hold the static vector. *)
Lemma numberLiteral_at_eval (levels : nat) :
  forall (num depth : Z) (vals : list Z) (g : RNG) (rho : env),
    holds stateVars vals rho ->
    eval (fst (numberLiteral_at stateVars levels num depth vals g)) rho
    = Some (VNum num, rho).
Proof.
  induction levels as [|levels IH]; intros num depth vals g rho Hh;
    [reflexivity|].
  cbn [numberLiteral_at]. unfold bind, ret.
  destruct (Math_random g) as [u g1].
  destruct (js_gt u _); [reflexivity|].
  pose proof (opposing_in_range g1) as Hopp.
  destruct (getRandomInteger 0 (Z.of_nat (length stateVars)) g1) as [opp g2];
    simpl in Hopp.
  pose proof (holds_nth _ _ _ _ Hh Hopp) as Hvar.
  destruct (Math_random g2) as [u2 g3].
  destruct (js_gt u2 (Fin (1 # 2))).
  - destruct (getRandomInteger (-250) 250 g3) as [x g4].
    pose proof (choice_lt_gt g4) as Hop.
    destruct (choice "<" ["<"; ">"] g4) as [op g5]; simpl in Hop.
    pose proof (IH num (depth + 1) vals g5 rho Hh) as Hc.
    destruct (numberLiteral_at stateVars levels num (depth + 1) vals g5) as [correct g6].
    destruct (getRandomInteger (-250) 250 g6) as [wrong g7].
    pose proof (IH wrong (depth + 1) vals g7 rho Hh) as Hw.
    destruct (numberLiteral_at stateVars levels wrong (depth + 1) vals g7)
      as [incorrect g8].
    pose proof (IH x (depth + 1) vals g8 rho Hh) as Hl.
    destruct (numberLiteral_at stateVars levels x (depth + 1) vals g8) as [lhs g9].
    simpl in *. unfold ConditionalExpression, BinaryExpression, Identifier.
    cbn [eval]. rewrite Hl. unfold stateVar. rewrite Hvar.
    destruct Hop as [-> | ->]; simpl;
      [destruct (x <? nth (Z.to_nat opp) vals 0)
      |destruct (x >? nth (Z.to_nat opp) vals 0)]; simpl; assumption.
  - pose proof (IH (num - nth (Z.to_nat opp) vals 0) (depth + 1) vals g3 rho Hh) as Hr.
    destruct (numberLiteral_at stateVars levels _ (depth + 1) vals g3) as [rest g4].
    simpl in *. unfold BinaryExpression, Identifier. cbn [eval].
    unfold stateVar. rewrite Hvar, Hr. simpl. do 3 f_equal. lia.
Qed.

Lemma numberLiteral_eval (num depth : Z) (vals : list Z) (g : RNG) (rho : env) :
  holds stateVars vals rho ->
  eval (fst (numberLiteral stateVars num depth vals g)) rho = Some (VNum num, rho).
Proof. apply numberLiteral_at_eval. Qed.

Hypothesis vars_distinct : NoDup stateVars.



End WithVars.



End TransitionFacts.



(** *** RGF: termination of the name-resolution loop *)
Section ResolveFacts.
Import Resolve.

Lemma erase_spec (nm : string) (loc : nat) (o : candidate) :
  let r := erase nm loc o in
  location (fst r) = location o /\ name (fst r) = name o /\
  references (fst r) ⊆ references o /\
  (snd r = true -> (size (references (fst r)) < size (references o))%nat) /\
  (snd r = false -> fst r = o).
Proof.
  unfold erase.
  destruct (negb (Nat.eqb (location o) loc)
            && negb (Nat.eqb (size (references o)) 0)
            && bool_decide (nm ∈ references o))%bool eqn:E; simpl.
  - apply andb_prop in E as [_ E]. apply bool_decide_eq_true in E.
    split; [reflexivity|]. split; [reflexivity|]. split; [set_solver|].
    split; [|discriminate].
    intros _. rewrite size_difference by set_solver.
    rewrite size_singleton.
    assert (size (references o) <> 0)%nat
      by (intros H0; apply size_empty_iff in H0; set_solver).
    lia.
  - split; [reflexivity|]. split; [reflexivity|]. split; [set_solver|].
    split; [discriminate | reflexivity].
Qed.

Lemma eraseAll_spec (nm : string) (loc : nat) (collect : list candidate) :
  let r := eraseAll nm loc collect in
  length (fst r) = length collect /\
  map location (fst r) = map location collect /\
  map name (fst r) = map name collect /\
  Forall2 (fun o' o => references o' ⊆ references o) (fst r) collect /\
  (pending (fst r) <= pending collect)%nat /\
  (snd r = true -> (pending (fst r) < pending collect)%nat) /\
  (snd r = false -> fst r = collect).
Proof.
  induction collect as [|o rest IH]; simpl.
  - split; [reflexivity|]. split; [reflexivity|]. split; [reflexivity|].
    split; [constructor|]. split; [lia|]. split; [discriminate | reflexivity].
  - pose proof (erase_spec nm loc o) as (Hl & Hn & Hsub & Hlt & Heq).
    destruct (erase nm loc o) as [o' h1]; simpl in *.
    destruct IH as (IHlen & IHloc & IHname & IHsub & IHle & IHlt & IHeq).
    destruct (eraseAll nm loc rest) as [rest' h2]; simpl in *.
    assert (Hsz : (size (references o') <= size (references o))%nat)
      by (apply subseteq_size; exact Hsub).
    split; [lia|]. split; [congruence|]. split; [congruence|].
    split; [constructor; assumption|]. split; [lia|]. split.
    + intros H. apply orb_prop in H as [H|H].
      * specialize (Hlt H). lia.
      * specialize (IHlt H). lia.
    + intros H. apply orb_false_elim in H as [H1 H2].
      rewrite (Heq H1), (IHeq H2). reflexivity.
Qed.

(** What one step of the outer loop preserves. *)
Definition step_ok (st0 st : list candidate * bool) : Prop :=
  length (fst st) = length (fst st0) /\
  map location (fst st) = map location (fst st0) /\
  map name (fst st) = map name (fst st0) /\
  Forall2 (fun o' o => references o' ⊆ references o) (fst st) (fst st0) /\
  (pending (fst st) <= pending (fst st0))%nat /\
  (snd st = true -> snd st0 = false -> (pending (fst st) < pending (fst st0))%nat) /\
  (snd st = false -> st = st0) /\
  (snd st0 = true -> snd st = true).

Lemma Forall2_subseteq_refl (l : list candidate) :
  Forall2 (fun o' o => references o' ⊆ references o) l l.
Proof. induction l; constructor; [set_solver | assumption]. Qed.

Lemma Forall2_subseteq_trans (l1 l2 l3 : list candidate) :
  Forall2 (fun o' o => references o' ⊆ references o) l1 l2 ->
  Forall2 (fun o' o => references o' ⊆ references o) l2 l3 ->
  Forall2 (fun o' o => references o' ⊆ references o) l1 l3.
Proof.
  intros H. revert l3. induction H; intros l3 H3; inversion H3; subst;
    constructor; [set_solver | auto].
Qed.

Lemma step_ok_refl st : step_ok st st.
Proof.
  unfold step_ok. split; [reflexivity|]. split; [reflexivity|].
  split; [reflexivity|]. split; [apply Forall2_subseteq_refl|].
  split; [lia|]. split; [congruence|]. split; auto.
Qed.

Lemma step_ok_trans st0 st1 st2 : step_ok st0 st1 -> step_ok st1 st2 -> step_ok st0 st2.
Proof.
  unfold step_ok.
  intros (L1 & O1 & N1 & S1 & P1 & Q1 & E1 & T1) (L2 & O2 & N2 & S2 & P2 & Q2 & E2 & T2).
  split; [congruence|]. split; [congruence|]. split; [congruence|].
  split; [eapply Forall2_subseteq_trans; eassumption|].
  split; [lia|]. split; [|split].
  - intros H2 H0. destruct (snd st1) eqn:E.
    + specialize (Q1 eq_refl H0). lia.
    + specialize (Q2 H2 eq_refl). lia.
  - intros H. assert (Heq : st2 = st1) by (apply E2; exact H).
    subst st2. apply E1. exact H.
  - auto.
Qed.

Lemma visit_ok (i : nat) (st : list candidate * bool) : step_ok st (visit i st).
Proof.
  destruct st as [collect hit]. unfold visit.
  destruct (nth_error collect i) as [c|]; [|apply step_ok_refl].
  destruct (Nat.eqb (size (references c)) 0); [|apply step_ok_refl].
  destruct (has_name c) as [nm|]; [|apply step_ok_refl].
  pose proof (eraseAll_spec nm (location c) collect) as (L & O & N & S & P & Q & E).
  destruct (eraseAll nm (location c) collect) as [collect' h]; simpl in *.
  unfold step_ok; simpl. split; [exact L|]. split; [exact O|].
  split; [exact N|]. split; [exact S|]. split; [exact P|]. split; [|split].
  - intros H H0. subst hit. simpl in H. auto.
  - intros H. apply orb_false_elim in H as [-> H]. rewrite (E H), H. reflexivity.
  - intros ->. reflexivity.
Qed.

Lemma visits_ok (idxs : list nat) (st : list candidate * bool) :
  step_ok st (fold_left (fun st i => visit i st) idxs st).
Proof.
  revert st. induction idxs as [|i idxs IH]; intros st; simpl.
  - apply step_ok_refl.
  - eapply step_ok_trans; [apply visit_ok | apply IH].
Qed.

Lemma pass_ok (collect : list candidate) : step_ok (collect, false) (pass collect).
Proof. apply visits_ok. Qed.

Lemma pass_productive (collect collect' : list candidate) :
  pass collect = (collect', true) -> (pending collect' < pending collect)%nat.
Proof.
  intros H. pose proof (pass_ok collect) as (_ & _ & _ & _ & _ & Q & _).
  rewrite H in Q. simpl in Q. auto.
Qed.

Lemma pass_idle (collect collect' : list candidate) :
  pass collect = (collect', false) -> collect' = collect.
Proof.
  intros H. pose proof (pass_ok collect) as (_ & _ & _ & _ & _ & _ & E & _).
  rewrite H in E. simpl in E. specialize (E eq_refl). congruence.
Qed.

(** What the loop preserves from its first to its last state. *)
Definition refines (final collect : list candidate) : Prop :=
  map location final = map location collect /\
  map name final = map name collect /\
  Forall2 (fun o' o => references o' ⊆ references o) final collect.

Lemma refines_refl c : refines c c.
Proof. split; [|split]; auto using Forall2_subseteq_refl. Qed.

Lemma pass_refines (collect : list candidate) : refines (fst (pass collect)) collect.
Proof.
  pose proof (pass_ok collect) as (_ & O & N & S & _). split; [|split]; assumption.
Qed.

Lemma refines_trans a b c : refines a b -> refines b c -> refines a c.
Proof.
  intros (O1 & N1 & S1) (O2 & N2 & S2). split; [|split]; try congruence.
  eapply Forall2_subseteq_trans; eassumption.
Qed.

Lemma resolve_runs (fuel start : nat) :
  forall (miss : nat) (collect : list candidate),
    (miss <= start)%nat ->
    (pending collect * (start + 2) + (start + 1 - miss) < fuel)%nat ->
    exists final,
      resolve fuel start miss collect = Some final /\
      refines final collect /\
      pass final = (final, false).
Proof.
  induction fuel as [|fuel IH]; intros miss collect Hmiss Hfuel; [lia|].
  cbn [resolve].
  pose proof (pass_refines collect) as Href.
  destruct (pass collect) as [collect' hit] eqn:Epass. cbn [fst] in Href.
  destruct hit.
  - pose proof (pass_productive _ _ Epass) as Hlt.
    destruct (Nat.ltb start 0) eqn:E0; [apply Nat.ltb_lt in E0; lia|].
    destruct (IH 0%nat collect' ltac:(lia)) as (final & Hrun & Hr & Hfix).
    { nia. }
    exists final. split; [exact Hrun|]. split; [|exact Hfix].
    eapply refines_trans; eassumption.
  - pose proof (pass_idle _ _ Epass) as ->.
    destruct (Nat.ltb start (S miss)) eqn:E0.
    + exists collect. split; [reflexivity|]. split; [apply refines_refl | exact Epass].
    + apply Nat.ltb_ge in E0.
      destruct (IH (S miss) collect ltac:(lia)) as (final & Hrun & Hr & Hfix).
      { lia. }
      exists final. auto.
Qed.

Lemma resolve_more_fuel (fuel start : nat) :
  forall (miss : nat) (collect final : list candidate),
    resolve fuel start miss collect = Some final ->
    forall fuel', (fuel <= fuel')%nat -> resolve fuel' start miss collect = Some final.
Proof.
  induction fuel as [|fuel IH]; intros miss collect final Hrun fuel' Hle;
    [discriminate|].
  destruct fuel' as [|fuel']; [lia|].
  cbn [resolve] in *. destruct (pass collect) as [collect' hit].
  destruct (Nat.ltb start (if hit then 0%nat else S miss)); [exact Hrun|].
  eapply IH; [exact Hrun | lia].
Qed.

(** C6.  The fixed-point loop terminates for every finite candidate
    list: a productive iteration strictly shrinks the number of pending
    references, an unproductive one leaves the sets as they are, and
    [enough collect] iterations always suffice, whatever the candidates.
    On exit the candidates are the same functions under the same names
    with reference sets that only shrank, one more pass changes nothing,
    and the queue holds exactly the candidates whose reference sets are
    empty. *)
Theorem name_resolution_terminates (collect : list candidate) :
  (forall c c', pass c = (c', true) -> (pending c' < pending c)%nat) /\
  (forall c c', pass c = (c', false) -> c' = c) /\
  exists final,
    (forall fuel, (enough collect <= fuel)%nat ->
                  resolveNames fuel collect = Some final) /\
    refines final collect /\
    pass final = (final, false) /\
    (forall loc, In loc (queue final) <->
                 exists o, In o final /\ location o = loc /\ references o = ∅).
Proof.
  split; [exact pass_productive|]. split; [exact pass_idle|].
  unfold resolveNames, enough.
  destruct (resolve_runs (enough collect) (length collect * 2) 0 collect ltac:(lia))
    as (final & Hrun & Href & Hfix).
  { unfold enough. nia. }
  exists final. split.
  { intros fuel Hfuel. eapply resolve_more_fuel; [exact Hrun | exact Hfuel]. }
  split; [exact Href|]. split; [exact Hfix|].
  intros loc. unfold queue. rewrite in_map_iff. split.
  - intros (o & Hloc & Hin). apply filter_In in Hin as [Hin Hsz].
    exists o. split; [exact Hin|]. split; [exact Hloc|].
    apply Nat.eqb_eq in Hsz. apply size_empty_inv in Hsz.
    apply leibniz_equiv. exact Hsz.
  - intros (o & Hin & Hloc & Hrefs). exists o. split; [exact Hloc|].
    apply filter_In. split; [exact Hin|]. rewrite Hrefs. reflexivity.
Qed.

End ResolveFacts.

(** *** Identifier generation *)
Section IdentifierFacts.
Import Random Identifiers.

Variables reservedKeywords reservedIdentifiers : gset string.
Variable alphabeticalGenerator : Z -> string.
Variable resolveMode : Rand string.

Notation generateIdentifier :=
  (generateIdentifier reservedKeywords reservedIdentifiers alphabeticalGenerator resolveMode).
Notation generateAll :=
  (generateAll reservedKeywords reservedIdentifiers alphabeticalGenerator resolveMode).
Notation attempt :=
  (attempt reservedKeywords reservedIdentifiers alphabeticalGenerator resolveMode).
Notation mangledFrom :=
  (mangledFrom reservedKeywords reservedIdentifiers alphabeticalGenerator).
Notation byMode :=
  (byMode reservedKeywords reservedIdentifiers alphabeticalGenerator).

Lemma mangledFrom_not_reserved (fuel : nat) (count : Z) (id : string) (count' : Z) :
  mangledFrom fuel count = Returned (id, count') ->
  id ∉ reservedKeywords /\ id ∉ reservedIdentifiers.
Proof.
  revert count. induction fuel as [|fuel IH]; intros count H; [discriminate|].
  cbn [Identifiers.mangledFrom] in H.
  destruct (bool_decide (alphabeticalGenerator count ∈ reservedKeywords)) eqn:E1;
    [exact (IH _ H)|].
  destruct (bool_decide (alphabeticalGenerator count ∈ reservedIdentifiers)) eqn:E2;
    [exact (IH _ H)|].
  simpl in H. injection H as <- _.
  apply bool_decide_eq_false in E1, E2. split; assumption.
Qed.

Lemma byMode_mangled (fuel : nat) (len count : Z) (g : RNG) :
  byMode fuel "mangled" len count g = (mangledFrom fuel count, g).
Proof. reflexivity. Qed.

Lemma attempt_fresh (fuel : nat) :
  forall (len count : Z) (set : gset string) (g g' : RNG) (id : string),
    attempt fuel len count set g = (Returned id, g') ->
    id ∉ set /\
    ((forall g0, fst (resolveMode g0) = "mangled") ->
     id ∉ reservedKeywords /\ id ∉ reservedIdentifiers).
Proof.
  induction fuel as [|fuel IH]; intros len count set g g' id H; [discriminate|].
  cbn [Identifiers.attempt] in H. unfold bind in H.
  pose proof (fun Hm : forall g0, fst (resolveMode g0) = "mangled" => Hm g) as Hmode.
  destruct (resolveMode g) as [mode g1]; cbn [fst] in Hmode.
  destruct (byMode fuel mode len count g1) as [[[identifier count']|m|] g2] eqn:Eby;
    try discriminate.
  destruct (bool_decide (identifier ∈ set)) eqn:Ein; [exact (IH _ _ _ _ _ _ H)|].
  injection H as -> <-. apply bool_decide_eq_false in Ein.
  split; [exact Ein|]. intros Hm. rewrite (Hmode Hm) in Eby.
  rewrite byMode_mangled in Eby. injection Eby as Eby _.
  eapply mangledFrom_not_reserved, Eby.
Qed.

Lemma generateIdentifier_shared (fuel : nat) (len : Z) (o o' : obfuscator)
    (g g' : RNG) (id : string) :
  generateIdentifier fuel len (-1) o g = (Returned id, o', g') ->
  id <> "" /\ id ∉ generated o /\
  generated o' = {[id]} ∪ generated o /\
  varCount o' = varCount o + 1 /\
  ((forall g0, fst (resolveMode g0) = "mangled") ->
   id ∉ reservedKeywords /\ id ∉ reservedIdentifiers).
Proof.
  unfold Identifiers.generateIdentifier, bind. intros H.
  destruct ((if len =? -1 then getRandomInteger 6 8 else ret len) g) as [len' g1].
  change (-1 =? -1) with true in H. cbn [varCount generated] in H.
  destruct (attempt fuel len' (varCount o + 1) (generated o) g1)
    as [[identifier|m|] g2] eqn:Eat; try discriminate.
  - destruct (String.eqb identifier "") eqn:Eempty; [discriminate|].
    injection H as -> <- <-. apply String.eqb_neq in Eempty.
    destruct (attempt_fresh _ _ _ _ _ _ _ Eat) as [Hfresh Hres].
    split; [exact Eempty|]. split; [exact Hfresh|].
    split; [reflexivity|]. split; [reflexivity | exact Hres].
Qed.

(** C7, as the code has it.  In a run of calls that use the shared
    counter ([count = -1]): every identifier returned is non-empty and
    was not in the obfuscator's [generated] set when the run started,
    the identifiers returned are pairwise distinct, and [generated]
    grows by exactly these identifiers; when the resolved mode is
    [mangled], none of them is a member of [reservedKeywords] or of
    [reservedIdentifiers]. *)
Theorem shared_identifiers_are_fresh (fuel : nat) (lengths : list Z) :
  forall (o o' : obfuscator) (g g' : RNG) (ids : list string),
    generateAll fuel lengths o g = (Returned ids, o', g') ->
    NoDup ids /\
    Forall (fun id => id <> "" /\ id ∉ generated o) ids /\
    generated o' = list_to_set ids ∪ generated o /\
    ((forall g0, fst (resolveMode g0) = "mangled") ->
     Forall (fun id => id ∉ reservedKeywords /\ id ∉ reservedIdentifiers) ids).
Proof.
  induction lengths as [|len rest IH]; intros o o' g g' ids H.
  - cbn in H. injection H as <- <- <-.
    split; [constructor|]. split; [constructor|].
    split; [set_solver | intros _; constructor].
  - cbn [Identifiers.generateAll] in H. unfold bind in H.
    destruct (generateIdentifier fuel len (-1) o g) as [[r o1] g1] eqn:E1.
    cbn [fst snd] in H.
    destruct r as [id|m|]; try (injection H; discriminate).
    destruct (generateAll fuel rest o1 g1) as [[rs o2] g2] eqn:E2.
    cbn [fst snd] in H.
    destruct rs as [ids'|m|]; try (injection H; discriminate).
    injection H as <- <- <-.
    destruct (generateIdentifier_shared _ _ _ _ _ _ _ E1)
      as (Hne & Hfresh & Hgen & _ & Hres).
    destruct (IH _ _ _ _ _ E2) as (Hnd & Hall & Hgen' & Hres').
    rewrite Hgen in Hall, Hgen'.
    split.
    { apply NoDup_cons. split; [|exact Hnd].
      intros Hin. rewrite Forall_forall in Hall.
      destruct (Hall id Hin) as [_ Hout]. set_solver. }
    split.
    { constructor; [split; assumption|].
      eapply List.Forall_impl; [|exact Hall].
      intros a [Ha1 Ha2]. split; [exact Ha1 | set_solver]. }
    split.
    { rewrite Hgen'. set_solver. }
    intros Hm. constructor; [exact (Hres Hm) | exact (Hres' Hm)].
Qed.

End IdentifierFacts.

Lemma shared_identifiers_are_fresh_witness :
  exists ids o' g',
    Identifiers.generateAll {["do"; "if"]} {["eval"]} (fun n => pretty n)
      (Random.ret "number") 3 [-1; -1; -1]
      (Identifiers.mkObfuscator 0 ∅) Samples.rng_a = (Identifiers.Returned ids, o', g') /\
    NoDup ids.
Proof.
  destruct (Identifiers.generateAll {["do"; "if"]} {["eval"]} (fun n => pretty n)
              (Random.ret "number") 3 [-1; -1; -1]
              (Identifiers.mkObfuscator 0 ∅) Samples.rng_a) as [[[ids|m|] o'] g'] eqn:E.
  - exists ids, o', g'. split; [reflexivity|].
    exact (proj1 (shared_identifiers_are_fresh _ _ _ _ _ _ _ _ _ _ _ E)).
  - vm_compute in E. discriminate.
  - vm_compute in E. discriminate.
Defined.

(** C7 as stated fails twice.  Two generators of one run (each calls
    [generateIdentifier(-1, count)] with its own counter, starting at 1)
    are both handed [var_1] in [number] mode.  And the randomized mode
    tests no reserved set: with the right draws it returns [return],
    reserved or not. *)
Lemma independent_generators_repeat :
  let gen := Identifiers.generateIdentifier ∅ ∅ (fun n => pretty n)
               (Random.ret "number") 3 (-1) 1 in
  let first := gen (Identifiers.mkObfuscator 0 ∅) Samples.rng_a in
  let second := gen (snd (fst first)) (snd first) in
  (fst (fst first) = Identifiers.Returned "var_1" /\
   fst (fst second) = Identifiers.Returned "var_1") /\
  fst (fst (Identifiers.generateIdentifier {["return"; "typeof"]} {["undefined"]}
              (fun n => pretty n) (Random.ret "randomized") 3 6 (-1)
              (Identifiers.mkObfuscator 0 ∅) Samples.rng_return))
  = Identifiers.Returned "return".
Proof. vm_compute. repeat split. Qed.

(** *** Dispatcher: call sites and getters *)
Section DispatcherFacts.
Import Random Ast Scope Dispatcher.

Variable nm : generatedNames.
Variable newFnNames : gmap string string.
Variable functionDeclarations : gset string.

Lemma call_form_choice (g : RNG) :
  fst (choice "" ["CallExpression"; "NewExpression"] g) = "CallExpression" \/
  fst (choice "" ["CallExpression"; "NewExpression"] g) = "NewExpression".
Proof.
  unfold choice.
  pose proof (random_below_range (Z.of_nat 2) g ltac:(lia)) as Hr.
  destruct (random_below (Z.of_nat (length ["CallExpression"; "NewExpression"])) g)
    as [i g1] eqn:E.
  change (Z.of_nat (length ["CallExpression"; "NewExpression"])) with (Z.of_nat 2) in E.
  rewrite E in Hr. cbn [fst] in *.
  destruct (Z.to_nat i) as [|[|n]] eqn:Ei; [left; reflexivity | right; reflexivity | lia].
Qed.

(** C5, as the code has it.  For an occurrence of a dispatched function
    [f] with key [key]:
    - an invoking call [f(args)] is replaced, parent and all, by
      [dispatcher(key, expectedClearArgs)] when there is no argument and
      by the sequence [(payload = [args], dispatcher(key))] otherwise,
      when the call form is drawn; when the [new] form is drawn, by
      [new dispatcher(key, expectedClearArgs, expectedNew).member] when
      there is no argument and by [(payload = [args],
      new dispatcher(key, undefined, expectedNew).member)] otherwise;
      one of the two forms is always drawn;
    - a non-invoking occurrence becomes [dispatcher(key, expectedGet)],
      unless it is defined or modified there, in which case it is left
      as it is;
    - defined or modified occurrences are not even collected. *)
Theorem call_sites_are_rewritten (f key : string) (callee : Node)
    (args : list Node) (info : IdentifierInfo) (g : RNG) :
  newFnNames !! f = Some key ->
  key <> "" ->
  f ∈ functionDeclarations ->
  f <> dispatcherFnName nm ->
  let rewrite := rewriteIdentifier nm newFnNames functionDeclarations (Identifier f) in
  let dispatcher := Identifier (dispatcherFnName nm) in
  let form := fst (choice "" ["CallExpression"; "NewExpression"] g) in
  let payload :=
    AssignmentExpression "=" (Identifier (payloadArg nm)) (ArrayExpression args) in
  (isFunctionCall info = true ->
   (form = "CallExpression" \/ form = "NewExpression") /\
   (form = "CallExpression" ->
    fst (rewrite (CallExpression callee args) 0%nat info g) =
    ReplaceParent
      match args with
      | [] => CallExpression dispatcher [StrLit key; StrLit (expectedClearArgs nm)]
      | _ => SequenceExpression [payload; CallExpression dispatcher [StrLit key]]
      end) /\
   (form = "NewExpression" ->
    fst (rewrite (CallExpression callee args) 0%nat info g) =
    ReplaceParent
      match args with
      | [] =>
          MemberExpression
            (NewExpression dispatcher
               [StrLit key; StrLit (expectedClearArgs nm); StrLit (expectedNew nm)])
            (Identifier (newReturnMemberName nm)) false
      | _ =>
          SequenceExpression
            [payload;
             MemberExpression
               (NewExpression dispatcher
                  [StrLit key; Identifier "undefined"; StrLit (expectedNew nm)])
               (Identifier (newReturnMemberName nm)) false]
      end)) /\
  (forall parent slot,
      isFunctionCall info = false \/ slot <> 0%nat \/
      kind_of parent <> Ty.CallExpression ->
      fst (rewrite parent slot info g) =
      if (isDefined info || isModified info)%bool then Untouched
      else ReplaceSelf (CallExpression dispatcher [StrLit key; StrLit (expectedGet nm)])) /\
  (forall reserved,
      (isDefined info || isModified info)%bool = true ->
      collected reserved info = false).
Proof.
  intros Hkey Hne Hdecl Hself rewrite dispatcher form payload.
  assert (Hne' : String.eqb key "" = false) by (apply String.eqb_neq; exact Hne).
  assert (Hself' : String.eqb f (dispatcherFnName nm) = false)
    by (apply String.eqb_neq; exact Hself).
  assert (Hdecl' : bool_decide (f ∈ functionDeclarations) = true)
    by (apply bool_decide_eq_true; exact Hdecl).
  split; [|split].
  - intros Hcall. split; [apply call_form_choice|].
    subst rewrite form. unfold rewriteIdentifier, Identifier, CallExpression, Arr.
    rewrite Hkey, Hne', Hdecl', Hcall, Hself'. cbn [negb andb Nat.eqb].
    unfold rewriteCall, bind, ret.
    destruct (choice "" ["CallExpression"; "NewExpression"] g) as [type g1].
    cbn [fst]. split; intros ->; destruct args; reflexivity.
  - intros parent slot Hcase. subst rewrite.
    unfold rewriteIdentifier, Identifier. rewrite Hkey, Hne', Hdecl'. cbn [negb].
    destruct parent as [k cs].
    destruct k; try (destruct (isDefined info), (isModified info); reflexivity).
    destruct cs as [|c0 [|[k1 args1] [|c2 cs]]];
      try (destruct (isDefined info), (isModified info); reflexivity);
      destruct k1; try (destruct (isDefined info), (isModified info); reflexivity).
    destruct Hcase as [Hcase|[Hcase|Hcase]].
    + rewrite Hcase. cbn [andb].
      destruct (isDefined info), (isModified info); reflexivity.
    + destruct slot as [|slot]; [congruence|].
      rewrite andb_false_r.
      destruct (isDefined info), (isModified info); reflexivity.
    + exfalso. apply Hcase. reflexivity.
  - intros reserved H. unfold collected.
    destruct (isDefined info); [rewrite !andb_false_r; reflexivity|].
    destruct (isModified info); [rewrite !andb_false_r; reflexivity | discriminate].
Qed.

End DispatcherFacts.

Lemma call_sites_are_rewritten_witness :
  let nm := Dispatcher.mkNames "payload" "dispatcher" "get" "clear" "new" "member" in
  fst (Dispatcher.rewriteIdentifier nm {["h" := "k1"]} {["h"]} (Ast.Identifier "h")
         (Ast.CallExpression (Ast.Identifier "h") [Ast.NumLit 3]) 0
         (Scope.mkInfo true false false false true) Samples.rng_a) =
  Dispatcher.ReplaceParent
    (Ast.SequenceExpression
       [Ast.AssignmentExpression "=" (Ast.Identifier "payload")
          (Ast.ArrayExpression [Ast.NumLit 3]);
        Ast.CallExpression (Ast.Identifier "dispatcher") [Ast.StrLit "k1"]]).
Proof.
  intros nm.
  assert (H1 : ({["h" := "k1"]} : gmap string string) !! "h" = Some "k1")
    by (vm_compute; reflexivity).
  assert (H2 : "h" ∈ ({["h"]} : gset string)) by set_solver.
  destruct (call_sites_are_rewritten nm _ _ "h" "k1" (Ast.Identifier "h") [Ast.NumLit 3]
              (Scope.mkInfo true false false false true) Samples.rng_a
              H1 ltac:(discriminate) H2 ltac:(discriminate)) as [Hcall _].
  destruct (Hcall eq_refl) as (_ & Hc & _).
  apply Hc. vm_compute. reflexivity.
Defined.

(** C5 as stated fails for a call without arguments: in the [new] form it
    becomes [new dispatcher(key, expectedClearArgs, expectedNew).member],
    whose second argument is the clear-arguments flag and not
    [undefined]. *)
Lemma new_form_without_arguments :
  let nm := Dispatcher.mkNames "payload" "dispatcher" "get" "clear" "new" "member" in
  let result :=
    fst (Dispatcher.rewriteIdentifier nm {["h" := "k1"]} {["h"]} (Ast.Identifier "h")
           (Ast.CallExpression (Ast.Identifier "h") []) 0
           (Scope.mkInfo true false false false true) Samples.rng_b) in
  result =
  Dispatcher.ReplaceParent
    (Ast.MemberExpression
       (Ast.NewExpression (Ast.Identifier "dispatcher")
          [Ast.StrLit "k1"; Ast.StrLit "clear"; Ast.StrLit "new"])
       (Ast.Identifier "member") false) /\
  result <>
  Dispatcher.ReplaceParent
    (Ast.MemberExpression
       (Ast.NewExpression (Ast.Identifier "dispatcher")
          [Ast.StrLit "k1"; Ast.Identifier "undefined"; Ast.StrLit "new"])
       (Ast.Identifier "member") false).
Proof. vm_compute. split; [reflexivity | discriminate]. Qed.

(** *** RGF: which occurrences are routed through the reference array *)
Section ReferenceFacts.
Import Ast Scope References.

Variable reservedIdentifiers : gset string.
Variable names : gmap string nat.
Variable definingNodes : gmap string nat.
Variable referenceSignatures : gmap nat string.
Variable referenceArray : string.

(** C10.  An occurrence is turned into a reference-array access only
    when it is an identifier that is not reserved, carries the name of
    an extracted function declaration, is a reference and not a
    definition, and name resolution binds it to exactly the identifier
    node recorded for that declaration; it then becomes the plain
    [R[i]] when it is the target of an assignment and the [typeof]
    conditional otherwise.  An occurrence that is a definition, is not
    a reference, has no defining identifier, or is bound to another
    declaration stays as it is. *)
Theorem reference_rewritten_iff_bound (o parent : Node) (slot : nat)
    (info : IdentifierInfo) (definer : option nat) :
  let o' := rewriteReference reservedIdentifiers names definingNodes
              referenceSignatures referenceArray o parent slot info definer in
  (o' <> o ->
   exists name index id,
     kind_of o = Ty.Identifier name /\
     name ∉ reservedIdentifiers /\
     names !! name = Some index /\
     isReferenced info = true /\ isDefined info = false /\
     definer = Some id /\ definingNodes !! name = Some id /\
     o' = if isAssignmentTarget parent slot
          then memberExpression referenceArray index
          else conditionalExpression referenceSignatures referenceArray index) /\
  (forall name index id,
      kind_of o = Ty.Identifier name ->
      name ∉ reservedIdentifiers ->
      names !! name = Some index ->
      isReferenced info = true -> isDefined info = false ->
      definer = Some id -> definingNodes !! name = Some id ->
      o' = if isAssignmentTarget parent slot
           then memberExpression referenceArray index
           else conditionalExpression referenceSignatures referenceArray index) /\
  (isDefined info = true \/ isReferenced info = false \/ definer = None \/
   (forall name id, kind_of o = Ty.Identifier name -> definer = Some id ->
                    definingNodes !! name <> Some id) ->
   o' = o).
Proof.
  intros o'. subst o'. unfold rewriteReference.
  destruct o as [k cs].
  destruct k; try (split; [intros H; congruence | split; [intros ? ? ? H; discriminate H | reflexivity]]).
  cbn [kind_of].
  destruct (bool_decide (name ∈ reservedIdentifiers)) eqn:Eres.
  { apply bool_decide_eq_true in Eres.
    split; [congruence|]. split; [|reflexivity].
    intros n i id [= <-] Hn. contradiction. }
  apply bool_decide_eq_false in Eres.
  destruct (names !! name) as [index|] eqn:Enames.
  2:{ split; [congruence|]. split; [|reflexivity].
      intros n i id [= <-] _ Hn. congruence. }
  destruct (isReferenced info) eqn:Eref; cbn [andb].
  2:{ split; [congruence|]. split; [|reflexivity].
      intros n i id _ _ _ Hr. discriminate. }
  destruct (isDefined info) eqn:Edef; cbn [negb].
  { split; [congruence|]. split; [|reflexivity].
    intros n i id _ _ _ _ Hd. discriminate. }
  destruct definer as [pointingTo|].
  2:{ split; [congruence|]. split; [|reflexivity].
      intros n i id _ _ _ _ _ Hd. discriminate. }
  destruct (bool_decide (definingNodes !! name = Some pointingTo)) eqn:Ebound.
  - apply bool_decide_eq_true in Ebound. split; [|split].
    + intros _. exists name, index, pointingTo. repeat (split; [auto; fail|]).
      reflexivity.
    + intros n i id [= <-] _ Hn _ _ [= <-] _.
      rewrite Enames in Hn. injection Hn as <-. reflexivity.
    + intros [H|[H|[H|H]]]; try discriminate.
      exfalso. exact (H name pointingTo eq_refl eq_refl Ebound).
  - apply bool_decide_eq_false in Ebound.
    split; [congruence|]. split; [|reflexivity].
    intros n i id [= <-] _ _ _ _ [= <-] Hd. contradiction.
Qed.

End ReferenceFacts.

(** A call to the extracted [inner] is wrapped; the declaration's own
    identifier and a shadowing binding are left alone. *)
Example reference_rewriting_examples :
  let rewrite :=
    References.rewriteReference {["undefined"]} {["inner" := 0%nat]} {["inner" := 7%nat]}
      {[0%nat := "sig"]} "_R" (Ast.Identifier "inner") in
  let call := Ast.CallExpression (Ast.Identifier "inner") [] in
  rewrite call 0%nat (Scope.mkInfo true false false false true) (Some 7%nat)
    = References.conditionalExpression {[0%nat := "sig"]} "_R" 0 /\
  rewrite call 0%nat (Scope.mkInfo true false false false true) (Some 9%nat)
    = Ast.Identifier "inner" /\
  rewrite call 0%nat (Scope.mkInfo true true false true false) (Some 7%nat)
    = Ast.Identifier "inner" /\
  rewrite (Ast.AssignmentExpression "=" (Ast.Identifier "inner") (Ast.NumLit 1)) 0%nat
    (Scope.mkInfo true false true false false) (Some 7%nat)
    = References.memberExpression "_R" 0.
Proof. vm_compute. repeat split. Qed.

(** *** Flatten: return statements *)
Section FlattenFacts.
Import Random Ast Flatten.

Variable nm : generatedNames.
Variable output : list string.
Variable newOutputNames : string -> string.
Variable shuffle : list Node -> Rand (list Node).
Hypothesis shuffle_permutes : forall l g, Permutation (fst (shuffle l g)) l.

Notation rewriteReturns := (rewriteReturns nm output newOutputNames).
Notation assignResult := (assignResult nm output newOutputNames).
Notation returnProperty := (returnProperty nm).
Notation outputProperty := (outputProperty newOutputNames).

Notation rewritten := (rewritten nm output newOutputNames).

Lemma ownReturns_outputs :
  flat_map ownReturns (map outputProperty output) = [].
Proof. induction output as [|x l IH]; [reflexivity | exact IH]. Qed.

Lemma ownReturns_assignResult (a : Node) :
  ownReturns (assignResult a) = ownReturns a.
Proof.
  unfold Flatten.assignResult, Flatten.returnObject, Flatten.returnProperty.
  destruct (isAbsent a || isUndefinedIdentifier a)%bool eqn:E.
  - cbn. rewrite ownReturns_outputs.
    destruct a as [k cs]. destruct k; try discriminate; destruct cs; try discriminate;
      reflexivity.
  - cbn. rewrite ownReturns_outputs. rewrite !app_nil_r. reflexivity.
Qed.

Lemma isVarContext_kind (k : Ty.kind) (cs cs' : list Node) :
  isVarContext (Nd k cs) = isVarContext (Nd k cs').
Proof. reflexivity. Qed.

Lemma Forall2_flat_map_returns (cs : list Node) :
  Forall (fun n => Forall2 rewritten (ownReturns (rewriteReturns n)) (ownReturns n)) cs ->
  Forall2 rewritten (flat_map ownReturns (map rewriteReturns cs)) (flat_map ownReturns cs).
Proof.
  induction 1 as [|c cs Hc _ IH]; simpl; [constructor|].
  apply Forall2_app; assumption.
Qed.

Lemma rewriteReturns_own (n : Node) :
  Forall2 rewritten (ownReturns (rewriteReturns n)) (ownReturns n).
Proof.
  induction n as [k cs IH] using Node_rect_Forall.
  cbn [Flatten.rewriteReturns Flatten.ownReturns].
  destruct (isVarContext (Nd k cs)) eqn:Evc.
  - cbn [Flatten.ownReturns]. rewrite Evc. constructor.
  - destruct (isReturn (Nd k cs)) eqn:Eret.
    + cbn [Flatten.ownReturns].
      rewrite (isVarContext_kind k _ cs), Evc.
      change (isReturn (Nd k (assignResult (hd Null (map rewriteReturns cs))
                                :: tl (map rewriteReturns cs))))
        with (isReturn (Nd k cs)).
      rewrite Eret. cbn [app flat_map].
      constructor.
      * split; [exact Eret|]. split; [exact Eret|].
        cbn [children_of hd]. destruct cs; reflexivity.
      * rewrite ownReturns_assignResult.
        destruct cs as [|c cs]; [constructor|].
        cbn [map hd tl flat_map]. inversion IH as [|? ? Hc Hcs]; subst.
        apply Forall2_app; [exact Hc | apply Forall2_flat_map_returns, Hcs].
    + cbn [Flatten.ownReturns].
      rewrite (isVarContext_kind k _ cs), Evc.
      change (isReturn (Nd k (map rewriteReturns cs))) with (isReturn (Nd k cs)).
      rewrite Eret. cbn [app]. apply Forall2_flat_map_returns, IH.
Qed.

Lemma rewriteReturns_without_returns (n : Node) :
  ownReturns n = [] -> rewriteReturns n = n.
Proof.
  induction n as [k cs IH] using Node_rect_Forall.
  cbn [Flatten.rewriteReturns Flatten.ownReturns].
  destruct (isVarContext (Nd k cs)); [reflexivity|].
  destruct (isReturn (Nd k cs)); [discriminate|].
  cbn [app]. intros H. f_equal.
  induction IH as [|c cs Hc _ IHcs]; [reflexivity|].
  cbn [flat_map] in H. apply app_eq_nil in H as [H1 H2].
  cbn [map]. rewrite (Hc H1), (IHcs H2). reflexivity.
Qed.

Lemma rewriteReturns_directive (n : Node) :
  hasDirective (rewriteReturns n) = hasDirective n.
Proof.
  destruct n as [k cs]. cbn [Flatten.rewriteReturns].
  destruct (isVarContext (Nd k cs)); [reflexivity|].
  destruct (isReturn (Nd k cs)) eqn:E; [|reflexivity].
  destruct k; try discriminate; reflexivity.
Qed.

Lemma movedBody_map (body : list Node) :
  movedBody nm output newOutputNames body = map rewriteReturns (movedStatements body).
Proof.
  unfold movedBody, movedStatements.
  destruct (body ++ [ReturnStatement Null])%list as [|first rest]; [reflexivity|].
  cbn [map]. rewrite rewriteReturns_directive.
  destruct (hasDirective first); reflexivity.
Qed.

Lemma filterChance_incl (percent : Z) (xs : list Node) (g : RNG) :
  incl (fst (filterChance percent xs g)) xs.
Proof.
  revert g. induction xs as [|x xs IH]; intros g; cbn [filterChance].
  - unfold ret. cbn. apply incl_refl.
  - unfold bind, ret. destruct (chance percent g) as [keep g1].
    specialize (IH g1). destruct (filterChance percent xs g1) as [rest g2].
    cbn [fst] in *. destruct keep.
    + apply incl_cons; [left; reflexivity | apply incl_tl, IH].
    + apply incl_tl, IH.
Qed.

(** C4, as the code has it.  In the body that moves into the flat
    function, every return statement that belongs to the function, the
    appended trailing [return] included, has become [return result.prop
    = { ... }]: the returns of the moved body correspond one to one, in
    order, to those of the original statements, each with the
    assignment built from its own argument as its new argument.  The
    object has one property per output name, after a first property
    under the return key that holds the argument, which is there exactly
    when the statement has an argument other than the identifier
    [undefined]; an argument without return statements of its own is
    kept as it is, and nested functions are not touched.  The real
    [if (result.prop) return result.prop.returnKey] is a statement of
    the replacement body, whatever the decoy trials and the shuffle
    give. *)
Theorem returns_become_assignments (body : list Node) (async : bool)
    (input newParamNames : list string) (g : RNG) :
  Forall2 rewritten
    (flat_map ownReturns (movedBody nm output newOutputNames body))
    (flat_map ownReturns (movedStatements body)) /\
  (forall argument,
      returnObject nm output newOutputNames argument =
      ObjectExpression (returnProperty argument ++ map outputProperty output)%list /\
      returnProperty argument =
      if (isAbsent argument || isUndefinedIdentifier argument)%bool then []
      else [Property (StrLit (returnOutputName nm)) argument true]) /\
  (forall n, ownReturns n = [] -> rewriteReturns n = n) /\
  (forall n, isVarContext n = true -> rewriteReturns n = n) /\
  In (realReturn nm)
     (fst (newObjectBody nm output newOutputNames shuffle async input newParamNames g)).
Proof.
  split; [|split; [|split; [|split]]].
  - rewrite movedBody_map. apply Forall2_flat_map_returns.
    apply Forall_forall. intros n _. apply rewriteReturns_own.
  - intros argument. split; reflexivity.
  - exact rewriteReturns_without_returns.
  - intros [k cs] H. cbn [Flatten.rewriteReturns]. rewrite H. reflexivity.
  - unfold newObjectBody, bind, ret.
    destruct (filterChance 25 (decoyTemplates nm) g) as [decoys g1].
    pose proof (shuffle_permutes (decoys ++ [realReturn nm]) g1) as Hperm.
    destruct (shuffle (decoys ++ [realReturn nm]) g1) as [shuffled g2].
    cbn [fst] in *. apply in_or_app. right. apply in_or_app. right.
    eapply Permutation_in; [symmetry; exact Hperm|].
    apply in_or_app. right. left. reflexivity.
Qed.

End FlattenFacts.

Lemma returns_become_assignments_witness :
  In (Flatten.realReturn FlattenSamples.nm)
     (fst (Flatten.newObjectBody FlattenSamples.nm ["z"] FlattenSamples.outKey
             FlattenSamples.reverse false ["z"] ["p"] Samples.rng_c)).
Proof.
  exact (proj2 (proj2 (proj2 (proj2
    (returns_become_assignments FlattenSamples.nm ["z"] FlattenSamples.outKey
       FlattenSamples.reverse
       (fun l g => Permutation_sym (Permutation_rev l))
       [Ast.ReturnStatement (Ast.NumLit 1)] false ["z"] ["p"] Samples.rng_c))))).
Defined.

(** C4 as stated fails for a return statement without an argument, the
    appended trailing [return] among them: in the function whose body
    is [z = 1;], with the outer [z] as its one output, the object of the
    appended return has the output property only, and no property under
    the return key.  A return statement of a nested function is not
    rewritten at all. *)
Lemma trailing_return_has_no_return_key :
  Flatten.movedBody FlattenSamples.nm ["z"] FlattenSamples.outKey
    [CFFSamples.assign "z" (Ast.NumLit 1)] =
    [CFFSamples.assign "z" (Ast.NumLit 1);
     Ast.ReturnStatement
       (Ast.AssignmentExpression "="
          (Ast.MemberExpression (Ast.Identifier "result") (Ast.Identifier "prop") false)
          (Ast.ObjectExpression
             [Ast.Property (Ast.StrLit "k_z") (Ast.Identifier "z") true]))] /\
  Flatten.returnProperty FlattenSamples.nm Ast.Null = [] /\
  Flatten.rewriteReturns FlattenSamples.nm ["z"] FlattenSamples.outKey
    (Ast.FunctionExpression [] [Ast.ReturnStatement (Ast.NumLit 1)]) =
    Ast.FunctionExpression [] [Ast.ReturnStatement (Ast.NumLit 1)].
Proof. vm_compute. repeat split. Qed.
(** ** Control Flow Flattening: the depth given to [flattenBody] is enough *)

Section FlattenTotal.
Import Random Ast JSNum Placeholder Chunking.
Local Open Scope nat_scope.

Lemma succeeds_ret {A} (a : A) : succeeds (ret (Some a)).
Proof. intros g. exists a, g. reflexivity. Qed.

Lemma succeeds_bind {A B} (m : Rand A) (k : A -> Rand (option B)) :
  (forall a, succeeds (k a)) -> succeeds (bind m k).
Proof.
  intros Hk g. unfold bind. destruct (m g) as [a g1]. apply Hk.
Qed.

Lemma succeeds_bindOpt {A B} (m : Rand (option A)) (k : A -> Rand (option B)) :
  succeeds m -> (forall a, succeeds (k a)) -> succeeds (bindOpt m k).
Proof.
  intros Hm Hk g. unfold bindOpt, bind.
  destruct (Hm g) as (a & g1 & ->). apply Hk.
Qed.

Lemma height_child (k : Ty.kind) (cs : list Node) (c : Node) :
  In c cs -> height c < height (Nd k cs).
Proof.
  intros H. cbn [height]. induction cs as [|c' cs IH]; [destruct H|].
  cbn [fold_right]. destruct H as [->|H]; [lia|]. specialize (IH H). lia.
Qed.

Lemma height_bound (k : Ty.kind) (cs : list Node) (m : nat) :
  (forall c, In c cs -> height c < m) -> 0 < m -> height (Nd k cs) <= m.
Proof.
  intros H Hm. cbn [height]. induction cs as [|c cs IH]; cbn [fold_right]; [lia|].
  pose proof (H c (or_introl eq_refl)).
  assert (forall c, In c cs -> height c < m) as H' by (intros; apply H; now right).
  specialize (IH H'). lia.
Qed.

Lemma allSome_Forall2 {A B} (f : A -> option B) (l : list A) (l' : list B) :
  allSome f l = Some l' -> Forall2 (fun a b => f a = Some b) l l'.
Proof.
  revert l'. induction l as [|a l IH]; intros l' H; cbn [allSome] in H.
  - injection H as <-. constructor.
  - destruct (f a) as [b|] eqn:Ea; [|discriminate].
    destruct (allSome f l) as [rest|]; [|discriminate].
    injection H as <-. constructor; [exact Ea|]. apply IH. reflexivity.
Qed.

Lemma replaceJumps_height (lbl afterPath updatePath : string) (n n' : Node) :
  replaceJumps lbl afterPath updatePath n = Some n' -> height n' <= height n.
Proof.
  revert n'. induction n as [k cs IH] using Node_rect_Forall. intros n' H.
  assert (Hkids : forall cs', allSome (replaceJumps lbl afterPath updatePath) cs = Some cs' ->
                  height (Nd k cs') <= height (Nd k cs)).
  { clear H. intros cs' E. apply allSome_Forall2 in E. cbn [height]. apply le_n_S.
    revert IH. induction E as [|c c' cs0 cs0' Hc E IHE]; intros IH; cbn [fold_right]; [lia|].
    inversion IH as [|? ? IHc IHcs]; subst.
    specialize (IHE IHcs). specialize (IHc _ Hc). lia. }
  assert (Hjump : forall target, match jumpLabel (Nd k cs) with
          | Some l => if String.eqb l lbl then Some (GotoStatement target) else None
          | None => None end = Some n' -> height n' <= height (Nd k cs)).
  { intros target E. destruct (jumpLabel (Nd k cs)); [|discriminate].
    destruct (String.eqb _ _); [|discriminate]. injection E as <-.
    cbn. lia. }
  cbn [replaceJumps] in H.
  destruct k; try (destruct (allSome _ cs) as [cs'|] eqn:E; [|discriminate];
                   injection H as <-; apply Hkids; reflexivity);
    eapply Hjump; exact H.
Qed.

Section Statement.
Variable fraction : Q.
Variable flattenNested : list Node -> string -> Rand (option (list chunk)).
Variable d : nat.
Hypothesis nested_succeeds :
  forall body label, height (Arr body) <= d -> succeeds (flattenNested body label).

Lemma otherwise_succeeds (stmt : Node) (b : builder) :
  succeeds (bind (plain fraction stmt b) (fun b => ret (Some b))).
Proof. apply succeeds_bind. intros. apply succeeds_ret. Qed.

Lemma nested_with_goto (stmts : list Node) (target label : string) :
  (forall c, In c stmts -> height c < d) -> 1 < d ->
  succeeds (flattenNested (stmts ++ [GotoStatement target])%list label).
Proof.
  intros H Hd. apply nested_succeeds. apply height_bound; [|lia].
  intros c Hc. apply in_app_or in Hc as [Hc|[<-|[]]]; [apply H, Hc|cbn; lia].
Qed.

Lemma flattenCases_succeeds (switchVarName afterPath : string) (cases : list Node) :
  (forall c, In c cases -> height c < d) -> 1 < d ->
  forall b, succeeds (flattenCases flattenNested switchVarName afterPath cases b).
Proof.
  intros H Hd. induction cases as [|sc rest IH]; intros b; cbn [flattenCases].
  - apply succeeds_ret.
  - apply succeeds_bind. intros entryPath. apply succeeds_bindOpt.
    + apply nested_with_goto; [|exact Hd]. intros c Hc.
      pose proof (H sc (or_introl eq_refl)) as Hsc.
      assert (In c (children_of (nth 1 (children_of sc) Null))) as Hc'.
      { destruct (children_of (nth 1 (children_of sc) Null)) as [|x l] eqn:E; [destruct Hc|].
        rewrite <- E in *. clear E.
        generalize dependent (children_of (nth 1 (children_of sc) Null)).
        intros l0. induction l0 as [|y [|z l0] IHl]; cbn; intros Hc; [destruct Hc|destruct Hc|].
        destruct Hc as [->|Hc]; [now left|right; apply IHl, Hc]. }
      destruct sc as [ksc csc]. cbn [children_of] in Hc'.
      destruct (nth_in_or_default 1 csc Null) as [Hin|Hdef].
      * apply height_child with (k := ksc) in Hin.
        destruct (nth 1 csc Null) as [kn cn]. cbn [children_of] in Hc'.
        apply height_child with (k := kn) in Hc'. lia.
      * rewrite Hdef in Hc'. destruct Hc'.
    + intros more. destruct (is_nil rest); [apply succeeds_ret|].
      apply succeeds_bind. intros b'. apply IH. intros c Hc. apply H. now right.
Qed.

Ltac run :=
  repeat match goal with
  | |- succeeds (bindOpt _ _) => fail 1
  | |- succeeds (ret (Some _)) => apply succeeds_ret
  | |- succeeds (bind _ _) => apply succeeds_bind; intros ?
  | |- succeeds (let _ := _ in _) => cbv zeta
  end.

Lemma flattenSwitch_succeeds (discriminant : Node) (cases : list Node) (b : builder) :
  (forall c, In c cases -> height c < d) -> 1 < d ->
  succeeds (flattenSwitch flattenNested discriminant cases b).
Proof.
  intros H Hd. unfold flattenSwitch. run.
  apply succeeds_bindOpt; [apply flattenCases_succeeds; assumption|]. intros b'. run.
Qed.

Lemma flattenLoop_succeeds (testPath updatePath bodyPath afterPath : string)
    (init test update : Node) (loopBody : list Node) (b : builder) :
  (forall c, In c loopBody -> height c < d) -> 1 < d ->
  succeeds (flattenLoop flattenNested testPath updatePath bodyPath afterPath
              init test update loopBody b).
Proof.
  intros H Hd. unfold flattenLoop. run.
  apply succeeds_bindOpt; [apply nested_with_goto; assumption|]. intros more. run.
Qed.

Lemma flattenLabeledLoop_succeeds (stmt : Node) (lbl : string)
    (init test update loopBlock : Node) (b : builder) :
  S (height loopBlock) < d ->
  succeeds (flattenLabeledLoop flattenNested stmt lbl init test update loopBlock b).
Proof.
  intros H. unfold flattenLabeledLoop. run.
  destruct (replaceJumps _ _ _ loopBlock) as [[k [|[kb loopBody] [|? ?]]]|] eqn:E;
    try apply succeeds_ret; try (destruct kb; apply succeeds_ret).
  destruct kb; try apply succeeds_ret.
  apply replaceJumps_height in E.
  apply flattenLoop_succeeds; [|lia]. intros c Hc.
  apply height_child with (k := Ty.Array) in Hc.
  pose proof (height_child k [Nd Ty.Array loopBody] _ (or_introl eq_refl)). lia.
Qed.

Lemma flattenIf_succeeds (test : Node) (consequent : list Node)
    (alternate : option (list Node)) (b : builder) :
  (forall c, In c consequent -> height c < d) ->
  (forall alternateBody, alternate = Some alternateBody ->
     forall c, In c alternateBody -> height c < d) ->
  1 < d ->
  succeeds (flattenIf flattenNested test consequent alternate b).
Proof.
  intros H Halt Hd. unfold flattenIf. run.
  apply succeeds_bindOpt; [apply nested_with_goto; assumption|]. intros more.
  destruct alternate as [alternateBody|]; run.
  apply succeeds_bindOpt; [|intros; run].
  apply nested_with_goto; [|exact Hd]. apply Halt. reflexivity.
Qed.

Lemma flattenStatement_succeeds (hoist : bool) (stmt : Node) (isLast : bool) (b : builder) :
  height stmt <= d ->
  succeeds (flattenStatement fraction flattenNested hoist stmt isLast b).
Proof.
  intros H. destruct stmt as [k cs]. destruct k; try apply otherwise_succeeds.
  - (* FunctionDeclaration *)
    cbn [flattenStatement]. destruct hoist; [apply succeeds_ret|apply otherwise_succeeds].
  - (* IfStatement *)
    destruct cs as [|test [|[kc ccs] [|[ka cas] [|? ?]]]]; try apply otherwise_succeeds;
      destruct kc; try apply otherwise_succeeds;
      destruct ccs as [|[kcc consequent] [|? ?]]; try apply otherwise_succeeds;
      destruct kcc; try apply otherwise_succeeds.
    assert (forall c, In c consequent -> height c < d) as Hcons.
    { intros c Hc. apply height_child with (k := Ty.Array) in Hc. cbn [height fold_right] in *. lia. }
    assert (1 < d) as Hd by (cbn [height fold_right] in H; lia).
    destruct ka; try apply otherwise_succeeds.
    + destruct cas; try apply otherwise_succeeds.
      apply flattenIf_succeeds; [exact Hcons|discriminate|exact Hd].
    + destruct cas as [|[kaa alternateBody] [|? ?]]; try apply otherwise_succeeds;
        destruct kaa; try apply otherwise_succeeds.
      apply flattenIf_succeeds; [exact Hcons| |exact Hd].
      intros ? [= <-] c Hc. apply height_child with (k := Ty.Array) in Hc.
      cbn [height fold_right] in *. lia.
  - (* LabeledStatement *)
    destruct cs as [|[k1 cs1] [|[kc ccs] [|? ?]]]; try apply otherwise_succeeds;
      destruct k1; try apply otherwise_succeeds;
      destruct kc; try apply otherwise_succeeds.
    + (* for *)
      destruct ccs as [|init [|test [|update [|[kb blk] [|? ?]]]]]; try apply otherwise_succeeds;
        destruct kb; try apply otherwise_succeeds.
      apply flattenLabeledLoop_succeeds.
      cbn [height fold_right] in *. lia.
    + (* while *)
      destruct ccs as [|test [|[kb blk] [|? ?]]]; try apply otherwise_succeeds;
        destruct kb; try apply otherwise_succeeds.
      apply flattenLabeledLoop_succeeds.
      cbn [height fold_right] in *. lia.
    + (* switch *)
      destruct ccs as [|discriminant [|[kcs cases] [|? ?]]]; try apply otherwise_succeeds;
        destruct kcs; try apply otherwise_succeeds.
      cbn [flattenStatement].
      destruct (is_nil cases || existsb (badCase name) cases); [apply succeeds_ret|].
      unfold flattenLabeledSwitch. run.
      apply flattenSwitch_succeeds; [|cbn [height fold_right] in H; lia].
      intros c Hc. apply height_child with (k := Ty.Array) in Hc.
      cbn [height fold_right] in *. lia.
  - (* GotoStatement *)
    cbn [flattenStatement]. destruct isLast; [apply otherwise_succeeds|run].
Qed.

Lemma forEachStatement_succeeds (hoist : bool) (body : list Node) :
  (forall s, In s body -> height s <= d) ->
  forall b, succeeds (forEachStatement fraction flattenNested hoist body b).
Proof.
  intros H. induction body as [|stmt rest IH]; intros b; cbn [forEachStatement].
  - apply succeeds_ret.
  - apply succeeds_bindOpt.
    + apply flattenStatement_succeeds, H. now left.
    + intros b'. apply IH. intros s Hs. apply H. now right.
Qed.

End Statement.

(** [flattenBody] yields its chunks as soon as [depth] is the height of
    the body: the bound that [transform] passes never cuts it short. *)
Lemma flattenBody_succeeds (fraction : Q) (depth : nat) :
  forall (hoist : bool) (body : list Node) (startingLabel : option string),
    height (Arr body) <= depth ->
    succeeds (flattenBody depth fraction hoist body startingLabel).
Proof.
  induction depth as [|depth IH]; intros hoist body startingLabel H.
  - cbn [height Arr] in H. lia.
  - cbn [flattenBody]. apply succeeds_bind. intros l. apply succeeds_bindOpt.
    + apply forEachStatement_succeeds with (d := depth).
      * intros nested label Hn. apply IH, Hn.
      * intros s Hs. apply height_child with (k := Ty.Array) in Hs.
        unfold Arr in H. lia.
    + intros b. apply succeeds_bind. intros b'. apply succeeds_ret.
Qed.

End FlattenTotal.


(** *** Control Flow Flattening: no goto survives *)
Section GotoFree.
Import Random Ast JSNum Placeholder StateEncoding Chunking Assemble.

(** A tree without any [GotoStatement]. *)
Notation gotoFree n := (containsGoto n = false).

Lemma gotoFree_Nd (k : Ty.kind) (cs : list Node) :
  gotoFree (Nd k cs) <-> isGoto (Nd k cs) = false /\ Forall (fun c => gotoFree c) cs.
Proof.
  cbn [containsGoto]. rewrite orb_false_iff. apply and_iff_compat_l.
  induction cs as [|c cs IH]; cbn [existsb].
  - split; [constructor | reflexivity].
  - rewrite orb_false_iff, IH. split.
    + intros [H1 H2]. constructor; assumption.
    + intros H. inversion H; subst. split; assumption.
Qed.

Lemma gotoFree_leaf (k : Ty.kind) :
  isGoto (Nd k []) = false -> gotoFree (Nd k []).
Proof. intros H. apply gotoFree_Nd. split; [exact H | constructor]. Qed.

Lemma gotoFree_node (k : Ty.kind) (cs : list Node) :
  isGoto (Nd k []) = false -> Forall (fun c => gotoFree c) cs -> gotoFree (Nd k cs).
Proof. intros H Hcs. apply gotoFree_Nd. split; [exact H | exact Hcs]. Qed.

Ltac goto_free :=
  repeat first
    [ assumption
    | reflexivity
    | apply Forall_nil_2
    | apply Forall_cons_2
    | apply gotoFree_node ].

Section WithVars.
Variable stateVars : list string.

Lemma numberLiteral_at_gotoFree (levels : nat) :
  forall (num depth : Z) (vals : list Z) (g : RNG),
    gotoFree (fst (numberLiteral_at stateVars levels num depth vals g)).
Proof.
  induction levels as [|levels IH]; intros num depth vals g; [reflexivity|].
  cbn [numberLiteral_at]. unfold bind, ret.
  destruct (Math_random g) as [u g1].
  destruct (js_gt u _); [reflexivity|].
  destruct (getRandomInteger 0 (Z.of_nat (length stateVars)) g1) as [opp g2].
  destruct (Math_random g2) as [u2 g3].
  destruct (js_gt u2 (Fin (1 # 2))).
  - destruct (getRandomInteger (-250) 250 g3) as [x g4].
    destruct (choice "<" ["<"; ">"] g4) as [op g5].
    pose proof (IH num (depth + 1) vals g5) as Hc.
    destruct (numberLiteral_at stateVars levels num (depth + 1) vals g5) as [correct g6].
    destruct (getRandomInteger (-250) 250 g6) as [wrong g7].
    pose proof (IH wrong (depth + 1) vals g7) as Hw.
    destruct (numberLiteral_at stateVars levels wrong (depth + 1) vals g7)
      as [incorrect g8].
    pose proof (IH x (depth + 1) vals g8) as Hl.
    destruct (numberLiteral_at stateVars levels x (depth + 1) vals g8) as [lhs g9].
    cbn [fst] in *.
    unfold ConditionalExpression, BinaryExpression, Identifier.
    destruct (if (op =? "<")%string then _ else _); goto_free.
  - pose proof (IH (num - nth (Z.to_nat opp) vals 0) (depth + 1) vals g3) as Hr.
    destruct (numberLiteral_at stateVars levels _ (depth + 1) vals g3) as [rest g4].
    cbn [fst] in *. unfold BinaryExpression, Identifier. goto_free.
Qed.

Lemma numberLiteral_gotoFree (num depth : Z) (vals : list Z) (g : RNG) :
  gotoFree (fst (numberLiteral stateVars num depth vals g)).
Proof. apply numberLiteral_at_gotoFree. Qed.

Lemma createTransitionExpression_gotoFree (index : nat) (add : Z) (vals : list Z)
    (g : RNG) :
  gotoFree (fst (fst (createTransitionExpression stateVars index add vals g))).
Proof.
  unfold createTransitionExpression, bind, ret.
  destruct (Math_random g) as [u g1].
  destruct (js_gt u (Fin (1 # 2))).
  - pose proof (numberLiteral_gotoFree add 0 vals g1) as H.
    destruct (numberLiteral stateVars add 0 vals g1) as [lit g2]. cbn [fst] in *.
    unfold AssignmentExpression, Identifier. goto_free.
  - pose proof (numberLiteral_gotoFree 2 0 vals g1) as H2.
    destruct (numberLiteral stateVars 2 0 vals g1) as [two g2]. cbn [fst] in *.
    match goal with
    | |- context [numberLiteral stateVars ?d 0 ?v g2] =>
        pose proof (numberLiteral_gotoFree d 0 v g2) as Hd;
        destruct (numberLiteral stateVars d 0 v g2) as [dd g3]
    end.
    cbn [fst] in *.
    unfold SequenceExpression, Arr, AssignmentExpression, Identifier. goto_free.
Qed.

Lemma transitionsFrom_gotoFree (n : nat) :
  forall (i : nat) (next vals : list Z) (g : RNG),
    Forall (fun c => gotoFree c) (fst (fst (transitionsFrom stateVars n i next vals g))).
Proof.
  induction n as [|n IH]; intros i next vals g; [constructor|].
  cbn [transitionsFrom]. unfold bind, ret.
  pose proof (createTransitionExpression_gotoFree i
                (nth i next 0 - nth i vals 0) vals g) as He.
  destruct (createTransitionExpression stateVars i _ vals g) as [[e1 vals1] g1].
  cbn [fst snd] in *.
  specialize (IH (S i) next vals1 g1).
  destruct (transitionsFrom stateVars n (S i) next vals1 g1) as [[es vals2] g2].
  cbn [fst snd] in *. constructor; assumption.
Qed.

Lemma transitionStatement_gotoFree (current next : list Z) (g : RNG) :
  gotoFree (fst (transitionStatement stateVars current next g)).
Proof.
  unfold transitionStatement, bind, ret.
  pose proof (transitionsFrom_gotoFree (length current) 0 next current g) as H.
  destruct (transitionsFrom stateVars (length current) 0 next current g) as [[es v] g1].
  cbn [fst] in *. unfold ExpressionStatement, SequenceExpression, Arr. goto_free.
Qed.

Variable labelToStates : gmap string (list Z).
Variable switchLabel : string.
Variable chunkStates : list Z.

Notation rewriteNode := (rewriteNode stateVars labelToStates switchLabel chunkStates).
Notation leave := (leave stateVars labelToStates switchLabel chunkStates).

Lemma breakOut_gotoFree : gotoFree (breakOut switchLabel).
Proof. reflexivity. Qed.

Lemma withBreaks_gotoFree (vs : list visited) :
  Forall (fun v => gotoFree (node v)) vs ->
  Forall (fun c => gotoFree c) (withBreaks switchLabel vs).
Proof.
  induction 1 as [|v vs Hv _ IH]; [constructor|].
  cbn [withBreaks flat_map]. constructor; [exact Hv|].
  apply Forall_app. split; [|exact IH].
  unfold copies. induction (breaks v); cbn [repeat]; constructor;
    [apply breakOut_gotoFree | assumption].
Qed.

Lemma keyReplaced_not_goto (k : Ty.kind) (vs : list visited) :
  isGoto (Nd k []) = false -> isGoto (Nd (keyReplaced k vs) []) = false.
Proof.
  intros H. unfold keyReplaced. destruct vs as [|key vs]; [exact H|].
  destruct (replacedLiteral key); [|exact H].
  destruct k; try exact H; reflexivity.
Qed.

Lemma leave_gotoFree (inBlock : bool) (k : Ty.kind) (vs : list visited)
    (g g' : RNG) (v : visited) :
  Forall (fun v => gotoFree (node v)) vs ->
  leave inBlock k vs g = (Some v, g') ->
  gotoFree (node v).
Proof.
  intros Hvs H.
  assert (Hmap : Forall (fun c => gotoFree c) (map node vs))
    by (apply Forall_map; exact Hvs).
  unfold Assemble.leave in H.
  destruct k;
    try (unfold ret in H; injection H as <- <-; cbn [node];
         apply gotoFree_node; [apply keyReplaced_not_goto; reflexivity | exact Hmap]).
  - (* an array *)
    destruct inBlock; unfold ret in H; injection H as <- <-; cbn [node];
      apply gotoFree_node; try reflexivity; [|exact Hmap].
    apply withBreaks_gotoFree, Hvs.
  - (* a goto: the transition statement *)
    destruct (labelToStates !! _) as [next|]; [|discriminate].
    unfold bind, ret in H.
    pose proof (transitionStatement_gotoFree chunkStates next g) as Ht.
    destruct (transitionStatement stateVars chunkStates next g) as [s g1].
    injection H as <- <-. exact Ht.
Qed.

Lemma eachChild_gotoFree
    (visit : Node -> positive -> Rand (option (visited * positive))) (cs : list Node) :
  Forall (fun c => forall made g v made' g',
              visit c made g = (Some (v, made'), g') -> gotoFree (node v)) cs ->
  forall made g vs made' g',
    eachChild visit cs made g = (Some (vs, made'), g') ->
    Forall (fun v => gotoFree (node v)) vs.
Proof.
  induction 1 as [|c cs Hc _ IH]; intros made g vs made' g' H.
  - cbn in H. injection H as <- _ _. constructor.
  - cbn [eachChild] in H. unfold bindOpt, bind, ret in H.
    destruct (visit c made g) as [[[v m1]|] g1] eqn:Ev; [|discriminate].
    cbn [fst snd] in H.
    destruct (eachChild visit cs m1 g1) as [[[vs' m2]|] g2] eqn:Ecs; [|discriminate].
    injection H as <- _ _. cbn [fst].
    constructor; [eapply Hc, Ev | eapply IH, Ecs].
Qed.

Lemma rewriteNode_gotoFree (n : Node) :
  forall inFunction inBlock made g v made' g',
    rewriteNode inFunction inBlock n made g = (Some (v, made'), g') ->
    gotoFree (node v).
Proof.
  induction n as [k cs IH] using Node_rect_Forall.
  intros inFunction inBlock made g v made' g' H.
  cbn [Assemble.rewriteNode] in H.
  set (visit := rewriteNode (inFunction || isVarContext (Nd k cs)) (isBlock (Nd k cs))) in H.
  assert (Hvisit : Forall (fun c => forall made g v made' g',
             visit c made g = (Some (v, made'), g') -> gotoFree (node v)) cs).
  { eapply List.Forall_impl; [|exact IH]. intros c Hc. intros. eapply Hc. eassumption. }
  assert (Hdescend : forall g0,
            bindOpt (eachChild visit cs made)
              (fun r => bindOpt (leave inBlock k (fst r)) (fun v => ret (Some (v, snd r))))
              g0 = (Some (v, made'), g') -> gotoFree (node v)).
  { intros g0 Hd. unfold bindOpt, bind, ret in Hd.
    destruct (eachChild visit cs made g0) as [[[vs m1]|] g1] eqn:Ecs; [|discriminate].
    cbn [fst snd] in Hd.
    destruct (leave inBlock k vs g1) as [[v1|] g2] eqn:El; [|discriminate].
    injection Hd as <- _ _.
    eapply leave_gotoFree; [|exact El].
    eapply eachChild_gotoFree; eassumption. }
  destruct (eligibleLiteral k) as [value|]; [|exact (Hdescend g H)].
  unfold bind in H. destruct (Math_random g) as [u g1].
  destruct (Qlt_bool u (4 # made) && negb inFunction)%bool; [|exact (Hdescend g1 H)].
  unfold bindOpt, bind, ret in H.
  destruct (eachChild visit cs (made + 1)%positive g1) as [[[vs m1]|] g2]; [|discriminate].
  cbn [fst snd] in H.
  pose proof (numberLiteral_gotoFree value 0 chunkStates g2) as Hlit.
  destruct (numberLiteral stateVars value 0 chunkStates g2) as [e g3].
  injection H as <- _ _. exact Hlit.
Qed.

Lemma rewriteStatements_gotoFree (stmts : list Node) :
  forall index made g out breaksInsertion g',
    rewriteStatements stateVars labelToStates switchLabel chunkStates stmts index made g
    = (Some (out, breaksInsertion), g') ->
    Forall (fun c => gotoFree c) out.
Proof.
  induction stmts as [|stmt rest IH]; intros index made g out breaksInsertion g' H.
  - cbn in H. injection H as <- _ _. constructor.
  - cbn [rewriteStatements] in H. unfold bindOpt, bind, ret in H.
    destruct (rewriteNode false false stmt made g) as [[[v m1]|] g1] eqn:Ev; [|discriminate].
    cbn [fst snd] in H.
    destruct (rewriteStatements _ _ _ _ rest (S index) m1 g1) as [[[out' bi]|] g2] eqn:Er;
      [|discriminate].
    injection H as <- _ _. cbn [fst].
    constructor; [eapply rewriteNode_gotoFree, Ev | eapply IH, Er].
Qed.

Lemma splice_gotoFree (index : nat) (x : Node) (a : list Node) :
  gotoFree x -> Forall (fun c => gotoFree c) a ->
  Forall (fun c => gotoFree c) (splice index x a).
Proof.
  intros Hx Ha. unfold splice. apply Forall_app. split.
  - apply Forall_take, Ha.
  - constructor; [exact Hx | apply Forall_drop, Ha].
Qed.

Lemma insertBreaks_gotoFree (body : list Node) (breaksInsertion : list nat) :
  Forall (fun c => gotoFree c) body ->
  Forall (fun c => gotoFree c) (insertBreaks switchLabel body breaksInsertion).
Proof.
  unfold insertBreaks. generalize (rev (sortAsStrings breaksInsertion)) as idxs.
  intros idxs. revert body. induction idxs as [|i idxs IH]; intros body H; [exact H|].
  cbn [fold_left]. apply IH. apply splice_gotoFree; [reflexivity | exact H].
Qed.

Lemma rewriteChunk_gotoFree (body out : list Node) (g g' : RNG) :
  rewriteChunk stateVars labelToStates switchLabel chunkStates body g = (Some out, g') ->
  Forall (fun c => gotoFree c) out.
Proof.
  unfold rewriteChunk, bindOpt, bind, ret. intros H.
  destruct (rewriteStatements _ _ _ _ body 0 1%positive g) as [[[o bi]|] g1] eqn:E;
    [|discriminate].
  injection H as <- _. cbn [fst snd].
  apply insertBreaks_gotoFree. eapply rewriteStatements_gotoFree, E.
Qed.

End WithVars.

Lemma makeCases_gotoFree (e : encoding) (endLabel : string) (chunks : list chunk) :
  forall i g cases g',
    makeCases e endLabel chunks i g = (Some cases, g') ->
    Forall (fun x => Forall (fun c => gotoFree c) (caseBody x)) cases.
Proof.
  induction chunks as [|c rest IH]; intros i g cases g' H.
  - cbn in H. injection H as <- _. constructor.
  - cbn [makeCases] in H.
    destruct (String.eqb (label c) endLabel); [eapply IH, H|].
    destruct (labelToStates e !! label c) as [chunkStates|]; [|discriminate].
    unfold bindOpt, bind, ret in H.
    destruct (rewriteChunk _ _ _ chunkStates (body c) g) as [[out|] g1] eqn:Ec;
      [|discriminate].
    destruct (makeCases e endLabel rest (S i) g1) as [[cases'|] g2] eqn:Er; [|discriminate].
    injection H as <- _. constructor.
    + cbn [caseBody]. eapply rewriteChunk_gotoFree, Ec.
    + eapply IH, Er.
Qed.

Lemma discriminant_gotoFree (vars : list string) : gotoFree (discriminant vars).
Proof.
  unfold discriminant. destruct vars as [|v vs]; [reflexivity|].
  assert (H : gotoFree (Identifier v)) by reflexivity. revert H.
  generalize (Identifier v) as acc. induction vs as [|x vs IH]; intros acc H; [exact H|].
  cbn [fold_left]. apply IH. unfold BinaryExpression, Identifier. goto_free.
Qed.

Lemma assemble_gotoFree (e : encoding) (functionDeclarations : list Node)
    (cases : list case) (initStateValues : list Z) (endState : Z) :
  Forall (fun c => gotoFree c) functionDeclarations ->
  Forall (fun x => Forall (fun c => gotoFree c) (caseBody x)) cases ->
  Forall (fun c => gotoFree c)
    (assemble e functionDeclarations cases initStateValues endState).
Proof.
  intros Hf Hc. unfold assemble. apply Forall_app. split.
  { apply Forall_rev, Hf. }
  pose proof (discriminant_gotoFree (stateVars e)) as Hd.
  constructor; [|constructor; [|constructor]].
  - unfold VariableDeclaration, Arr. apply gotoFree_node; [reflexivity|].
    constructor; [|constructor]. apply gotoFree_node; [reflexivity|].
    apply Forall_map. apply Forall_forall. intros [v i] _. reflexivity.
  - unfold WhileStatement, BlockStatement, Arr, LabeledStatement, SwitchStatement,
      BinaryExpression, Identifier, NumLit, Literal.
    goto_free.
    apply Forall_map. eapply List.Forall_impl; [|exact Hc].
    intros x Hx. unfold SwitchCase, NumLit, Literal, Arr. goto_free.
Qed.

Variable shuffle : list case -> Rand (list case).
Hypothesis shuffle_permutes : forall l g, Permutation (fst (shuffle l g)) l.
Variable lexicallyBound : bool.
Variable approve : Rand bool.
Variable redefined : bool.

(** C3.  When the exit callback of Control Flow Flattening has rewritten
    a block whose statements held no [GotoStatement] to begin with, no
    statement of the rewritten body holds one, at any depth: every goto
    of every chunk, nested or not, became a transition statement. *)
Theorem rewritten_body_has_no_goto (fuel : nat) (body body' : list Node) (g g' : RNG) :
  Forall (fun s => containsGoto s = false) body ->
  transform shuffle lexicallyBound approve redefined fuel body g
  = (Some (Rewritten body'), g') ->
  Forall (fun s => containsGoto s = false) body'.
Proof.
  intros Hbody H. unfold transform in H.
  destruct (length body <? 3)%nat; [discriminate|].
  destruct lexicallyBound; [discriminate|].
  unfold bind in H. destruct (approve g) as [approved g1].
  destruct approved; cbn [negb] in H; [|discriminate].
  destruct redefined; [discriminate|].
  unfold bindOpt, bind, ret in H.
  destruct (flattenBody _ _ true body None g1) as [[chunks|] g2]; [|discriminate].
  destruct (length (closeChunks chunks) <? 3)%nat; [discriminate|].
  destruct (encodeStates fuel _ g2) as [[e|] g3]; [|discriminate].
  destruct (labelToStates e !! _) as [initStateValues|]; [|discriminate].
  destruct (labelToStates e !! _) as [endStateValues|]; [|discriminate].
  destruct (makeCases e _ (closeChunks chunks) 0 g3) as [[cases|] g4] eqn:Ecases;
    [|discriminate].
  pose proof (shuffle_permutes cases g4) as Hperm.
  destruct (shuffle cases g4) as [shuffled g5]. cbn [fst] in Hperm.
  injection H as <- _.
  apply assemble_gotoFree.
  - apply Forall_forall. intros s Hs. apply list_elem_of_In, filter_In in Hs as [Hs _].
    rewrite Forall_forall in Hbody. apply Hbody, list_elem_of_In, Hs.
  - pose proof (makeCases_gotoFree _ _ _ _ _ _ _ Ecases) as Hc.
    rewrite Forall_forall in Hc |- *. intros x Hx. apply Hc.
    apply list_elem_of_In. eapply Permutation_in; [exact Hperm|].
    apply list_elem_of_In, Hx.
Qed.

End GotoFree.

Lemma rewritten_body_has_no_goto_witness :
  exists body' g',
    Assemble.transform CFFSamples.reverse false (Random.ret true) false 50
      CFFSamples.block Samples.rng_d = (Some (Assemble.Rewritten body'), g') /\
    Forall (fun s => Ast.containsGoto s = false) body'.
Proof.
  destruct (Assemble.transform CFFSamples.reverse false (Random.ret true) false 50
              CFFSamples.block Samples.rng_d) as [[[|body']|] g'] eqn:E.
  - vm_compute in E. discriminate.
  - exists body', g'. split; [reflexivity|].
    apply (rewritten_body_has_no_goto CFFSamples.reverse
             (fun l g => Permutation_sym (Permutation_rev l))
             false (Random.ret true) false 50 CFFSamples.block body' Samples.rng_d g').
    + repeat constructor.
    + exact E.
  - vm_compute in E. discriminate.
Defined.
(** *** Placeholders *)
Section PlaceholderFacts.
Import Random Placeholder Shape.

Lemma concat_digits (ds : list Z) :
  Forall (fun d => 0 <= d < 10) ds ->
  String.length (String.concat "" (map digit ds)) = length ds /\
  Forall (fun c => isDecimal c = true)
    (list_ascii_of_string (String.concat "" (map digit ds))).
Proof.
  induction 1 as [|d ds Hd _ [IHl IHf]]; [split; [reflexivity|constructor]|].
  assert (Hdig : isDecimal (ascii_of_nat (48 + Z.to_nat d)) = true).
  { assert (Z.to_nat d < 10)%nat as Hn by lia.
    destruct (Z.to_nat d) as [|[|[|[|[|[|[|[|[|[|n]]]]]]]]]]; try reflexivity; lia. }
  destruct ds as [|d' ds].
  - cbn. split; [reflexivity|]. constructor; [exact Hdig|constructor].
  - change (String.concat "" (map digit (d :: d' :: ds)))
      with (digit d ++ "" ++ String.concat "" (map digit (d' :: ds)))%string.
    change (digit d ++ "" ++ ?s)%string with (String (ascii_of_nat (48 + Z.to_nat d)) s).
    cbn [String.length list_ascii_of_string].
    split; [cbn [length] in *; lia|]. constructor; assumption.
Qed.

Lemma replicateM_pos {A} (n : nat) (f : Rand A) (g : RNG) :
  (forall g0, pos (snd (f g0)) = S (pos g0)) ->
  pos (snd (replicateM n f g)) = (pos g + n)%nat.
Proof.
  intros Hf. revert g. induction n as [|n IH]; intros g; cbn [replicateM].
  - cbn. lia.
  - unfold bind, ret. pose proof (Hf g) as H1. destruct (f g) as [a g1].
    specialize (IH g1). destruct (replicateM n f g1) as [l g2]. cbn [snd] in *. lia.
Qed.

(** X1.  A placeholder is [__p_] followed by exactly ten decimal
    digits, whatever the generator gives, and takes exactly ten draws. *)
Theorem placeholder_shape (g : RNG) :
  exists digits,
    fst (getPlaceholder g) = ("__p_" ++ digits)%string /\
    String.length digits = 10%nat /\
    Forall (fun c => isDecimal c = true) (list_ascii_of_string digits) /\
    pos (snd (getPlaceholder g)) = (pos g + 10)%nat.
Proof.
  unfold getPlaceholder, genRanHex, bind, ret.
  pose proof (replicateM_length 10 (random_below 10) g) as Hlen.
  pose proof (replicateM_Forall (fun d => 0 <= d < 10) 10 (random_below 10) g
                (fun g0 => random_below_range 10 g0 ltac:(lia))) as Hds.
  pose proof (replicateM_pos 10 (random_below 10) g (fun g0 => eq_refl)) as Hpos.
  destruct (replicateM 10 (random_below 10) g) as [ds g1]. cbn [fst snd] in *.
  destruct (concat_digits ds Hds) as [Hl Hf].
  exists (String.concat "" (map digit ds)).
  split; [reflexivity|]. split; [lia|]. split; assumption.
Qed.
End PlaceholderFacts.

(** *** Independent name generators *)
Section GeneratorFacts.
Import Random Identifiers Generator.
Variables reservedKeywords reservedIdentifiers : gset string.
Variable alphabeticalGenerator : Z -> string.
Variable resolveMode : Rand string.

Notation generateIdentifier :=
  (generateIdentifier reservedKeywords reservedIdentifiers alphabeticalGenerator resolveMode).
Notation generate :=
  (generate reservedKeywords reservedIdentifiers alphabeticalGenerator resolveMode).
Notation generateMany :=
  (generateMany reservedKeywords reservedIdentifiers alphabeticalGenerator resolveMode).

(** With its own counter a call leaves the obfuscator as it was. *)
Lemma generateIdentifier_independent (fuel : nat) (len count : Z) (o : obfuscator) (g : RNG) :
  count <> -1 ->
  snd (fst (generateIdentifier fuel len count o g)) = o /\
  (forall id, fst (fst (generateIdentifier fuel len count o g)) = Returned id -> id <> "").
Proof.
  intros Hc. unfold Identifiers.generateIdentifier, bind, ret.
  destruct ((if len =? -1 then getRandomInteger 6 8 else fun g => (len, g)) g) as [len' g1].
  replace (count =? -1) with false by (symmetry; apply Z.eqb_neq; exact Hc).
  destruct (attempt _ _ _ _ _ _ _ _ g1) as [[id|m|] g2]; cbn [fst snd]; try (split; [reflexivity|discriminate]).
  destruct (String.eqb id "") eqn:E; cbn [fst snd]; split; try reflexivity; try discriminate.
  intros id' [= <-]. apply String.eqb_neq. exact E.
Qed.

Lemma generate_spec (fuel : nat) :
  forall (gen gen' : generator) (o o' : obfuscator) (g g' : RNG) (id : string),
    0 <= count gen ->
    generate fuel gen o g = (Returned id, gen', o', g') ->
    id ∉ identifiers gen /\ id <> "" /\
    identifiers gen' = {[id]} ∪ identifiers gen /\
    count gen < count gen' /\ o' = o.
Proof.
  induction fuel as [|fuel IH]; intros gen gen' o o' g g' id Hc H; [discriminate|].
  cbn [Generator.generate] in H. unfold bind, ret in H. cbn [count identifiers] in H.
  pose proof (generateIdentifier_independent fuel (-1) (count gen + 1) o g ltac:(lia))
    as [Ho Hne].
  destruct (generateIdentifier fuel (-1) (count gen + 1) o g) as [[r o1] g1].
  cbn [fst snd] in *. subst o1.
  destruct r as [retValue|m|]; try discriminate.
  destruct (bool_decide (retValue ∈ identifiers gen)) eqn:Ein.
  - apply IH in H; [|cbn; lia]. cbn [count identifiers] in H.
    destruct H as (H1 & H2 & H3 & H4 & H5). repeat split; try assumption. lia.
  - injection H as <- <- <- <-. apply bool_decide_eq_false in Ein.
    cbn [count identifiers]. repeat split; try assumption; try lia.
    apply Hne. reflexivity.
Qed.

(** X2.  The names that one generator returns, call after
    call, are pairwise distinct and non-empty, none was in its set before,
    and all are in its set afterwards; the obfuscator's counter and set are
    left as they were, since every call passes its own counter. *)
Theorem generator_names_are_distinct (fuel n : nat) :
  forall (gen gen' : generator) (o o' : obfuscator) (g g' : RNG) (ids : list string),
    0 <= count gen ->
    generateMany fuel n gen o g = (Returned ids, gen', o', g') ->
    length ids = n /\ NoDup ids /\
    Forall (fun id => id ∉ identifiers gen /\ id <> "") ids /\
    identifiers gen' = list_to_set ids ∪ identifiers gen /\
    o' = o.
Proof.
  induction n as [|n IH]; intros gen gen' o o' g g' ids Hc H; cbn [Generator.generateMany] in H.
  - injection H as <- <- <- <-. split; [reflexivity|]. split; [constructor|].
    split; [constructor|]. split; [set_solver|reflexivity].
  - unfold bind, ret in H.
    destruct (generate fuel gen o g) as [[[r gen1] o1] g1] eqn:E1.
    destruct r as [id|m|]; try discriminate.
    apply generate_spec in E1 as (Hfresh & Hne & Hset & Hcount & ->); [|exact Hc].
    destruct (generateMany fuel n gen1 o g1) as [[[rs gen2] o2] g2] eqn:E2.
    destruct rs as [rest|m|]; try discriminate.
    injection H as <- <- <- <-.
    apply IH in E2 as (Hlen & Hnd & Hall & Hset2 & ->); [|lia].
    split; [cbn; lia|]. split.
    { constructor; [|exact Hnd]. intros Hin.
      rewrite Forall_forall in Hall. apply Hall in Hin as [Hin _].
      apply Hin. rewrite Hset. set_solver. }
    split.
    { constructor; [split; assumption|].
      eapply List.Forall_impl; [|exact Hall]. intros x [Hx Hx']. split; [|exact Hx'].
      rewrite Hset in Hx. set_solver. }
    split; [|reflexivity]. rewrite Hset2, Hset. set_solver.
Qed.

Lemma numbered_inj (a b : Z) : numbered a = numbered b -> a = b.
Proof.
  unfold numbered. intros H. apply (inj (String.app "var_")) in H.
  apply (inj pretty) in H. exact H.
Qed.

Lemma generateIdentifier_number (fuel : nat) (count : Z) (o : obfuscator) (g : RNG) :
  count <> -1 ->
  exists g',
    Identifiers.generateIdentifier reservedKeywords reservedIdentifiers alphabeticalGenerator
      (ret "number") (S fuel) (-1) count o g = (Returned (numbered count), o, g').
Proof.
  intros Hc. unfold Identifiers.generateIdentifier, bind, ret.
  replace (-1 =? -1) with true by reflexivity.
  destruct (getRandomInteger 6 8 g) as [len g1].
  replace (count =? -1) with false by (symmetry; apply Z.eqb_neq; exact Hc).
  cbn [Identifiers.attempt]. unfold bind, ret.
  unfold byMode. cbn [String.eqb Ascii.eqb Bool.eqb]. unfold ret.
  replace (bool_decide (("var_" ++ pretty count)%string ∈ (∅ : gset string))) with false
    by (symmetry; apply bool_decide_eq_false; set_solver).
  exists g1. reflexivity.
Qed.

Lemma generate_number (fuel : nat) (gen : generator) (o : obfuscator) (g : RNG) :
  0 <= count gen ->
  (forall id, id ∈ identifiers gen -> exists k, 1 <= k <= count gen /\ id = numbered k) ->
  exists g',
    Generator.generate reservedKeywords reservedIdentifiers alphabeticalGenerator
      (ret "number") (S (S fuel)) gen o g
    = (Returned (numbered (count gen + 1)),
       mkGenerator (count gen + 1) ({[numbered (count gen + 1)]} ∪ identifiers gen), o, g').
Proof.
  intros Hc Hinv. cbn [Generator.generate]. unfold bind. cbn [count identifiers].
  destruct (generateIdentifier_number fuel (count gen + 1) o g ltac:(lia)) as [g' ->].
  cbn [fst snd].
  replace (bool_decide (numbered (count gen + 1) ∈ identifiers gen)) with false.
  - exists g'. reflexivity.
  - symmetry. apply bool_decide_eq_false. intros Hin.
    apply Hinv in Hin as (k & Hk & E). apply numbered_inj in E. lia.
Qed.

(** X3.  In the [number] mode a new generator returns
    [var_1], [var_2], ..., [var_n] for its first [n] calls, each at the
    first pass through its loop, whatever the obfuscator and the draws. *)
Theorem number_mode_counts_up (fuel n : nat) (o : obfuscator) (g : RNG) :
  exists gen' g',
    Generator.generateMany reservedKeywords reservedIdentifiers alphabeticalGenerator
      (ret "number") (S (S fuel)) n fresh o g
    = (Returned (map (fun k => numbered (Z.of_nat k)) (seq 1 n)), gen', o, g').
Proof.
  assert (forall n gen g,
             0 <= count gen ->
             (forall id, id ∈ identifiers gen ->
                         exists k, 1 <= k <= count gen /\ id = numbered k) ->
             exists gen' g',
               Generator.generateMany reservedKeywords reservedIdentifiers
                 alphabeticalGenerator (ret "number") (S (S fuel)) n gen o g
               = (Returned (map (fun k => numbered (count gen + Z.of_nat k)) (seq 1 n)),
                  gen', o, g')) as Hgen.
  { clear n g. induction n as [|n IH]; intros gen g Hc Hinv.
    - exists gen, g. reflexivity.
    - cbn [Generator.generateMany]. unfold bind.
      destruct (generate_number fuel gen o g Hc Hinv) as [g1 ->].
      edestruct (IH (mkGenerator (count gen + 1)
                       ({[numbered (count gen + 1)]} ∪ identifiers gen)) g1)
        as (gen' & g' & ->).
      + cbn. lia.
      + cbn [count identifiers]. intros id Hin.
        apply elem_of_union in Hin as [Hin|Hin].
        * apply elem_of_singleton in Hin. exists (count gen + 1). split; [lia|exact Hin].
        * apply Hinv in Hin as (k & Hk & E). exists k. split; [lia|exact E].
      + exists gen', g'. unfold ret. cbn [count].
        replace (map (fun k => numbered (count gen + Z.of_nat k)) (seq 1 (S n)))
          with (numbered (count gen + 1)
                  :: map (fun k => numbered (count gen + 1 + Z.of_nat k)) (seq 1 n));
          [reflexivity|].
        cbn [seq map]. f_equal.
        rewrite <- (seq_shift n 1), !map_map. apply map_ext. intros k. f_equal. lia. }
  destruct (Hgen n fresh g ltac:(cbn; lia) ltac:(cbn; set_solver)) as (gen' & g' & H).
  exists gen', g'. rewrite H. reflexivity.
Qed.

End GeneratorFacts.

(** *** Names of the randomized and hexadecimal modes *)
Section ShapeFacts.
Import Random Identifiers Shape.
Variables reservedKeywords reservedIdentifiers : gset string.
Variable alphabeticalGenerator : Z -> string.

Lemma choice_In {A} (d : A) (arr : list A) (g : RNG) :
  arr <> [] -> In (fst (choice d arr g)) arr.
Proof.
  intros Hne. unfold choice.
  pose proof (random_below_range (Z.of_nat (length arr)) g) as Hr.
  destruct (random_below (Z.of_nat (length arr)) g) as [i g1]. cbn [fst] in *.
  apply nth_In. destruct arr; [congruence|]. cbn [length] in *. lia.
Qed.

Lemma single_append (p : ascii -> bool) (s rest : string) :
  single p s = true ->
  exists c, p c = true /\ (s ++ rest)%string = String c rest.
Proof.
  destruct s as [|c [|c' s]]; try discriminate. intros H. exists c. split; [exact H|reflexivity].
Qed.

Lemma randomizedFrom_rest (n : nat) (g : RNG) :
  let s := fst (randomizedFrom n false g) in
  String.length s = n /\ forallb identPart (list_ascii_of_string s) = true.
Proof.
  revert g. induction n as [|n IH]; intros g; cbn [randomizedFrom]; [split; reflexivity|].
  unfold bind, ret.
  pose proof (choice_In "" combined g ltac:(discriminate)) as Hc.
  destruct (choice "" combined g) as [c g1]. cbn [fst] in Hc.
  specialize (IH g1). destruct (randomizedFrom n false g1) as [rest g2]. cbn [fst] in *.
  assert (single identPart c = true) as Hs.
  { assert (forallb (single identPart) combined = true) as Hall by (vm_compute; reflexivity).
    rewrite forallb_forall in Hall. apply Hall, Hc. }
  destruct (single_append _ _ rest Hs) as (a & Ha & ->).
  cbn [String.length list_ascii_of_string forallb]. destruct IH as [IH1 IH2].
  split; [lia|]. rewrite Ha, IH2. reflexivity.
Qed.

Lemma randomizedFrom_first (n : nat) (g : RNG) :
  let s := fst (randomizedFrom (S n) true g) in
  String.length s = S n /\ wellFormed s = true.
Proof.
  cbn [randomizedFrom]. unfold bind, ret.
  pose proof (choice_In "" characters g ltac:(discriminate)) as Hc.
  destruct (choice "" characters g) as [c g1]. cbn [fst] in Hc.
  pose proof (randomizedFrom_rest n g1) as IH.
  destruct (randomizedFrom n false g1) as [rest g2]. cbn [fst] in *.
  assert (single identStart c = true) as Hs.
  { assert (forallb (single identStart) characters = true) as Hall by (vm_compute; reflexivity).
    rewrite forallb_forall in Hall. apply Hall, Hc. }
  destruct (single_append _ _ rest Hs) as (a & Ha & ->).
  cbn [String.length wellFormed]. destruct IH as [IH1 IH2].
  split; [lia|]. rewrite Ha, IH2. reflexivity.
Qed.

Lemma hexDigits (ds : list Z) :
  Forall (fun d => 0 <= d < 16) ds ->
  let s := String.concat "" (map hexDigitUpper ds) in
  String.length s = length ds /\ forallb identPart (list_ascii_of_string s) = true.
Proof.
  induction 1 as [|d ds Hd _ [IHl IHf]]; [split; reflexivity|].
  assert (Hs : single identPart (hexDigitUpper d) = true).
  { unfold hexDigitUpper. assert (Z.to_nat d < 16)%nat as Hn by lia.
    revert Hn. generalize (Z.to_nat d). intros k Hk.
    do 16 (destruct k as [|k]; [reflexivity|]). lia. }
  destruct ds as [|d' ds].
  - cbn [map String.concat]. destruct (single_append _ _ "" Hs) as (a & Ha & E).
    destruct (hexDigitUpper d) as [|c [|? ?]]; try discriminate.
    cbn in Hs |- *. rewrite Hs. split; reflexivity.
  - change (String.concat "" (map hexDigitUpper (d :: d' :: ds)))
      with (hexDigitUpper d ++ "" ++ String.concat "" (map hexDigitUpper (d' :: ds)))%string.
    change ("" ++ ?s)%string with s.
    destruct (single_append _ _ (String.concat "" (map hexDigitUpper (d' :: ds))) Hs)
      as (a & Ha & ->).
    cbn [String.length list_ascii_of_string forallb]. cbn zeta in IHl, IHf.
    split; [cbn [length] in *; lia|]. rewrite Ha, IHf. reflexivity.
Qed.

(** X4.  For a positive length, the [randomized] mode returns
    a name of exactly that many characters that starts with a letter or
    an underscore and goes on with letters, digits and underscores; the
    [hexadecimal] mode returns [_0x] followed by that many characters,
    letters and digits again, so that the whole is an identifier too.
    Neither touches the counter. *)
Theorem random_names_are_well_formed (fuel : nat) (len count : Z) (g : RNG) :
  0 < len ->
  (exists s g',
      byMode reservedKeywords reservedIdentifiers alphabeticalGenerator
        fuel "randomized" len count g = (Returned (s, count), g') /\
      String.length s = Z.to_nat len /\ wellFormed s = true) /\
  (exists digits g',
      byMode reservedKeywords reservedIdentifiers alphabeticalGenerator
        fuel "hexadecimal" len count g = (Returned (("_0x" ++ digits)%string, count), g') /\
      String.length digits = Z.to_nat len /\ wellFormed ("_0x" ++ digits) = true).
Proof.
  intros Hlen. split.
  - unfold byMode. cbn [String.eqb Ascii.eqb Bool.eqb]. unfold bind, ret.
    destruct (Z.to_nat len) as [|n] eqn:En; [lia|].
    pose proof (randomizedFrom_first n g) as H.
    destruct (randomizedFrom (S n) true g) as [s g1]. cbn [fst] in H.
    exists s, g1. split; [reflexivity|exact H].
  - unfold byMode. cbn [String.eqb Ascii.eqb Bool.eqb]. unfold bind, ret.
    pose proof (replicateM_length (Z.to_nat len) (random_below 16) g) as Hl.
    pose proof (replicateM_Forall (fun d => 0 <= d < 16) (Z.to_nat len) (random_below 16) g
                  (fun g0 => random_below_range 16 g0 ltac:(lia))) as Hds.
    destruct (replicateM (Z.to_nat len) (random_below 16) g) as [ds g1]. cbn [fst] in *.
    destruct (hexDigits ds Hds) as [H1 H2].
    exists (String.concat "" (map hexDigitUpper ds)), g1.
    split; [reflexivity|]. split; [lia|].
    change ("_0x" ++ ?s)%string with (String "_" (String "0" (String "x" s))).
    cbn [wellFormed list_ascii_of_string forallb]. rewrite H2. reflexivity.
Qed.

End ShapeFacts.

(** *** Replacing a node object in place *)
Section ObjectFacts.
Import Objects.

(** X5.  [replace(node1, node2)] on two different objects leaves
    both with the same properties: those of [node2], its own comments
    (an empty array when it had none) and the [_transform] mark; nothing
    of what [node1] held is kept, its comments included, and no other object
    changes.  On one and the same object it leaves only an empty comment
    array and the mark. *)
Theorem replace_copies_the_new_node (className : string) (l1 l2 : nat) (h : store)
    (node1 node2 : object) (comments2 : list string) :
  h !! l1 = Some node1 ->
  h !! l2 = Some node2 ->
  commentsOf node2 = Some comments2 ->
  let marked (c : list string) (n : object) : object :=
    <["_transform" := Text className]> (<["leadingComments" := Comments c]> n) in
  exists h',
    replace className l1 l2 h = Some h' /\
    (forall l, l <> l1 -> l <> l2 -> h' !! l = h !! l) /\
    (l1 <> l2 ->
       h' !! l1 = Some (marked comments2 node2) /\
       h' !! l2 = Some (marked comments2 node2)) /\
    (l1 = l2 -> h' !! l1 = Some (marked [] ∅)).
Proof.
  intros H1 H2 Hc marked. unfold replace, clear, objectAssign.
  destruct (decide (l1 = l2)) as [->|Hne].
  - rewrite !lookup_alter_eq, H2. cbn [fmap option_fmap option_map].
    replace (commentsOf ∅) with (Some (@nil string)) by reflexivity.
    cbn [app]. rewrite !lookup_alter_eq, H2.
    cbn [fmap option_fmap option_map].
    eexists. split; [reflexivity|]. split.
    + intros l Hl _. rewrite lookup_insert_ne by congruence.
      rewrite !lookup_alter_ne by congruence. reflexivity.
    + split; [congruence|]. intros _. rewrite lookup_insert_eq.
      reflexivity.
  - rewrite lookup_alter_eq, H1. rewrite lookup_alter_ne, H2 by congruence.
    cbn [fmap option_fmap option_map].
    replace (commentsOf ∅) with (Some (@nil string)) by reflexivity. rewrite Hc.
    cbn [app].
    rewrite lookup_alter_eq, !lookup_alter_ne, lookup_alter_eq, H1 by congruence.
    rewrite lookup_alter_ne, !lookup_alter_eq, lookup_alter_ne, H2 by congruence.
    cbn [fmap option_fmap option_map].
    eexists. split; [reflexivity|]. split.
    + intros l Hl Hl'. rewrite lookup_insert_ne by congruence.
      rewrite !lookup_alter_ne by congruence. reflexivity.
    + split; [|congruence]. intros _. split.
      * rewrite lookup_insert_eq. f_equal. apply map_eq. intros k.
        rewrite lookup_union. unfold marked.
        destruct (decide (k = "_transform")) as [->|Hk].
        { rewrite !lookup_insert_eq. reflexivity. }
        rewrite !(lookup_insert_ne _ "_transform") by congruence.
        rewrite lookup_empty. destruct (_ !! k); reflexivity.
      * rewrite lookup_insert_ne by congruence.
        rewrite lookup_alter_ne, !lookup_alter_eq, lookup_alter_ne, H2 by congruence.
        reflexivity.
Qed.

End ObjectFacts.

(** *** Control Flow Flattening: breaks after rewritten jumps *)
Section BreakFacts.
Import Random Ast Chunking Assemble BreakSpec.
Local Open Scope nat_scope.

Lemma leb_single_digit (x y : nat) :
  x < 10 -> y < 10 -> String.leb (pretty x) (pretty y) = (x <=? y).
Proof.
  intros Hx Hy.
  do 10 (destruct x as [|x]; [do 10 (destruct y as [|y]; [vm_compute; reflexivity|]); lia|]).
  lia.
Qed.

Lemma sortAsStrings_sorted (l : list nat) :
  StronglySorted lt l -> Forall (fun i => i < 10) l -> sortAsStrings l = l.
Proof.
  induction 1 as [|x l Hs IH Hx]; intros Hd; [reflexivity|].
  inversion Hd as [|? ? Hx10 Hl]; subst.
  cbn [sortAsStrings fold_right]. fold (sortAsStrings l). rewrite (IH Hl).
  destruct l as [|y l]; [reflexivity|]. cbn [insertSorted].
  inversion Hx as [|? ? Hxy _]; subst. inversion Hl as [|? ? Hy10 _]; subst.
  rewrite leb_single_digit by assumption.
  replace (x <=? y) with true by (symmetry; apply Nat.leb_le; lia). reflexivity.
Qed.

Lemma breaksAfter_skip (x : Node) (i : nat) (rest : list nat) (body : list Node) (k : nat) :
  i < k -> breaksAfter x (i :: rest) k body = breaksAfter x rest k body.
Proof.
  revert k. induction body as [|s body IH]; intros k Hk; [reflexivity|].
  cbn [breaksAfter existsb].
  replace (k =? i) with false by (symmetry; apply Nat.eqb_neq; lia).
  cbn [orb]. rewrite IH by lia. reflexivity.
Qed.

Lemma existsb_above (k : nat) (rest : list nat) :
  Forall (fun j => k < j) rest -> existsb (Nat.eqb k) rest = false.
Proof.
  induction 1 as [|j rest Hj _ IH]; [reflexivity|]. cbn [existsb].
  rewrite IH. replace (k =? j) with false by (symmetry; apply Nat.eqb_neq; lia).
  reflexivity.
Qed.

Lemma splice_breaksAfter (x : Node) (rest : list nat) (body : list Node) :
  forall k i,
    k <= i < k + length body ->
    Forall (fun j => i < j) rest ->
    splice (i - k + 1) x (breaksAfter x rest k body) = breaksAfter x (i :: rest) k body.
Proof.
  induction body as [|s body IH]; intros k i Hi Hrest; [cbn [length] in Hi; lia|].
  cbn [breaksAfter existsb].
  assert (existsb (Nat.eqb k) rest = false) as ->.
  { apply existsb_above. eapply List.Forall_impl; [|exact Hrest]. cbn. intros; lia. }
  cbn [app]. destruct (Nat.eq_dec i k) as [->|Hne].
  - rewrite Nat.eqb_refl. cbn [orb app]. replace (k - k + 1) with 1 by lia.
    unfold splice. cbn [firstn skipn app]. rewrite breaksAfter_skip by lia. reflexivity.
  - replace (k =? i) with false by (symmetry; apply Nat.eqb_neq; lia). cbn [orb app].
    replace (i - k + 1) with (S (i - S k + 1)) by lia.
    unfold splice. cbn [firstn skipn app]. f_equal.
    apply (IH (S k) i); [cbn [length] in Hi; lia|exact Hrest].
Qed.

Lemma insertBreaks_sorted (switchLabel : string) (idxs : list nat) (body : list Node) :
  StronglySorted lt idxs ->
  Forall (fun i => i < 10) idxs ->
  Forall (fun i => i < length body) idxs ->
  insertBreaks switchLabel body idxs = breaksAfter (breakOut switchLabel) idxs 0 body.
Proof.
  intros Hs Hd Hb. unfold insertBreaks. rewrite (sortAsStrings_sorted _ Hs Hd).
  clear Hd. induction Hs as [|i rest Hs IH Hi].
  - cbn [rev fold_left]. clear Hb. generalize 0.
    induction body as [|s body IHb]; intros k; [reflexivity|].
    cbn [breaksAfter existsb app]. rewrite <- IHb. reflexivity.
  - inversion Hb as [|? ? Hib Hrb]; subst. cbn [rev]. rewrite fold_left_app.
    cbn [fold_left]. rewrite (IH Hrb).
    rewrite <- (splice_breaksAfter _ rest body 0 i); [|lia|exact Hi].
    replace (i - 0 + 1) with (i + 1) by lia. reflexivity.
Qed.

Section WithEncoding.
Variable stateVars : list string.
Variable labelToStates : gmap string (list Z).
Variable switchLabel : string.
Variable chunkStates : list Z.

Lemma rewriteStatements_indices (stmts : list Node) :
  forall stmtIndex made g out idxs g',
    rewriteStatements stateVars labelToStates switchLabel chunkStates stmts stmtIndex made g
    = (Some (out, idxs), g') ->
    length out = length stmts /\
    StronglySorted lt idxs /\
    Forall (fun i => stmtIndex <= i < stmtIndex + length stmts) idxs.
Proof.
  induction stmts as [|stmt rest IH]; intros stmtIndex made g out idxs g' H;
    cbn [rewriteStatements] in H.
  - injection H as <- <- _. repeat split; constructor.
  - unfold bindOpt, bind, ret in H.
    destruct (rewriteNode _ _ _ _ false false stmt made g) as [[[v made1]|] g1]; [|discriminate].
    cbn [fst snd] in H.
    destruct (rewriteStatements _ _ _ _ rest (S stmtIndex) made1 g1) as [[[out' idxs']|] g2] eqn:E;
      [|discriminate].
    apply IH in E as (Hlen & Hs & Hr). cbn [fst snd] in H. injection H as <- <- _.
    split; [cbn [length]; lia|].
    destruct (negb (breaks v =? 0)).
    + split.
      * constructor; [exact Hs|]. eapply List.Forall_impl; [|exact Hr]. cbn. intros; lia.
      * constructor; [cbn [length]; lia|].
        eapply List.Forall_impl; [|exact Hr]. cbn [length]. intros; lia.
    + split; [exact Hs|]. eapply List.Forall_impl; [|exact Hr]. cbn [length]. intros; lia.
Qed.

(** X6.  In a chunk of at most ten statements, the [break]s that
    [sort], [reverse] and [splice] insert stand right after the statements
    whose numbers were recorded, one each, and the statements keep their
    order.  (Without a comparator [sort] orders the numbers as strings,
    which is their order only below ten.) *)
Theorem breaks_follow_their_statements (body out : list Node) (idxs : list nat)
    (g g' : RNG) :
  length body <= 10 ->
  rewriteStatements stateVars labelToStates switchLabel chunkStates body 0 1%positive g
  = (Some (out, idxs), g') ->
  rewriteChunk stateVars labelToStates switchLabel chunkStates body g
  = (Some (breaksAfter (breakOut switchLabel) idxs 0 out), g').
Proof.
  intros Hlen H. unfold rewriteChunk, bindOpt, bind, ret. rewrite H. cbn [fst snd].
  apply rewriteStatements_indices in H as (Hl & Hs & Hr).
  rewrite insertBreaks_sorted; [reflexivity|exact Hs| |].
  - eapply List.Forall_impl; [|exact Hr]. cbn. intros; lia.
  - eapply List.Forall_impl; [|exact Hr]. cbn. intros; lia.
Qed.

End WithEncoding.
End BreakFacts.

(** *** Control Flow Flattening: what the walk over a chunk leaves alone *)
Section NestedFacts.
Import Random Ast JSNum Placeholder StateEncoding Chunking Assemble Eval Walk.

Variable stateVars : list string.
Variable labelToStates : gmap string (list Z).
Variable switchLabel : string.
Variable chunkStates : list Z.

Notation rewriteNode := (rewriteNode stateVars labelToStates switchLabel chunkStates).
Notation leave := (leave stateVars labelToStates switchLabel chunkStates).


Lemma kept_nodes (cs : list Node) :
  map node (map kept cs) = cs /\ pendingBreaks (map kept cs) = 0%nat /\
  withBreaks switchLabel (map kept cs) = cs.
Proof.
  induction cs as [|c cs (IH1 & IH2 & IH3)]; [repeat split|].
  cbn [map node kept pendingBreaks fold_right breaks withBreaks flat_map copies repeat app].
  fold (pendingBreaks (map kept cs)). fold (withBreaks switchLabel (map kept cs)).
  rewrite IH1, IH2, IH3. repeat split.
Qed.

Lemma leave_kept (inBlock : bool) (k : Ty.kind) (cs : list Node) (g : RNG) :
  isGoto (Nd k []) = false ->
  leave inBlock k (map kept cs) g = (Some (kept (Nd k cs)), g).
Proof.
  intros Hk. destruct (kept_nodes cs) as (H1 & H2 & H3).
  assert (keyReplaced k (map kept cs) = k) as Hkey.
  { unfold keyReplaced. destruct cs; reflexivity. }
  unfold Assemble.leave, ret.
  destruct k; try discriminate; rewrite ?Hkey, ?H1, ?H2, ?H3; try reflexivity.
  destruct inBlock; rewrite ?H1, ?H2, ?H3; reflexivity.
Qed.

Lemma eachChild_kept
    (visit : Node -> positive -> Rand (option (visited * positive))) (cs : list Node)
    (made : positive) :
  Forall (fun c => forall g, exists g', visit c made g = (Some (kept c, made), g')) cs ->
  forall g, exists g', eachChild visit cs made g = (Some (map kept cs, made), g').
Proof.
  induction 1 as [|c cs Hc _ IH]; intros g; cbn [eachChild map].
  - exists g. reflexivity.
  - unfold bindOpt, bind, ret. destruct (Hc g) as [g1 ->]. cbn [fst snd].
    destruct (IH g1) as [g2 ->]. exists g2. reflexivity.
Qed.

(** X7.  Below a function of the chunk the walk changes nothing:
    a subtree without goto comes back as it was, no literal replaced, no
    break pending and the counter of replaced literals unchanged, whatever
    the draws. *)
Theorem nested_functions_are_untouched (n : Node) :
  forall (inBlock : bool) (made : positive) (g : RNG),
    containsGoto n = false ->
    exists g',
      rewriteNode true inBlock n made g = (Some (mkVisited n 0 false, made), g').
Proof.
  induction n as [k cs IH] using Node_rect_Forall. intros inBlock made g Hfree.
  apply gotoFree_Nd in Hfree as [Hk Hcs].
  cbn [Assemble.rewriteNode]. cbn [orb].
  assert (Hchildren : forall g0, exists g',
             eachChild (rewriteNode true (isBlock (Nd k cs))) cs made g0
             = (Some (map kept cs, made), g')).
  { apply eachChild_kept. rewrite Forall_forall in IH, Hcs |- *.
    intros c Hc g0. apply IH; [exact Hc|]. apply Hcs, Hc. }
  assert (Hdescend : forall g0, exists g',
            bindOpt (eachChild (rewriteNode true (isBlock (Nd k cs))) cs made)
              (fun r => bindOpt (leave inBlock k (fst r)) (fun v => ret (Some (v, snd r))))
              g0 = (Some (kept (Nd k cs), made), g')).
  { intros g0. unfold bindOpt, bind, ret. destruct (Hchildren g0) as [g1 ->].
    cbn [fst snd]. rewrite leave_kept by exact Hk. exists g1. reflexivity. }
  destruct (eligibleLiteral k) as [value|]; [|apply Hdescend].
  unfold bind. destruct (Math_random g) as [u g1].
  rewrite andb_false_r. apply Hdescend.
Qed.

(** X8.  An integer literal that the walk visits keeps its value:
    whether it is replaced by an expression over the state variables or
    left alone, what stands in its place evaluates to the same number and
    changes no variable, wherever the state variables hold the vector of the
    chunk; it is only replaced outside functions and below 100000 in
    magnitude, and the counter then goes up by one. *)
Theorem obscured_literal_keeps_its_value (z : Z) (inFunction inBlock : bool)
    (made made' : positive) (g g' : RNG) (v : visited) (rho : env) :
  (0 < length stateVars)%nat ->
  holds stateVars chunkStates rho ->
  rewriteNode inFunction inBlock (NumLit z) made g = (Some (v, made'), g') ->
  eval (node v) rho = Some (VNum z, rho) /\ breaks v = 0%nat /\
  (replacedLiteral v = true -> made' = (made + 1)%positive /\ inFunction = false /\ Z.abs z < 100000).
Proof.
  intros Hpos Hh H. unfold NumLit, Literal in H. cbn [Assemble.rewriteNode eachChild] in H.
  assert (Hdescend : forall g0,
            bindOpt (ret (Some ([], made)))
              (fun r : list visited * positive =>
                 bindOpt (leave inBlock (Ty.Literal (LNum z)) (fst r))
                   (fun v => ret (Some (v, snd r))))
              g0 = (Some (v, made'), g') ->
            eval (node v) rho = Some (VNum z, rho) /\ breaks v = 0%nat /\
            (replacedLiteral v = true ->
             made' = (made + 1)%positive /\ inFunction = false /\ Z.abs z < 100000)).
  { intros g0 Hd. unfold bindOpt, bind, ret in Hd. cbn in Hd.
    injection Hd as <- <- <-. cbn. repeat split; discriminate. }
  cbn [eligibleLiteral] in H.
  destruct (Z.abs z <? 100000) eqn:Ez; [|exact (Hdescend g H)].
  unfold bind in H. destruct (Math_random g) as [u g1].
  destruct (Qlt_bool u (4 # made) && negb inFunction)%bool eqn:Ec; [|exact (Hdescend g1 H)].
  unfold bindOpt, bind, ret in H. cbn [fst snd] in H.
  pose proof (numberLiteral_eval stateVars Hpos z 0 chunkStates g1 rho Hh) as He.
  destruct (numberLiteral stateVars z 0 chunkStates g1) as [e g2]. cbn [fst] in He.
  injection H as <- <- <-. cbn [node breaks replacedLiteral].
  split; [exact He|]. split; [reflexivity|]. intros _.
  apply andb_true_iff in Ec as [_ Ec]. apply negb_true_iff in Ec.
  split; [reflexivity|]. split; [exact Ec|]. apply Z.ltb_lt. exact Ez.
Qed.

End NestedFacts.
(** *** Control Flow Flattening: every jump leads to a chunk *)
Section TargetFacts.
Import Random Ast JSNum Placeholder Chunking Targets.

Tactic Notation "sets" "by" ne_hyp_list(Hs) := (clear - Hs; set_solver).

Lemma union_list_app_gset (l1 l2 : list (gset string)) :
  ⋃ (l1 ++ l2) = ⋃ l1 ∪ ⋃ l2.
Proof. induction l1 as [|x l1 IH]; cbn; [set_solver|]. rewrite IH. set_solver. Qed.

Lemma targetsOf_app (l1 l2 : list Node) :
  targetsOf (l1 ++ l2) = targetsOf l1 ∪ targetsOf l2.
Proof. unfold targetsOf. rewrite map_app. apply union_list_app_gset. Qed.

Lemma targetsOf_cons (s : Node) (l : list Node) :
  targetsOf (s :: l) = gotoTargets s ∪ targetsOf l.
Proof. reflexivity. Qed.

Lemma targetsOf_nil : targetsOf [] = ∅.
Proof. reflexivity. Qed.

Lemma chunkTargets_app (l1 l2 : list chunk) :
  chunkTargets (l1 ++ l2) = chunkTargets l1 ∪ chunkTargets l2.
Proof. unfold chunkTargets. rewrite map_app. apply union_list_app_gset. Qed.

Lemma chunkTargets_cons (c : chunk) (l : list chunk) :
  chunkTargets (c :: l) = targetsOf (body c) ∪ chunkTargets l.
Proof. reflexivity. Qed.

Lemma chunkLabels_app (l1 l2 : list chunk) :
  chunkLabels (l1 ++ l2) = chunkLabels l1 ∪ chunkLabels l2.
Proof. unfold chunkLabels. rewrite map_app, list_to_set_app_L. reflexivity. Qed.

Lemma chunkLabels_cons (c : chunk) (l : list chunk) :
  chunkLabels (c :: l) = {[ label c ]} ∪ chunkLabels l.
Proof. reflexivity. Qed.

Lemma gotoTargets_Nd (k : Ty.kind) (cs : list Node) :
  gotoTargets (Nd k cs)
  = (match k with Ty.GotoStatement l => {[ l ]} | _ => ∅ end) ∪ targetsOf cs.
Proof. reflexivity. Qed.

Lemma targetsOf_In (c : Node) (l : list Node) :
  In c l -> gotoTargets c ⊆ targetsOf l.
Proof.
  intros H. induction l as [|c' l IH]; [destruct H|]. rewrite targetsOf_cons.
  destruct H as [->|H]; [set_solver|]. specialize (IH H). set_solver.
Qed.

Lemma targetsOf_children (k : Ty.kind) (cs : list Node) :
  targetsOf cs ⊆ gotoTargets (Nd k cs).
Proof. rewrite gotoTargets_Nd. set_solver. Qed.

Lemma gotoTargets_child (k : Ty.kind) (cs : list Node) (c : Node) :
  In c cs -> gotoTargets c ⊆ gotoTargets (Nd k cs).
Proof.
  intros H. pose proof (targetsOf_In c cs H). pose proof (targetsOf_children k cs).
  set_solver.
Qed.

Lemma gotoTargets_goto (l : string) : gotoTargets (GotoStatement l) = {[ l ]}.
Proof. cbn. set_solver. Qed.

Lemma gotoFree_no_targets (n : Node) : containsGoto n = false -> gotoTargets n = ∅.
Proof.
  induction n as [k cs IH] using Node_rect_Forall. intros H.
  apply gotoFree_Nd in H as [Hk Hcs]. rewrite gotoTargets_Nd.
  assert (targetsOf cs = ∅) as ->.
  { induction cs as [|c cs IHcs]; [reflexivity|]. rewrite targetsOf_cons.
    inversion IH; inversion Hcs; subst. rewrite IHcs by assumption.
    rewrite H1 by assumption. set_solver. }
  destruct k; try discriminate; set_solver.
Qed.

Lemma replaceJumps_targets (lbl afterPath updatePath : string) (n n' : Node) :
  replaceJumps lbl afterPath updatePath n = Some n' ->
  gotoTargets n' ⊆ gotoTargets n ∪ {[ afterPath; updatePath ]}.
Proof.
  revert n'. induction n as [k cs IH] using Node_rect_Forall. intros n' H.
  assert (Hkids : forall cs', allSome (replaceJumps lbl afterPath updatePath) cs = Some cs' ->
                  gotoTargets (Nd k cs') ⊆ gotoTargets (Nd k cs) ∪ {[ afterPath; updatePath ]}).
  { clear H. intros cs' E. apply allSome_Forall2 in E.
    assert (targetsOf cs' ⊆ targetsOf cs ∪ {[ afterPath; updatePath ]}) as Hsub.
    { revert IH. induction E as [|c c' cs0 cs0' Hc E IHE]; intros IH; [clear; set_solver|].
      inversion IH as [|? ? IHc IHcs]; subst. rewrite !targetsOf_cons.
      specialize (IHE IHcs). specialize (IHc _ Hc). sets by IHE IHc. }
    rewrite !gotoTargets_Nd.
    generalize (match k with Ty.GotoStatement l => ({[ l ]} : gset string) | _ => ∅ end).
    intros K. sets by Hsub. }
  assert (Hjump : forall target, target = afterPath \/ target = updatePath ->
          match jumpLabel (Nd k cs) with
          | Some l => if String.eqb l lbl then Some (GotoStatement target) else None
          | None => None end = Some n' ->
          gotoTargets n' ⊆ gotoTargets (Nd k cs) ∪ {[ afterPath; updatePath ]}).
  { intros target Ht E. destruct (jumpLabel (Nd k cs)); [|discriminate].
    destruct (String.eqb _ _); [|discriminate]. injection E as <-.
    rewrite gotoTargets_goto. sets by Ht. }
  cbn [replaceJumps] in H.
  destruct k;
    try (destruct (allSome _ cs) as [cs'|] eqn:E; [|discriminate];
         injection H as <-; exact (Hkids _ eq_refl)).
  - eapply Hjump; [left; reflexivity|exact H].
  - eapply Hjump; [right; reflexivity|exact H].
Qed.

Lemma endsWithGoto_snoc (l : list Node) (t : string) :
  endsWithGoto (l ++ [GotoStatement t]) = true.
Proof. unfold endsWithGoto. rewrite last_last. reflexivity. Qed.

Lemma getPlaceholder_given (g : RNG) :
  given (Some (fst (getPlaceholder g))) = Some (fst (getPlaceholder g)).
Proof.
  unfold getPlaceholder, bind, ret. destruct (genRanHex 10 g) as [s g1]. reflexivity.
Qed.

(** [finishCurrentChunk], spelled out. *)
Lemma finish_spec (p n : option string) (b : builder) (g : RNG) :
  exists newLabel g',
    finishCurrentChunk p n b g
    = (mkBuilder
         (chunks b ++ [mkChunk (currentLabel b)
                         (currentBody b ++
                            [GotoStatement (default newLabel (given p))])])
         [] newLabel, g') /\
    (forall l, given n = Some l -> newLabel = l).
Proof.
  unfold finishCurrentChunk, bind, ret.
  destruct (given n) as [l|].
  - exists l, g. split; [|intros ? [= <-]; reflexivity].
    destruct (given p); reflexivity.
  - destruct (getPlaceholder g) as [l g1]. exists l, g1. split; [|discriminate].
    destruct (given p); reflexivity.
Qed.

Lemma inv_weaken (start : string) (ext ext' : gset string) (b : builder) :
  ext ⊆ ext' -> inv start ext b -> inv start ext' b.
Proof. intros H [H1 H2 H3]. split; [exact H1|exact H2|set_solver]. Qed.

Lemma inv_shrink (start : string) (ext ext' : gset string) (b : builder) :
  ext' ⊆ {[ currentLabel b ]} ∪ chunkLabels (chunks b) ∪ ext ->
  inv start ext' b -> inv start ext b.
Proof. intros H [H1 H2 H3]. split; [exact H1|exact H2|set_solver]. Qed.

Lemma inv_push (start : string) (ext : gset string) (stmt : Node) (b : builder) :
  gotoTargets stmt ⊆ ext -> inv start ext b -> inv start ext (push stmt b).
Proof.
  intros H [H1 H2 H3]. split; cbn [push chunks currentBody currentLabel];
    [exact H1|exact H2|].
  rewrite targetsOf_app, targetsOf_cons, targetsOf_nil. set_solver.
Qed.

Lemma inv_finish (start : string) (ext : gset string) (p n : option string)
    (b b' : builder) (g g' : RNG) :
  inv start ext b ->
  (forall l, given p = Some l -> l ∈ ext) ->
  finishCurrentChunk p n b g = (b', g') ->
  inv start ext b' /\ chunks b' <> [] /\ currentBody b' = [] /\
  (forall l, given n = Some l -> currentLabel b' = l) /\
  chunkLabels (chunks b') = chunkLabels (chunks b) ∪ {[ currentLabel b ]}.
Proof.
  intros [H1 H2 H3] Hp H. destruct (finish_spec p n b g) as (newLabel & g1 & E & Hn).
  rewrite E in H. injection H as <- <-. cbn [chunks currentBody currentLabel].
  split; [|split; [destruct (chunks b); discriminate|split; [reflexivity|split; [exact Hn|]]]].
  - split; cbn [chunks currentBody currentLabel].
    + destruct (chunks b); [exact H1|exact H1].
    + apply Forall_app. split; [exact H2|]. constructor; [|constructor].
      cbn [body]. apply endsWithGoto_snoc.
    + rewrite chunkTargets_app, chunkLabels_app, chunkTargets_cons, chunkLabels_cons.
      cbn [body label].
      rewrite targetsOf_app, targetsOf_cons, !targetsOf_nil, gotoTargets_goto.
      unfold chunkTargets, chunkLabels at 2. cbn [map union_list list_to_set].
      destruct (given p) as [l|]; cbn [default]; [specialize (Hp l eq_refl)|]; set_solver.
  - rewrite chunkLabels_app, chunkLabels_cons. cbn [label].
    unfold chunkLabels at 2. cbn [map list_to_set]. set_solver.
Qed.

Lemma inv_pushChunks (start : string) (ext : gset string) (more : list chunk) (b : builder) :
  inv start ext b -> chunks b <> [] ->
  Forall (fun c => endsWithGoto (body c) = true) more ->
  chunkTargets more ⊆ chunkLabels more ∪ ext ->
  inv start ext (pushChunks more b).
Proof.
  intros [H1 H2 H3] Hne Hg Ht. split; cbn [pushChunks chunks currentBody currentLabel].
  - destruct (chunks b); [congruence|exact H1].
  - apply Forall_app. split; assumption.
  - rewrite chunkTargets_app, chunkLabels_app. set_solver.
Qed.

Section Statement.
Variable fraction : Q.
Variable flattenNested : list Node -> string -> Rand (option (list chunk)).
Hypothesis nested_ok :
  forall stmts target label g cs g',
    flattenNested (stmts ++ [GotoStatement target])%list label g = (Some cs, g') ->
    wellChunked label (targetsOf stmts ∪ {[ target ]}) cs /\
    Forall (fun c => endsWithGoto (body c) = true) cs.

Lemma wellChunked_first (l : string) (ext : gset string) (cs : list chunk) :
  wellChunked l ext cs -> l ∈ chunkLabels cs.
Proof.
  intros [(c & rest & -> & <-) _ _]. rewrite chunkLabels_cons. set_solver.
Qed.

Lemma guard_targets (test : Node) (l : string) :
  gotoTargets (IfStatement test [GotoStatement l] None) = gotoTargets test ∪ {[ l ]}.
Proof.
  unfold IfStatement, BlockStatement, Arr, opt_block, Null.
  rewrite !gotoTargets_Nd, !targetsOf_cons, !gotoTargets_Nd, !targetsOf_cons,
    !gotoTargets_Nd, !targetsOf_cons, !targetsOf_nil, gotoTargets_goto.
  clear. set_solver.
Qed.

Lemma flattenIf_inv (start : string) (ext : gset string) (test : Node)
    (consequent : list Node) (alternate : option (list Node))
    (b b' : builder) (g g' : RNG) :
  inv start ext b ->
  gotoTargets test ⊆ ext ->
  targetsOf consequent ⊆ ext ->
  (forall alternateBody, alternate = Some alternateBody -> targetsOf alternateBody ⊆ ext) ->
  flattenIf flattenNested test consequent alternate b g = (Some b', g') ->
  inv start ext b'.
Proof.
  intros Hinv Htest Hcons Halt H. unfold flattenIf, bind in H.
  destruct (finishCurrentChunk None None b g) as [b1 g1] eqn:E1.
  apply inv_finish with (start := start) (ext := ext) in E1
    as (I1 & Hne1 & _ & _ & L1); [|exact Hinv|discriminate].
  pose proof (getPlaceholder_given g1) as Gyes.
  destruct (getPlaceholder g1) as [yesPath g2]. cbn [fst] in Gyes.
  pose proof (getPlaceholder_given g2) as Gno.
  destruct (getPlaceholder g2) as [noPath g3]. cbn [fst] in Gno.
  pose proof (getPlaceholder_given g3) as Gafter.
  destruct (getPlaceholder g3) as [afterPath g4]. cbn [fst] in Gafter.
  unfold bindOpt, bind, ret in H.
  destruct (flattenNested (consequent ++ [GotoStatement afterPath])%list yesPath g4)
    as [[more|] g5] eqn:Eyes; [|discriminate].
  apply nested_ok in Eyes as [Wyes Gyes'].
  pose proof (wellChunked_first _ _ _ Wyes) as Fyes. destruct Wyes as [_ _ Tyes].
  assert (I2 : forall E, ext ∪ {[ yesPath; afterPath ]} ⊆ E ->
               inv start E
                 (pushChunks more
                    (push (IfStatement test [GotoStatement yesPath] None) b1))).
  { intros E HE. apply inv_pushChunks; [| exact Hne1 | exact Gyes' |].
    - apply inv_push; [|eapply inv_weaken; [|exact I1]].
      + rewrite guard_targets. sets by Htest HE.
      + sets by HE.
    - sets by Tyes Hcons HE. }
  destruct alternate as [alternateBody|].
  - destruct (flattenNested (alternateBody ++ [GotoStatement afterPath])%list noPath g5)
      as [[more2|] g6] eqn:Eno; [|discriminate].
    apply nested_ok in Eno as [Wno Gno'].
    pose proof (wellChunked_first _ _ _ Wno) as Fno. destruct Wno as [_ _ Tno].
    specialize (Halt _ eq_refl).
    destruct (finishCurrentChunk (Some noPath) (Some afterPath) _ g6) as [b4 g7] eqn:E4.
    injection H as <- <-.
    apply inv_finish with (start := start) (ext := ext ∪ {[ yesPath; noPath; afterPath ]})
      in E4 as (I4 & _ & _ & Hcur & L4).
    + eapply inv_shrink; [|exact I4]. rewrite (Hcur _ Gafter), L4.
      cbn [pushChunks push chunks currentLabel]. rewrite !chunkLabels_app.
      sets by Fyes Fno.
    + apply inv_pushChunks; [apply I2; clear; set_solver| | exact Gno' |].
      * cbn [pushChunks push chunks]. destruct (chunks b1); [congruence|discriminate].
      * sets by Tno Halt.
    + intros l. rewrite Gno. intros [= <-]. clear. set_solver.
  - destruct (finishCurrentChunk (Some afterPath) (Some afterPath) _ g5) as [b4 g6] eqn:E4.
    injection H as <- <-.
    apply inv_finish with (start := start) (ext := ext ∪ {[ yesPath; afterPath ]}) in E4
      as (I4 & _ & _ & Hcur & L4).
    + eapply inv_shrink; [|exact I4]. rewrite (Hcur _ Gafter), L4.
      cbn [pushChunks push chunks currentLabel]. rewrite !chunkLabels_app.
      sets by Fyes.
    + apply I2. reflexivity.
    + intros l. rewrite Gafter. intros [= <-]. clear. set_solver.
Qed.

Lemma testOrTrue_targets (test : Node) : gotoTargets (testOrTrue test) ⊆ gotoTargets test.
Proof.
  unfold testOrTrue. destruct (kind_of test); try reflexivity.
  cbn. set_solver.
Qed.


Lemma expression_targets (e : Node) :
  gotoTargets (ExpressionStatement e) = gotoTargets e.
Proof.
  unfold ExpressionStatement. rewrite gotoTargets_Nd, targetsOf_cons, targetsOf_nil.
  clear. set_solver.
Qed.

Lemma flattenLoop_inv (start : string) (ext : gset string)
    (testPath updatePath bodyPath afterPath : string)
    (init test update : Node) (loopBody : list Node)
    (b b' : builder) (g g' : RNG) :
  inv start ext b ->
  given (Some testPath) = Some testPath ->
  given (Some updatePath) = Some updatePath ->
  given (Some bodyPath) = Some bodyPath ->
  given (Some afterPath) = Some afterPath ->
  gotoTargets init ⊆ ext -> gotoTargets test ⊆ ext -> gotoTargets update ⊆ ext ->
  targetsOf loopBody ⊆ ext ∪ {[ afterPath; updatePath ]} ->
  flattenLoop flattenNested testPath updatePath bodyPath afterPath
    init test update loopBody b g = (Some b', g') ->
  inv start ext b'.
Proof.
  intros Hinv Gt Gu Gb Ga Hi Ht Hu Hbody H. unfold flattenLoop, bind in H.
  set (b0 := match kind_of init with
             | Ty.Null => b
             | Ty.VariableDeclaration _ => push init b
             | _ => push (ExpressionStatement init) b
             end) in H.
  assert (I0 : inv start ext b0).
  { assert (gotoTargets (ExpressionStatement init) ⊆ ext)
      by (rewrite expression_targets; exact Hi).
    subst b0. destruct (kind_of init); try (apply inv_push; assumption). exact Hinv. }
  clearbody b0.
  destruct (finishCurrentChunk (Some testPath) (Some testPath) b0 g) as [b1 g1] eqn:E1.
  destruct (finishCurrentChunk (Some afterPath) (Some bodyPath) _ g1) as [b3 g3] eqn:E3.
  pose proof (getPlaceholder_given g3) as Ginner.
  destruct (getPlaceholder g3) as [innerBothPath g4]. cbn [fst] in Ginner.
  unfold bindOpt, bind, ret in H.
  destruct (flattenNested (loopBody ++ [GotoStatement updatePath])%list innerBothPath g4)
    as [[more|] g5] eqn:Emore; [|discriminate].
  destruct (finishCurrentChunk (Some innerBothPath) (Some updatePath) _ g5)
    as [b5 g6] eqn:E5.
  destruct (finishCurrentChunk (Some testPath) (Some afterPath) _ g6) as [b7 g7] eqn:E7.
  injection H as <- <-.
  apply nested_ok in Emore as [Wmore Gmore].
  pose proof (wellChunked_first _ _ _ Wmore) as Fmore. destruct Wmore as [_ _ Tmore].
  remember (ext ∪ {[ testPath; updatePath; bodyPath; afterPath; innerBothPath ]}) as ext'
    eqn:Eext.
  apply inv_finish with (start := start) (ext := ext') in E1
    as (I1 & Hne1 & _ & C1 & L1);
    [|eapply inv_weaken; [|exact I0]; sets by Eext
     |intros l; rewrite Gt; intros [= <-]; sets by Eext].
  apply inv_finish with (start := start) (ext := ext') in E3
    as (I3 & Hne3 & _ & C3 & L3);
    [|apply inv_push; [rewrite guard_targets; pose proof (testOrTrue_targets test) as Htt;
                       sets by Eext Ht Htt|exact I1]
     |intros l; rewrite Ga; intros [= <-]; sets by Eext].
  apply inv_finish with (start := start) (ext := ext') in E5
    as (I5 & Hne5 & _ & C5 & L5);
    [|apply inv_pushChunks; [exact I3|exact Hne3|exact Gmore|sets by Eext Tmore Hbody]
     |intros l; rewrite Ginner; intros [= <-]; sets by Eext].
  set (b6 := match kind_of update with
             | Ty.Null => b5
             | _ => push (ExpressionStatement update) b5
             end) in E7.
  assert (I6 : inv start ext' b6 /\ chunks b6 = chunks b5 /\ currentLabel b6 = currentLabel b5).
  { assert (gotoTargets (ExpressionStatement update) ⊆ ext')
      by (rewrite expression_targets; sets by Eext Hu).
    subst b6. destruct (kind_of update);
      try (split; [apply inv_push; assumption|split; reflexivity]).
    split; [exact I5|split; reflexivity]. }
  destruct I6 as (I6 & K6 & C6). clearbody b6.
  apply inv_finish with (start := start) (ext := ext') in E7
    as (I7 & Hne7 & _ & C7 & L7);
    [|exact I6|intros l; rewrite Gt; intros [= <-]; sets by Eext].
  eapply inv_shrink; [|exact I7].
  rewrite (C7 _ Ga), L7, K6, C6, (C5 _ Gu), L5.
  cbn [pushChunks push chunks currentLabel]. rewrite chunkLabels_app, (C3 _ Gb), L3.
  cbn [pushChunks push chunks currentLabel]. rewrite (C1 _ Gt).
  sets by Eext Fmore.
Qed.

Lemma flattenLabeledLoop_inv (start : string) (ext : gset string)
    (stmt : Node) (lbl : string) (init test update loopBlock : Node)
    (b b' : builder) (g g' : RNG) :
  inv start ext b ->
  gotoTargets stmt ⊆ ext ->
  gotoTargets init ⊆ ext -> gotoTargets test ⊆ ext -> gotoTargets update ⊆ ext ->
  gotoTargets loopBlock ⊆ ext ->
  flattenLabeledLoop flattenNested stmt lbl init test update loopBlock b g = (Some b', g') ->
  inv start ext b'.
Proof.
  intros Hinv Hs Hi Ht Hu Hb H. unfold flattenLabeledLoop, bind in H.
  pose proof (getPlaceholder_given g) as G1.
  destruct (getPlaceholder g) as [testPath g1]. cbn [fst] in G1.
  pose proof (getPlaceholder_given g1) as G2.
  destruct (getPlaceholder g1) as [updatePath g2]. cbn [fst] in G2.
  pose proof (getPlaceholder_given g2) as G3.
  destruct (getPlaceholder g2) as [bodyPath g3]. cbn [fst] in G3.
  pose proof (getPlaceholder_given g3) as G4.
  destruct (getPlaceholder g3) as [afterPath g4]. cbn [fst] in G4.
  assert (Hkeep : forall g0, ret (Some (push stmt b)) g0 = (Some b', g') -> inv start ext b').
  { intros g0 [= <- <-]. apply inv_push; assumption. }
  destruct (replaceJumps lbl afterPath updatePath loopBlock) as [replaced|] eqn:E;
    [|exact (Hkeep _ H)].
  apply replaceJumps_targets in E.
  destruct replaced as [k [|[kb loopBody] [|? ?]]]; try exact (Hkeep _ H);
    destruct kb; try exact (Hkeep _ H).
  eapply flattenLoop_inv; [exact Hinv|exact G1|exact G2|exact G3|exact G4
                          |exact Hi|exact Ht|exact Hu| |exact H].
  rewrite gotoTargets_Nd, targetsOf_cons, targetsOf_nil, gotoTargets_Nd in E. set_solver.
Qed.

Lemma child_targets (n : Node) (i : nat) :
  gotoTargets (nth i (children_of n) Null) ⊆ gotoTargets n.
Proof.
  destruct n as [k cs]. cbn [children_of].
  destruct (nth_in_or_default i cs Null) as [Hin | ->].
  - apply gotoTargets_child, Hin.
  - cbn. set_solver.
Qed.

Lemma children_targets (n : Node) : targetsOf (children_of n) ⊆ gotoTargets n.
Proof. destruct n as [k cs]. apply targetsOf_children. Qed.

Lemma removelast_targets (l : list Node) : targetsOf (removelast l) ⊆ targetsOf l.
Proof.
  induction l as [|a [|c l] IH]; [set_solver|cbn; set_solver|].
  change (removelast (a :: c :: l)) with (a :: removelast (c :: l)).
  rewrite !(targetsOf_cons a). set_solver.
Qed.

Lemma flattenCases_inv (start : string) (ext : gset string)
    (switchVarName afterPath : string) (cases : list Node) :
  afterPath ∈ ext ->
  (forall c, In c cases -> gotoTargets c ⊆ ext) ->
  forall (b b' : builder) (g g' : RNG),
    inv start ext b -> chunks b <> [] ->
    flattenCases flattenNested switchVarName afterPath cases b g = (Some b', g') ->
    inv start ext b'.
Proof.
  intros Hafter. induction cases as [|switchCase rest IH]; intros Hc b b' g g' Hinv Hne H;
    cbn [flattenCases] in H.
  - injection H as <- <-. exact Hinv.
  - unfold bindOpt, bind, ret in H.
    destruct (getPlaceholder g) as [entryPath g1].
    destruct (flattenNested _ entryPath g1) as [[more|] g2] eqn:Emore; [|discriminate].
    apply nested_ok in Emore as [Wmore Gmore].
    pose proof (wellChunked_first _ _ _ Wmore) as Fmore. destruct Wmore as [_ _ Tmore].
    pose proof (Hc switchCase (or_introl eq_refl)) as Hcase.
    pose proof (child_targets switchCase 0) as Htest.
    pose proof (children_targets (nth 1 (children_of switchCase) Null)) as Hcons.
    pose proof (child_targets switchCase 1) as Hcons'.
    pose proof (removelast_targets (children_of (nth 1 (children_of switchCase) Null)))
      as Hcons''.
    assert (I2 : inv start ext
                   (pushChunks more
                      (push (IfStatement
                               (BinaryExpression "===" (Identifier switchVarName)
                                  (nth 0 (children_of switchCase) Null))
                               [GotoStatement entryPath] None) b))).
    { eapply inv_shrink with (ext' := ext ∪ {[ entryPath ]}).
      - cbn [pushChunks push chunks currentLabel]. rewrite chunkLabels_app.
        sets by Fmore.
      - apply inv_pushChunks; [|exact Hne|exact Gmore|].
        + apply inv_push; [|eapply inv_weaken; [|exact Hinv]; clear; set_solver].
          rewrite guard_targets. unfold BinaryExpression, Identifier.
          rewrite gotoTargets_Nd, !targetsOf_cons, targetsOf_nil, gotoTargets_Nd,
            targetsOf_nil.
          sets by Hcase Htest.
        + sets by Tmore Hcase Hcons Hcons' Hcons'' Hafter. }
    destruct (is_nil rest).
    + injection H as <- <-. exact I2.
    + destruct (finishCurrentChunk None None _ g2) as [b3 g3] eqn:E3.
      apply inv_finish with (start := start) (ext := ext) in E3
        as (I3 & Hne3 & _); [|exact I2|discriminate].
      eapply IH; [|exact I3|exact Hne3|exact H].
      intros c Hin. apply Hc. now right.
Qed.

Lemma flattenSwitch_inv (start : string) (ext : gset string)
    (discriminant : Node) (cases : list Node) (b b' : builder) (g g' : RNG) :
  inv start ext b ->
  gotoTargets discriminant ⊆ ext ->
  (forall c, In c cases -> gotoTargets c ⊆ ext) ->
  flattenSwitch flattenNested discriminant cases b g = (Some b', g') ->
  inv start ext b'.
Proof.
  intros Hinv Hd Hc H. unfold flattenSwitch, bind in H.
  destruct (getPlaceholder g) as [switchVarName g1].
  pose proof (getPlaceholder_given g1) as Ga.
  destruct (getPlaceholder g1) as [afterPath g2]. cbn [fst] in Ga.
  destruct (finishCurrentChunk None None _ g2) as [b1 g3] eqn:E1.
  unfold bindOpt, bind, ret in H.
  destruct (flattenCases _ switchVarName afterPath cases b1 g3) as [[b2|] g4] eqn:E2;
    [|discriminate].
  destruct (finishCurrentChunk (Some afterPath) (Some afterPath) b2 g4) as [b3 g5] eqn:E3.
  injection H as <- <-.
  remember (ext ∪ {[ afterPath ]}) as ext' eqn:Eext.
  apply inv_finish with (start := start) (ext := ext') in E1
    as (I1 & Hne1 & _); [| |discriminate].
  - apply flattenCases_inv with (start := start) (ext := ext') in E2;
      [|sets by Eext|intros c Hin; specialize (Hc c Hin); sets by Eext Hc
       |exact I1|exact Hne1].
    apply inv_finish with (start := start) (ext := ext') in E3
      as (I3 & _ & _ & C3 & L3);
      [|exact E2|intros l; rewrite Ga; intros [= <-]; sets by Eext].
    eapply inv_shrink; [|exact I3]. rewrite (C3 _ Ga). sets by Eext.
  - apply inv_push; [|eapply inv_weaken; [|exact Hinv]; sets by Eext].
    unfold VariableDeclaration, VariableDeclarator, Arr, Identifier.
    rewrite !gotoTargets_Nd, !targetsOf_cons, !gotoTargets_Nd, !targetsOf_cons,
      !gotoTargets_Nd, !targetsOf_cons, !targetsOf_nil.
    sets by Eext Hd.
Qed.

Lemma otherwise_inv (start : string) (ext : gset string) (stmt : Node)
    (b b' : builder) (g g' : RNG) :
  inv start ext b ->
  gotoTargets stmt ⊆ ext ->
  bind (plain fraction stmt b) (fun b => ret (Some b)) g = (Some b', g') ->
  inv start ext b' /\ exists l, currentBody b' = (l ++ [stmt])%list.
Proof.
  intros Hinv Hs H. unfold plain, bind, ret in H.
  destruct (is_nil (currentBody b)).
  - injection H as <- <-. split; [apply inv_push; assumption|].
    exists (currentBody b). reflexivity.
  - destruct (Math_random g) as [u g1]. destruct (Qlt_bool u fraction).
    + injection H as <- <-. split; [apply inv_push; assumption|].
      exists (currentBody b). reflexivity.
    + destruct (finishCurrentChunk None None b g1) as [b1 g2] eqn:E1.
      injection H as <- <-.
      apply inv_finish with (start := start) (ext := ext) in E1
        as (I1 & _ & Hb & _); [|exact Hinv|discriminate].
      split; [apply inv_push; assumption|]. exists (currentBody b1). reflexivity.
Qed.

Lemma flattenStatement_inv (start : string) (ext : gset string) (hoist : bool)
    (stmt : Node) (isLast : bool) (b b' : builder) (g g' : RNG) :
  inv start ext b ->
  gotoTargets stmt ⊆ ext ->
  flattenStatement fraction flattenNested hoist stmt isLast b g = (Some b', g') ->
  inv start ext b'.
Proof.
  intros Hinv Hs H.
  assert (Hother : forall g0,
             bind (plain fraction stmt b) (fun b => ret (Some b)) g0 = (Some b', g') ->
             inv start ext b').
  { intros g0 H0. eapply otherwise_inv; eassumption. }
  assert (Hkeep : forall g0, ret (Some (push stmt b)) g0 = (Some b', g') -> inv start ext b').
  { intros g0 [= <- <-]. apply inv_push; assumption. }
  destruct stmt as [k cs]. destruct k; try exact (Hother _ H).
  - (* FunctionDeclaration *)
    cbn [flattenStatement] in H. destruct hoist; [|exact (Hother _ H)].
    injection H as <- <-. exact Hinv.
  - (* IfStatement *)
    destruct cs as [|test [|[kc ccs] [|[ka cas] [|? ?]]]]; try exact (Hother _ H);
      destruct kc; try exact (Hother _ H);
      destruct ccs as [|[kcc consequent] [|? ?]]; try exact (Hother _ H);
      destruct kcc; try exact (Hother _ H).
    rewrite gotoTargets_Nd, !targetsOf_cons, targetsOf_nil in Hs.
    rewrite !gotoTargets_Nd, !targetsOf_cons, targetsOf_nil, gotoTargets_Nd in Hs.
    destruct ka; try exact (Hother _ H).
    + destruct cas; try exact (Hother _ H).
      refine (flattenIf_inv start ext test consequent None b b' g g' Hinv _ _ _ H);
        [sets by Hs|sets by Hs|intros; discriminate].
    + destruct cas as [|[kaa alternateBody] [|? ?]]; try exact (Hother _ H);
        destruct kaa; try exact (Hother _ H).
      rewrite !targetsOf_cons, targetsOf_nil, gotoTargets_Nd in Hs.
      refine (flattenIf_inv start ext test consequent (Some alternateBody) b b' g g'
                Hinv _ _ _ H); [sets by Hs|sets by Hs|].
      intros ? [= <-]. sets by Hs.
  - (* LabeledStatement *)
    destruct cs as [|[k1 cs1] [|[kc ccs] [|? ?]]]; try exact (Hother _ H);
      destruct k1; try exact (Hother _ H);
      destruct kc; try exact (Hother _ H).
    + (* for *)
      destruct ccs as [|init [|test [|update [|[kb blk] [|? ?]]]]]; try exact (Hother _ H);
        destruct kb; try exact (Hother _ H).
      pose proof Hs as Hs'.
      rewrite gotoTargets_Nd, !targetsOf_cons, targetsOf_nil in Hs'.
      rewrite (gotoTargets_Nd Ty.ForStatement), !targetsOf_cons, targetsOf_nil in Hs'.
      refine (flattenLabeledLoop_inv start ext _ name init test update _ b b' g g'
                Hinv Hs _ _ _ _ H); sets by Hs'.
    + (* while *)
      destruct ccs as [|test [|[kb blk] [|? ?]]]; try exact (Hother _ H);
        destruct kb; try exact (Hother _ H).
      pose proof Hs as Hs'.
      rewrite gotoTargets_Nd, !targetsOf_cons, targetsOf_nil in Hs'.
      rewrite (gotoTargets_Nd Ty.WhileStatement), !targetsOf_cons, targetsOf_nil in Hs'.
      refine (flattenLabeledLoop_inv start ext _ name Null test Null _ b b' g g'
                Hinv Hs _ _ _ _ H); try (sets by Hs'); cbn; clear; set_solver.
    + (* switch *)
      destruct ccs as [|discriminant [|[kcs cases] [|? ?]]]; try exact (Hother _ H);
        destruct kcs; try exact (Hother _ H).
      cbn [flattenStatement] in H.
      destruct (is_nil cases || existsb (badCase name) cases); [exact (Hkeep _ H)|].
      unfold flattenLabeledSwitch, bind in H.
      destruct (getPlaceholder g) as [testPath g1].
      destruct (getPlaceholder g1) as [updatePath g2].
      destruct (getPlaceholder g2) as [bodyPath g3].
      destruct (getPlaceholder g3) as [afterPath g4].
      rewrite gotoTargets_Nd, !targetsOf_cons, targetsOf_nil in Hs.
      rewrite (gotoTargets_Nd Ty.SwitchStatement), !targetsOf_cons, targetsOf_nil in Hs.
      refine (flattenSwitch_inv start ext discriminant cases b b' _ g' Hinv _ _ H);
        [sets by Hs|].
      intros c Hc. apply gotoTargets_child with (k := Ty.Array) in Hc. sets by Hs Hc.
  - (* GotoStatement *)
    cbn [flattenStatement] in H. destruct isLast; [exact (Hother _ H)|].
    unfold bind, ret in H.
    destruct (finishCurrentChunk (Some label0) None b g) as [b1 g1] eqn:E1.
    injection H as <- <-.
    apply inv_finish with (start := start) (ext := ext) in E1 as (I1 & _); [exact I1|exact Hinv|].
    intros l Hl. rewrite gotoTargets_Nd in Hs. unfold given in Hl.
    destruct (String.eqb label0 ""); [discriminate|]. injection Hl as <-. sets by Hs.
Qed.

Lemma forEachStatement_inv (start : string) (ext : gset string) (hoist : bool)
    (body : list Node) :
  targetsOf body ⊆ ext ->
  forall (b b' : builder) (g g' : RNG),
    inv start ext b ->
    forEachStatement fraction flattenNested hoist body b g = (Some b', g') ->
    inv start ext b'.
Proof.
  induction body as [|stmt rest IH]; intros Hb b b' g g' Hinv H; cbn [forEachStatement] in H.
  - injection H as <- <-. exact Hinv.
  - rewrite targetsOf_cons in Hb. unfold bindOpt, bind, ret in H.
    destruct (flattenStatement _ _ hoist stmt (is_nil rest) b g) as [[b1|] g1] eqn:E1;
      [|discriminate].
    apply flattenStatement_inv with (start := start) (ext := ext) in E1;
      [|exact Hinv|sets by Hb].
    eapply IH; [sets by Hb|exact E1|exact H].
Qed.

(** A body that ends with a goto leaves it at the end of the current
    chunk. *)
Lemma forEachStatement_last_goto (hoist : bool) (stmts : list Node) (t : string)
    (cs0 : list Node) :
  forall (b b' : builder) (g g' : RNG),
    forEachStatement fraction flattenNested hoist
      (stmts ++ [Nd (Ty.GotoStatement t) cs0])%list b g = (Some b', g') ->
    endsWithGoto (currentBody b') = true.
Proof.
  assert (Hend : forall l, endsWithGoto (l ++ [Nd (Ty.GotoStatement t) cs0]) = true).
  { intros l. unfold endsWithGoto. rewrite last_last. reflexivity. }
  induction stmts as [|stmt rest IH]; intros b b' g g' H.
  - cbn [app forEachStatement is_nil] in H. unfold bindOpt, bind, ret in H.
    destruct (flattenStatement _ _ hoist _ true b g) as [[b1|] g1] eqn:E1;
      [|discriminate].
    injection H as <- <-. cbn [flattenStatement] in E1.
    unfold plain, bind, ret in E1.
    assert (forall x, currentBody (push (Nd (Ty.GotoStatement t) cs0) x)
                      = (currentBody x ++ [Nd (Ty.GotoStatement t) cs0])%list) as Hp
      by reflexivity.
    destruct (is_nil (currentBody b)).
    + injection E1 as <- <-. rewrite Hp. apply Hend.
    + destruct (Math_random g) as [u g2]. destruct (Qlt_bool u fraction).
      * injection E1 as <- <-. rewrite Hp. apply Hend.
      * destruct (finishCurrentChunk None None b g2) as [b2 g3].
        injection E1 as <- <-. rewrite Hp. apply Hend.
  - cbn [app forEachStatement] in H. unfold bindOpt, bind, ret in H.
    destruct (flattenStatement _ _ hoist stmt _ b g) as [[b1|] g1]; [|discriminate].
    eapply IH, H.
Qed.

End Statement.

Lemma popLast_snoc (l : list chunk) (c : chunk) :
  popLast (l ++ [c]) = (l ++ [mkChunk (label c) (removelast (body c))])%list.
Proof.
  induction l as [|a l IH]; [reflexivity|].
  cbn [app popLast]. rewrite IH. destruct (l ++ [c])%list eqn:E; [|reflexivity].
  destruct l; discriminate.
Qed.

(** [flattenBody] returns the closed builder that its [forEach] left. *)
Lemma flattenBody_closed (depth : nat) (fraction : Q) (hoist : bool) (body : list Node)
    (startingLabel : option string) (g g' : RNG) (cs : list chunk) :
  flattenBody (S depth) fraction hoist body startingLabel g = (Some cs, g') ->
  exists start g0 b g1,
    (forall l, startingLabel = Some l -> start = l) /\
    forEachStatement fraction
      (fun body label => flattenBody depth fraction false body (Some label))
      hoist body (mkBuilder [] [] start) g0 = (Some b, g1) /\
    cs = closed b.
Proof.
  intros H. cbn [flattenBody] in H. unfold bindOpt, bind in H.
  assert (Hpop : forall b newLabel,
             popLast (chunks b ++ [mkChunk (currentLabel b)
                                     (currentBody b ++ [GotoStatement newLabel])])
             = closed b).
  { intros b newLabel. rewrite popLast_snoc. cbn [Chunking.label Chunking.body].
    rewrite removelast_last. reflexivity. }
  destruct startingLabel as [l|].
  - unfold ret at 1 in H.
    destruct (forEachStatement _ _ hoist body (mkBuilder [] [] l) g) as [[b|] g1] eqn:E;
      [|discriminate].
    destruct (finish_spec None None b g1) as (newLabel & g2 & Ef & _).
    rewrite Ef in H. injection H as <- <-. cbn [chunks default given].
    exists l, g, b, g1. split; [intros ? [= <-]; reflexivity|split; [exact E|apply Hpop]].
  - destruct (getPlaceholder g) as [start g0].
    destruct (forEachStatement _ _ hoist body (mkBuilder [] [] start) g0) as [[b|] g1] eqn:E;
      [|discriminate].
    destruct (finish_spec None None b g1) as (newLabel & g2 & Ef & _).
    rewrite Ef in H. injection H as <- <-. cbn [chunks default given].
    exists start, g0, b, g1. split; [discriminate|split; [exact E|apply Hpop]].
Qed.

Lemma closed_wellChunked (start : string) (ext : gset string) (b : builder) :
  inv start ext b -> wellChunked start ext (closed b).
Proof.
  intros [H1 H2 H3]. unfold closed. split.
  - destruct (chunks b) as [|c rest]; cbn [app].
    + eexists _, []. split; [reflexivity|exact H1].
    + eexists c, _. split; [reflexivity|exact H1].
  - rewrite removelast_last. exact H2.
  - rewrite chunkTargets_app, chunkLabels_app, chunkTargets_cons, chunkLabels_cons.
    cbn [body label]. unfold chunkTargets at 2, chunkLabels at 2.
    cbn [map union_list list_to_set]. sets by H3.
Qed.

Lemma flattenBody_wellChunked (fraction : Q) (depth : nat) :
  forall (hoist : bool) (body : list Node) (startingLabel : option string)
         (g g' : RNG) (cs : list chunk),
    flattenBody depth fraction hoist body startingLabel g = (Some cs, g') ->
    (exists start, (forall l, startingLabel = Some l -> start = l) /\
                   wellChunked start (targetsOf body) cs) /\
    (endsWithGoto body = true ->
     Forall (fun c => endsWithGoto (Chunking.body c) = true) cs).
Proof.
  induction depth as [|depth IH]; intros hoist body startingLabel g g' cs H;
    [discriminate|].
  apply flattenBody_closed in H as (start & g0 & b & g1 & Hstart & E & ->).
  assert (Hnested : forall stmts target label g cs g',
             flattenBody depth fraction false (stmts ++ [GotoStatement target])%list
               (Some label) g = (Some cs, g') ->
             wellChunked label (targetsOf stmts ∪ {[ target ]}) cs /\
             Forall (fun c => endsWithGoto (Chunking.body c) = true) cs).
  { intros stmts target label0 g2 cs g3 Hn. apply IH in Hn as [(st & Hst & W) Hall].
    rewrite (Hst _ eq_refl) in W. split.
    - rewrite targetsOf_app, targetsOf_cons, targetsOf_nil, gotoTargets_goto in W.
      destruct W as [W1 W2 W3]. split; [exact W1|exact W2|sets by W3].
    - apply Hall, endsWithGoto_snoc. }
  assert (I0 : inv start (targetsOf body) (mkBuilder [] [] start)).
  { split; cbn [chunks currentBody currentLabel]; [reflexivity|constructor|].
    unfold chunkTargets, chunkLabels. cbn. clear. set_solver. }
  pose proof (forEachStatement_inv fraction _ Hnested start (targetsOf body) hoist body
                ltac:(reflexivity) _ _ _ _ I0 E) as Ib.
  split.
  - exists start. split; [exact Hstart|]. apply closed_wellChunked, Ib.
  - intros Hlast. unfold closed. apply Forall_app. split; [apply Ib|].
    constructor; [|constructor]. cbn [Chunking.body].
    assert (exists stmts t cs0, body = (stmts ++ [Nd (Ty.GotoStatement t) cs0])%list)
      as (stmts & t & cs0 & ->).
    { unfold endsWithGoto in Hlast.
      destruct body as [|s body' _] using rev_ind; [discriminate|].
      rewrite last_last in Hlast. destruct s as [k cs0]. destruct k; try discriminate.
      eauto. }
    eapply forEachStatement_last_goto, E.
Qed.

End TargetFacts.

Section ChunkTheorems.
Import Random Ast JSNum Placeholder StateEncoding Chunking Assemble Targets.

Lemma closeChunks_snoc (l : list chunk) (c : chunk) :
  closeChunks (l ++ [c])
  = (l ++ [mkChunk (label c) (body c ++ [GotoStatement "END_LABEL"])]
       ++ [mkChunk "END_LABEL" []])%list.
Proof.
  induction l as [|a l IH]; [reflexivity|].
  cbn [app closeChunks]. rewrite IH. destruct (l ++ [c])%list eqn:E; [|reflexivity].
  destruct l; discriminate.
Qed.

(** X9.  Whatever [flattenBody] returns starts with a chunk,
    which carries the starting label when one is passed; every chunk but
    the last ends with a
    [GotoStatement]; and once the goto to [END_LABEL] and the empty
    [END_LABEL] chunk are added, every chunk before [END_LABEL] ends with a
    [GotoStatement], the labels being unchanged. *)
Theorem every_chunk_ends_with_a_jump (depth : nat) (fraction : Q) (hoist : bool)
    (body : list Node) (startingLabel : option string) (g g' : RNG) (cs : list chunk) :
  flattenBody depth fraction hoist body startingLabel g = (Some cs, g') ->
  exists first rest cs',
    cs = first :: rest /\
    (forall l, startingLabel = Some l -> label first = l) /\
    Forall (fun c => endsWithGoto (Chunking.body c) = true) (removelast cs) /\
    closeChunks cs = (cs' ++ [mkChunk "END_LABEL" []])%list /\
    map label cs' = map label cs /\
    Forall (fun c => endsWithGoto (Chunking.body c) = true) cs'.
Proof.
  intros H. apply flattenBody_wellChunked in H as [(start & Hstart & [W1 W2 W3]) _].
  destruct W1 as (first & rest & -> & Hl).
  exists first, rest.
  destruct (exists_last (l := first :: rest) ltac:(discriminate)) as (l & c & E).
  rewrite E in *. rewrite removelast_last in W2.
  exists (l ++ [mkChunk (label c) (Chunking.body c ++ [GotoStatement "END_LABEL"])])%list.
  split; [reflexivity|]. split; [intros l0 Hl0; rewrite Hl; apply Hstart, Hl0|].
  split; [rewrite removelast_last; exact W2|].
  split; [rewrite closeChunks_snoc, app_assoc; reflexivity|].
  split; [rewrite !map_app; reflexivity|].
  apply Forall_app. split; [exact W2|]. constructor; [|constructor].
  cbn [Chunking.body]. apply endsWithGoto_snoc.
Qed.

Lemma targetsOf_gotoFree (body : list Node) :
  Forall (fun s => containsGoto s = false) body -> targetsOf body = ∅.
Proof.
  induction 1 as [|s body Hs _ IH]; [reflexivity|].
  rewrite targetsOf_cons, IH, (gotoFree_no_targets _ Hs). set_solver.
Qed.

Lemma closeChunks_targets (cs : list chunk) :
  cs <> [] ->
  chunkTargets (closeChunks cs) = chunkTargets cs ∪ {[ "END_LABEL" ]} /\
  chunkLabels (closeChunks cs) = chunkLabels cs ∪ {[ "END_LABEL" ]}.
Proof.
  intros Hne. destruct (exists_last Hne) as (l & c & ->).
  rewrite closeChunks_snoc, !chunkTargets_app, !chunkLabels_app.
  rewrite !chunkTargets_cons, !chunkLabels_cons. cbn [Chunking.body label].
  rewrite targetsOf_app, targetsOf_cons, !targetsOf_nil, gotoTargets_goto.
  change (chunkTargets []) with (∅ : gset string).
  change (chunkLabels []) with (∅ : gset string).
  split; clear; set_solver.
Qed.

Lemma flattenBody_jumps_closed (depth : nat) (fraction : Q) (hoist : bool)
    (body : list Node) (startingLabel : option string) (g g' : RNG) (cs : list chunk) :
  Forall (fun s => containsGoto s = false) body ->
  flattenBody depth fraction hoist body startingLabel g = (Some cs, g') ->
  chunkTargets cs ⊆ chunkLabels cs /\
  chunkTargets (closeChunks cs) ⊆ chunkLabels (closeChunks cs).
Proof.
  intros Hfree H. apply flattenBody_wellChunked in H as [(start & _ & [W1 W2 W3]) _].
  rewrite (targetsOf_gotoFree _ Hfree) in W3.
  assert (cs <> []) as Hne by (destruct W1 as (? & ? & -> & _); discriminate).
  destruct (closeChunks_targets cs Hne) as [-> ->].
  split; clear - W3; set_solver.
Qed.

(** X10.  For a body that holds no [GotoStatement] to begin
    with, every goto of the chunks that [flattenBody] returns, at any
    depth, names the label of one of these chunks; and it is still so once
    the goto to [END_LABEL] and the [END_LABEL] chunk are added. *)
Theorem every_jump_leads_to_a_chunk (depth : nat) (fraction : Q) (hoist : bool)
    (body : list Node) (startingLabel : option string) (g g' : RNG) (cs : list chunk) :
  Forall (fun s => containsGoto s = false) body ->
  flattenBody depth fraction hoist body startingLabel g = (Some cs, g') ->
  (forall t, t ∈ chunkTargets cs -> exists c, In c cs /\ label c = t) /\
  (forall t, t ∈ chunkTargets (closeChunks cs) ->
             exists c, In c (closeChunks cs) /\ label c = t).
Proof.
  intros Hfree H. destruct (flattenBody_jumps_closed _ _ _ _ _ _ _ _ Hfree H) as [H1 H2].
  assert (Hin : forall (l : list chunk) t, t ∈ chunkLabels l -> exists c, In c l /\ label c = t).
  { intros l t Ht. unfold chunkLabels in Ht. apply elem_of_list_to_set in Ht.
    apply list_elem_of_In, in_map_iff in Ht as (c & Hc & Hin). eauto. }
  split; intros t Ht; apply Hin; [apply H1|apply H2]; exact Ht.
Qed.

End ChunkTheorems.

(** *** Control Flow Flattening: the assertions hold *)
Section AssertionFacts.
Import Random Ast JSNum Placeholder StateEncoding Chunking Assemble Targets.

Lemma assignStates_domain (k : nat) (chunks : list (string * Z))
    (m : gmap string (list Z)) (g : RNG) (l : string) :
  In l (map fst chunks) \/ is_Some (m !! l) ->
  is_Some (snd (fst (assignStates k chunks m g)) !! l).
Proof.
  revert m g. induction chunks as [|[label state] rest IH]; intros m g H.
  - destruct H as [[]|H]. exact H.
  - cbn [assignStates]. unfold bind, ret.
    destruct (chunkStateValues k state g) as [sv g1].
    specialize (IH (<[label := sv]> m) g1).
    destruct (assignStates k rest (<[label := sv]> m) g1) as [[vs m'] g2]. cbn [fst snd] in *.
    apply IH. destruct H as [[<-|H]|H].
    + right. rewrite lookup_insert_eq. eauto.
    + left. exact H.
    + right. destruct (decide (label = l)) as [->|Hne].
      * rewrite lookup_insert_eq. eauto.
      * rewrite lookup_insert_ne by exact Hne. exact H.
Qed.

Lemma encodeStates_domain (fuel : nat) (labels : list string) (g g' : RNG) (e : encoding) :
  encodeStates fuel labels g = (Some e, g') ->
  forall l, In l labels -> is_Some (labelToStates e !! l).
Proof.
  intros Hrun l Hl. unfold encodeStates, bind, ret in Hrun.
  destruct (selectStates fuel (length labels) [] g) as [[cs|] g1] eqn:Esel; [|discriminate].
  pose proof (selectStates_spec _ _ _ _ _ _ Esel NoDup_nil_2
                (fun _ => Forall_nil_2 _)) as (Hlen & _).
  destruct (getRandomInteger 2 5 g1) as [k g2].
  destruct (replicateM (Z.to_nat k) getPlaceholder g2) as [vars g3].
  destruct (getPlaceholder g3) as [sw g4].
  pose proof (assignStates_domain (length vars) (combine labels cs) ∅ g4 l) as Hd.
  destruct (assignStates (length vars) (combine labels cs) ∅ g4) as [[vs m] g5].
  injection Hrun as <- <-. cbn [labelToStates fst snd] in *.
  apply Hd. left. rewrite combine_fst_same_length by lia. exact Hl.
Qed.

Section WithEncoding.
Variable stateVars : list string.
Variable labelToStates : gmap string (list Z).
Variable switchLabel : string.

Notation rewriteNode := (rewriteNode stateVars labelToStates switchLabel).
Notation leave := (leave stateVars labelToStates switchLabel).

(** Every label in [S] has its state vector. *)
Notation known S := (forall t : string, t ∈ (S : gset string) -> is_Some (labelToStates !! t)).

Lemma leave_succeeds (chunkStates : list Z) (inBlock : bool) (k : Ty.kind)
    (vs : list visited) (g : RNG) :
  known (gotoTargets (Nd k [])) ->
  exists v g', leave chunkStates inBlock k vs g = (Some v, g').
Proof.
  intros Hk. unfold Assemble.leave.
  destruct k; try (unfold ret; eauto).
  - destruct inBlock; unfold ret; eauto.
  - destruct (Hk label0) as [next ->]; [cbn; set_solver|].
    unfold bind, ret. destruct (transitionStatement stateVars chunkStates next g) as [s g1].
    eauto.
Qed.

Lemma eachChild_succeeds
    (visit : Node -> positive -> Rand (option (visited * positive))) (cs : list Node) :
  Forall (fun c => forall made g, exists v made' g',
              visit c made g = (Some (v, made'), g')) cs ->
  forall made g, exists vs made' g',
    eachChild visit cs made g = (Some (vs, made'), g').
Proof.
  induction 1 as [|c cs Hc _ IH]; intros made g; cbn [eachChild].
  - unfold ret. eauto.
  - unfold bindOpt, bind, ret. destruct (Hc made g) as (v & m1 & g1 & ->). cbn [fst snd].
    destruct (IH m1 g1) as (vs & m2 & g2 & ->). eauto.
Qed.

Lemma rewriteNode_succeeds (chunkStates : list Z) (n : Node) :
  known (gotoTargets n) ->
  forall inFunction inBlock made g, exists v made' g',
    rewriteNode chunkStates inFunction inBlock n made g = (Some (v, made'), g').
Proof.
  induction n as [k cs IH] using Node_rect_Forall. intros Hn inFunction inBlock made g.
  cbn [Assemble.rewriteNode].
  set (visit := rewriteNode chunkStates (inFunction || isVarContext (Nd k cs))
                  (isBlock (Nd k cs))).
  assert (Hchildren : forall made g, exists vs made' g',
             eachChild visit cs made g = (Some (vs, made'), g')).
  { apply eachChild_succeeds. rewrite List.Forall_forall in IH |- *.
    intros c Hc made0 g0. apply IH; [exact Hc|].
    intros t Ht. apply Hn. pose proof (gotoTargets_child k cs c Hc). set_solver. }
  assert (Hleave : forall vs g, exists v g', leave chunkStates inBlock k vs g = (Some v, g')).
  { intros vs g0. apply leave_succeeds. intros t Ht. apply Hn.
    rewrite gotoTargets_Nd in Ht |- *. rewrite targetsOf_nil in Ht. set_solver. }
  assert (Hdescend : forall g0, exists v made' g',
            bindOpt (eachChild visit cs made)
              (fun r => bindOpt (leave chunkStates inBlock k (fst r))
                          (fun v => ret (Some (v, snd r))))
              g0 = (Some (v, made'), g')).
  { intros g0. unfold bindOpt, bind, ret.
    destruct (Hchildren made g0) as (vs & m1 & g1 & ->). cbn [fst snd].
    destruct (Hleave vs g1) as (v & g2 & ->). eauto. }
  destruct (eligibleLiteral k) as [value|]; [|apply Hdescend].
  unfold bind. destruct (Math_random g) as [u g1].
  destruct (Qlt_bool u (4 # made) && negb inFunction)%bool; [|apply Hdescend].
  unfold bindOpt, bind, ret.
  destruct (Hchildren (made + 1)%positive g1) as (vs & m1 & g2 & ->). cbn [fst snd].
  destruct (numberLiteral stateVars value 0 chunkStates g2) as [e g3]. eauto.
Qed.

Lemma rewriteStatements_succeeds (chunkStates : list Z) (stmts : list Node) :
  known (targetsOf stmts) ->
  forall stmtIndex made g, exists r g',
    rewriteStatements stateVars labelToStates switchLabel chunkStates stmts stmtIndex made g
    = (Some r, g').
Proof.
  induction stmts as [|stmt rest IH]; intros Hs stmtIndex made g; cbn [rewriteStatements].
  - unfold ret. eauto.
  - unfold bindOpt, bind, ret.
    destruct (rewriteNode_succeeds chunkStates stmt) with (inFunction := false)
      (inBlock := false) (made := made) (g := g) as (v & m1 & g1 & ->).
    { intros t Ht. apply Hs. rewrite targetsOf_cons. set_solver. }
    cbn [fst snd].
    destruct (IH) with (stmtIndex := S stmtIndex) (made := m1) (g := g1) as (r & g2 & ->).
    { intros t Ht. apply Hs. rewrite targetsOf_cons. set_solver. }
    eauto.
Qed.

End WithEncoding.

Lemma makeCases_succeeds (e : encoding) (endLabel : string) (chunks : list chunk) :
  (forall t, t ∈ chunkLabels chunks ∪ chunkTargets chunks ->
             is_Some (labelToStates e !! t)) ->
  forall i g, exists cases g', makeCases e endLabel chunks i g = (Some cases, g').
Proof.
  induction chunks as [|c rest IH]; intros Hk i g; cbn [makeCases].
  - unfold ret. eauto.
  - rewrite chunkLabels_cons, chunkTargets_cons in Hk.
    assert (Hrest : forall i g, exists cases g',
               makeCases e endLabel rest i g = (Some cases, g')).
    { apply IH. intros t Ht. apply Hk. set_solver. }
    destruct (String.eqb (label c) endLabel); [apply Hrest|].
    destruct (Hk (label c)) as [chunkStates ->]; [set_solver|].
    unfold rewriteChunk, bindOpt, bind, ret.
    destruct (rewriteStatements_succeeds (stateVars e) (labelToStates e) (switchLabel e)
                chunkStates (body c)) with (stmtIndex := 0%nat) (made := 1%positive) (g := g)
      as (r & g1 & ->).
    { intros t Ht. apply Hk. set_solver. }
    cbn [fst snd]. destruct (Hrest (S i) g1) as (cases & g2 & ->). eauto.
Qed.

Variable shuffle : list case -> Rand (list case).
Variable lexicallyBound : bool.
Variable approve : Rand bool.
Variable redefined : bool.

(** X11.  For a block that holds no [GotoStatement] to begin
    with, the exit callback cannot fail an assertion ([ok(...)], lines
    618 and 664) nor miss the vector of the start or end label: when no
    result comes, chunking itself had succeeded and it is the draw of
    state totals that spent its iteration budget. *)
Theorem chunk_rewriting_never_fails_an_assertion (fuel : nat) (body : list Node)
    (g g' : RNG) :
  Forall (fun s => containsGoto s = false) body ->
  transform shuffle lexicallyBound approve redefined fuel body g = (None, g') ->
  exists g0 cs g1,
    flattenBody (height (Arr body)) (Fraction.fraction (length body)) true body None g0
    = (Some cs, g1) /\
    encodeStates fuel (map label (closeChunks cs)) g1 = (None, g').
Proof.
  intros Hfree H. unfold transform in H.
  destruct (length body <? 3)%nat; [discriminate|].
  destruct lexicallyBound; [discriminate|].
  unfold bind in H. destruct (approve g) as [approved g0].
  destruct approved; cbn [negb] in H; [|discriminate].
  destruct redefined; [discriminate|].
  unfold bindOpt, bind, ret in H.
  destruct (flattenBody_succeeds (Fraction.fraction (length body)) (height (Arr body))
              true body None (le_n _) g0) as (cs & g1 & Eflat).
  rewrite Eflat in H. exists g0, cs, g1. split; [exact Eflat|].
  destruct (length (closeChunks cs) <? 3)%nat; [discriminate|].
  destruct (encodeStates fuel _ g1) as [[e|] g2] eqn:Eenc;
    [|injection H as <-; reflexivity].
  exfalso.
  pose proof (encodeStates_domain _ _ _ _ _ Eenc) as Hdom.
  pose proof (flattenBody_jumps_closed _ _ _ _ _ _ _ _ Hfree Eflat) as [_ Hclosed].
  assert (Hknown : forall t, t ∈ chunkLabels (closeChunks cs) -> is_Some (labelToStates e !! t)).
  { intros t Ht. apply Hdom. unfold chunkLabels in Ht.
    apply elem_of_list_to_set in Ht. apply list_elem_of_In. exact Ht. }
  apply flattenBody_wellChunked in Eflat as [(start & _ & [W1 _ _]) _].
  destruct W1 as (first & rest & -> & _).
  assert (Hfirst : is_Some (labelToStates e !! label (hd (mkChunk "" []) (closeChunks (first :: rest))))).
  { apply Hknown. destruct rest; cbn; set_solver. }
  assert (Hlast : is_Some (labelToStates e !! label (List.last (closeChunks (first :: rest)) (mkChunk "" [])))).
  { apply Hknown. destruct (exists_last (l := first :: rest) ltac:(discriminate)) as (l & c & ->).
    rewrite closeChunks_snoc, app_assoc, last_last, !chunkLabels_app.
    unfold chunkLabels. cbn. set_solver. }
  destruct Hfirst as [initStateValues Hi]. rewrite Hi in H.
  destruct Hlast as [endStateValues He]. rewrite He in H.
  destruct (makeCases_succeeds e (label (List.last (closeChunks (first :: rest)) (mkChunk "" [])))
              (closeChunks (first :: rest))) with (i := 0%nat) (g := g2)
    as (cases & g3 & Ecases).
  { intros t Ht. apply Hknown. clear - Ht Hclosed. set_solver. }
  rewrite Ecases in H. destruct (shuffle cases g3) as [shuffled g4]. discriminate.
Qed.

End AssertionFacts.

(** ** RGF: a queued function only needs queued functions *)
Section ClosureFacts.
Import Resolve Closure.

Lemma erase_cases (nm : string) (loc : nat) (o : candidate) :
  fst (erase nm loc o) = o \/
  (location o <> loc /\ references o <> ∅ /\ nm ∈ references o /\
   location (fst (erase nm loc o)) = location o /\
   references (fst (erase nm loc o)) = references o ∖ {[ nm ]}).
Proof.
  unfold erase.
  destruct (negb (Nat.eqb (location o) loc)) eqn:E1; cbn [andb]; [|left; reflexivity].
  destruct (negb (Nat.eqb (size (references o)) 0)) eqn:E2; cbn [andb]; [|left; reflexivity].
  destruct (bool_decide (nm ∈ references o)) eqn:E3; [|left; reflexivity].
  right. cbn [fst location references]. apply negb_true_iff, Nat.eqb_neq in E1, E2.
  apply bool_decide_eq_true in E3. repeat split; try assumption.
  intros H. rewrite H in E2. apply E2. apply size_empty.
Qed.

Lemma eraseAll_keeps_resolved (nm : string) (loc : nat) (collect : list candidate)
    (r : candidate) :
  In r collect -> references r = ∅ -> In r (fst (eraseAll nm loc collect)).
Proof.
  intros Hin Hr. induction collect as [|o rest IH]; [destruct Hin|].
  cbn [eraseAll]. pose proof (erase_cases nm loc o) as Ho.
  destruct (erase nm loc o) as [o' h1]. destruct (eraseAll nm loc rest) as [rest' h2].
  cbn [fst] in *. destruct Hin as [->|Hin].
  - left. destruct Ho as [->|(_ & Hne & _)]; [reflexivity|congruence].
  - right. apply IH, Hin.
Qed.

Lemma eraseAll_justified (nm : string) (loc : nat) (whole : list candidate)
    (r0 : candidate) :
  In r0 whole -> references r0 = ∅ -> has_name r0 = Some nm -> location r0 = loc ->
  forall (collect0 collect : list candidate),
    (forall r, In r collect -> In r whole) ->
    Forall2 (justified whole) collect0 collect ->
    Forall2 (justified (fst (eraseAll nm loc whole))) collect0
      (fst (eraseAll nm loc collect)).
Proof.
  intros Hin0 Hr0 Hn0 Hl0 collect0 collect Hsub H.
  induction H as [|o0 o collect0 collect Ho _ IH]; [constructor|].
  cbn [eraseAll]. pose proof (erase_cases nm loc o) as Hcase.
  destruct (erase nm loc o) as [o' h1].
  specialize (IH (fun r Hr => Hsub r (or_intror Hr))).
  destruct (eraseAll nm loc collect) as [rest' h2]. cbn [fst] in *.
  constructor; [|exact IH].
  destruct Ho as (Hloc & Hsubs & Hjust).
  assert (Hold : forall x, x ∈ references o0 -> x ∉ references o ->
            exists r, In r (fst (eraseAll nm loc whole)) /\ references r = ∅ /\
                      has_name r = Some x /\ location r <> location o0).
  { intros x Hx Hnx. destruct (Hjust x Hx Hnx) as (r & Hr & He & Hn & Hl).
    exists r. split; [apply eraseAll_keeps_resolved; assumption|]. auto. }
  destruct Hcase as [->|(Hne & _ & Hnm & Hloc' & Hrefs)].
  - split; [exact Hloc|]. split; [exact Hsubs|exact Hold].
  - split; [congruence|]. split; [rewrite Hrefs; clear - Hsubs; set_solver|].
    intros x Hx Hnx. rewrite Hrefs in Hnx.
    destruct (decide (x ∈ references o)) as [Hxo|Hxo]; [|apply Hold; assumption].
    assert (x = nm) as ->.
    { destruct (decide (x = nm)) as [E|E]; [exact E|]. exfalso. apply Hnx.
      clear - Hxo E. set_solver. }
    exists r0. split; [apply eraseAll_keeps_resolved; assumption|].
    split; [exact Hr0|]. split; [exact Hn0|]. congruence.
Qed.

Lemma visit_justified (collect0 : list candidate) (i : nat) (st : list candidate * bool) :
  Forall2 (justified (fst st)) collect0 (fst st) ->
  Forall2 (justified (fst (visit i st))) collect0 (fst (visit i st)).
Proof.
  destruct st as [collect hit]. cbn [fst]. intros H. unfold visit.
  destruct (nth_error collect i) as [c|] eqn:Ec; [|exact H].
  destruct (Nat.eqb (size (references c)) 0) eqn:Es; [|exact H].
  destruct (has_name c) as [nm|] eqn:En; [|exact H].
  assert (Hc : references c = ∅).
  { apply Nat.eqb_eq in Es. apply size_empty_inv in Es. apply leibniz_equiv. exact Es. }
  pose proof (eraseAll_justified nm (location c) collect c
                (nth_error_In _ _ Ec) Hc En eq_refl collect0 collect
                (fun r Hr => Hr) H) as Hj.
  destruct (eraseAll nm (location c) collect) as [collect' h]. exact Hj.
Qed.

Lemma pass_justified (collect0 collect : list candidate) :
  Forall2 (justified collect) collect0 collect ->
  Forall2 (justified (fst (pass collect))) collect0 (fst (pass collect)).
Proof.
  intros H. unfold pass.
  assert (forall idxs st,
             Forall2 (justified (fst st)) collect0 (fst st) ->
             Forall2 (justified (fst (fold_left (fun st i => visit i st) idxs st)))
               collect0 (fst (fold_left (fun st i => visit i st) idxs st))) as Hfold.
  { induction idxs as [|i idxs IH]; intros st Hst; [exact Hst|].
    cbn [fold_left]. apply IH, visit_justified, Hst. }
  apply Hfold. exact H.
Qed.

Lemma resolve_justified (collect0 : list candidate) (fuel start : nat) :
  forall (miss : nat) (collect final : list candidate),
    Forall2 (justified collect) collect0 collect ->
    resolve fuel start miss collect = Some final ->
    Forall2 (justified final) collect0 final.
Proof.
  induction fuel as [|fuel IH]; intros miss collect final H Hrun; [discriminate|].
  cbn [resolve] in Hrun. pose proof (pass_justified collect0 collect H) as Hp.
  destruct (pass collect) as [collect' hit]. cbn [fst] in Hp.
  destruct (Nat.ltb start (if hit then 0%nat else S miss)).
  - injection Hrun as <-. exact Hp.
  - eapply IH; [exact Hp|exact Hrun].
Qed.

Lemma justified_refl (collect : list candidate) :
  Forall2 (justified collect) collect collect.
Proof.
  assert (forall whole l, Forall2 (justified whole) l l) as H.
  { intros whole l. induction l as [|o l IH]; constructor; [|exact IH].
    split; [reflexivity|]. split; [reflexivity|]. intros x Hx Hnx. contradiction. }
  apply H.
Qed.

(** X12.  A function is only queued together with what it needs:
    when the loop ends, every entry still stands for the same function with
    a part of the names it referenced, and for an entry that is queued
    (its set is empty) every name it referenced at first is the name of
    another function that is queued too. *)
Theorem queued_functions_only_need_queued_functions (fuel : nat)
    (collect final : list candidate) :
  resolveNames fuel collect = Some final ->
  Forall2 (fun o0 o =>
             location o = location o0 /\
             references o ⊆ references o0 /\
             (references o = ∅ ->
              forall x, x ∈ references o0 ->
                        exists r, In r final /\ In (location r) (queue final) /\
                                  has_name r = Some x /\ location r <> location o0))
    collect final.
Proof.
  intros Hrun. unfold resolveNames in Hrun.
  pose proof (resolve_justified collect _ _ _ _ _ (justified_refl collect) Hrun) as H.
  eapply Forall2_impl; [exact H|]. intros o0 o (Hloc & Hsub & Hj).
  split; [exact Hloc|]. split; [exact Hsub|].
  intros He x Hx. destruct (Hj x Hx) as (r & Hr & Hre & Hn & Hl); [rewrite He; clear; set_solver|].
  exists r. split; [exact Hr|]. split; [|split; assumption].
  unfold queue. apply in_map. apply filter_In. split; [exact Hr|]. rewrite Hre. reflexivity.
Qed.

End ClosureFacts.

Section ClosureWitness.
Import Resolve Closure.

Lemma queued_functions_only_need_queued_functions_witness :
  let collect := [mkCandidate 0 {[ "g" ]} (Some "f"); mkCandidate 1 ∅ (Some "g");
                  mkCandidate 2 {[ "x" ]} (Some "h")] in
  let final := [mkCandidate 0 ∅ (Some "f"); mkCandidate 1 ∅ (Some "g");
                mkCandidate 2 {[ "x" ]} (Some "h")] in
  resolveNames 20 collect = Some final /\
  queue final = [0; 1]%nat /\
  Forall2 (fun o0 o =>
             location o = location o0 /\
             references o ⊆ references o0 /\
             (references o = ∅ ->
              forall x, x ∈ references o0 ->
                        exists r, In r final /\ In (location r) (queue final) /\
                                  has_name r = Some x /\ location r <> location o0))
    collect final.
Proof.
  intros collect final.
  assert (Hrun : resolveNames 20 collect = Some final) by (vm_compute; reflexivity).
  split; [exact Hrun|]. split; [vm_compute; reflexivity|].
  exact (queued_functions_only_need_queued_functions 20 collect final Hrun).
Defined.

End ClosureWitness.

(** *** Control Flow Flattening: straight-line code becomes a chain *)
Section ChainFacts.
Import Random Ast JSNum Placeholder Chunking Chain.

Lemma chainedTo_snoc (cs : list chunk) (l nl : string) (p cb : list Node) :
  chainedTo cs l p ->
  chainedTo (cs ++ [mkChunk l (cb ++ [GotoStatement nl])]) nl (p ++ cb).
Proof.
  revert p. induction cs as [|c rest IH]; intros p H.
  - cbn in H. subst p. cbn. exists cb, []. rewrite app_nil_r. auto.
  - cbn [chainedTo app] in *. destruct H as (s & stmts' & Hb & -> & Hrest).
    exists s, (stmts' ++ cb)%list. split; [|split; [symmetry; apply app_assoc|apply IH, Hrest]].
    rewrite Hb. destruct rest; reflexivity.
Qed.

Lemma follow_chained (cs : list chunk) (l : string) (p cur : list Node) :
  chainedTo cs l p -> follow (cs ++ [mkChunk l cur]) = Some (p ++ cur)%list.
Proof.
  revert p. induction cs as [|c rest IH]; intros p H.
  - cbn in H. subst p. reflexivity.
  - cbn [chainedTo] in H. destruct H as (s & stmts' & Hb & -> & Hrest).
    specialize (IH _ Hrest). cbn [app follow].
    destruct (rest ++ [mkChunk l cur])%list as [|next tl] eqn:E;
      [destruct rest; discriminate|].
    assert (Hl : label next = match rest with [] => l | c' :: _ => label c' end).
    { destruct rest; injection E as <- _; reflexivity. }
    rewrite Hb, last_last, removelast_last. cbn [GotoStatement]. rewrite <- Hl.
    rewrite String.eqb_refl, IH. cbn [option_map]. rewrite <- app_assoc. reflexivity.
Qed.

Section Statements.
Variable fraction : Q.
Variable flattenNested : list Node -> string -> Rand (option (list chunk)).

Lemma plain_carries (stmt : Node) (b : builder) (pre : list Node) (g : RNG) :
  carries b pre ->
  carries (fst (plain fraction stmt b g)) (pre ++ [stmt]).
Proof.
  intros (p & -> & Hc). unfold plain.
  assert (Hpush : carries (push stmt b) ((p ++ currentBody b) ++ [stmt])).
  { exists p. split; [symmetry; apply app_assoc|exact Hc]. }
  destruct (is_nil (currentBody b)); [exact Hpush|].
  unfold bind, ret. destruct (Math_random g) as [u g1].
  destruct (Qlt_bool u fraction); [exact Hpush|].
  destruct (finish_spec None None b g1) as (nl & g2 & Ef & _). rewrite Ef.
  cbn [fst push chunks currentBody currentLabel given default app].
  exists (p ++ currentBody b)%list. split; [reflexivity|].
  apply chainedTo_snoc, Hc.
Qed.

Lemma flattenStatement_simple (hoist : bool) (stmt : Node) (isLast : bool) (b : builder) :
  simple stmt = true ->
  flattenStatement fraction flattenNested hoist stmt isLast b
  = bind (plain fraction stmt b) (fun b => ret (Some b)).
Proof.
  destruct stmt as [k cs]. destruct k; try discriminate; intros _; reflexivity.
Qed.

Lemma forEachStatement_simple (hoist : bool) (body : list Node) :
  Forall (fun s => simple s = true) body ->
  forall (b : builder) (pre : list Node) (g : RNG),
    carries b pre ->
    exists b' g',
      forEachStatement fraction flattenNested hoist body b g = (Some b', g') /\
      carries b' (pre ++ body).
Proof.
  induction 1 as [|stmt rest Hs _ IH]; intros b pre g Hb.
  - exists b, g. rewrite app_nil_r. split; [reflexivity|exact Hb].
  - cbn [forEachStatement]. unfold bindOpt, bind at 1.
    rewrite (flattenStatement_simple _ _ _ _ Hs). unfold bind, ret.
    pose proof (plain_carries stmt b pre g Hb) as Hp.
    destruct (plain fraction stmt b g) as [b1 g1]. cbn [fst] in Hp.
    destruct (IH b1 _ g1 Hp) as (b' & g' & E & Hc).
    exists b', g'. split; [exact E|]. rewrite <- app_assoc in Hc. exact Hc.
Qed.

End Statements.

(** X13.  Straight-line code comes out as a chain: whatever the
    draws, a block of statements that are neither function declarations,
    jumps, labeled statements nor [if]s is cut into chunks of which each
    ends with the jump to the next, and running through them in this order
    meets the statements of the block, all of them, once and in their
    order. *)
Theorem straight_line_code_becomes_a_chain (depth : nat) (fraction : Q) (hoist : bool)
    (body : list Node) (startingLabel : option string) (g : RNG) :
  Forall (fun s => simple s = true) body ->
  exists cs g',
    flattenBody (S depth) fraction hoist body startingLabel g = (Some cs, g') /\
    follow cs = Some body.
Proof.
  intros Hbody. cbn [flattenBody]. unfold bind at 1.
  set (start := match startingLabel with Some l => ret l | None => getPlaceholder end).
  destruct (start g) as [sl g0] eqn:Es.
  assert (Hinit : carries (mkBuilder [] [] sl) []).
  { exists []. split; reflexivity. }
  destruct (forEachStatement_simple fraction
              (fun body label => flattenBody depth fraction false body (Some label))
              hoist body Hbody _ _ g0 Hinit) as (b & g1 & E & (p & Hpre & Hc)).
  unfold bindOpt, bind. rewrite E. unfold ret.
  destruct (finish_spec None None b g1) as (nl & g2 & Ef & _). rewrite Ef.
  cbn [chunks given default]. rewrite popLast_snoc.
  cbn [Chunking.label Chunking.body]. rewrite removelast_last.
  eexists _, g2. split; [reflexivity|].
  rewrite (follow_chained _ _ _ _ Hc). cbn [app] in Hpre. rewrite Hpre. reflexivity.
Qed.

Lemma straight_line_code_becomes_a_chain_witness :
  let body := [CFFSamples.var "a" 1; CFFSamples.assign "a" (NumLit 2);
               CFFSamples.var "b" 3; ReturnStatement (Identifier "a")] in
  exists cs g',
    flattenBody 1 (Fraction.fraction 4) true body (Some "L0") Samples.rng_c = (Some cs, g') /\
    follow cs = Some body.
Proof.
  intros body.
  apply (straight_line_code_becomes_a_chain 0 (Fraction.fraction 4) true body (Some "L0")
           Samples.rng_c).
  repeat constructor.
Defined.

End ChainFacts.

(** *** Control Flow Flattening: the tests of the cases *)
Section CaseFacts.
Import Random Ast JSNum Placeholder Chunking Eval StateEncoding Assemble.

(** What [encodeStates] leaves: distinct totals, one per label, and under
    the last label the vector whose sum is the last total. *)
Lemma encodeStates_totals (fuel : nat) (labels : list string) (g g' : RNG) (e : encoding) :
  encodeStates fuel labels g = (Some e, g') ->
  length (caseStates e) = length labels /\
  NoDup (caseStates e) /\
  forall l v, List.last (map Some labels) None = Some l ->
              labelToStates e !! l = Some v ->
              getCurrentState v = nth (length labels - 1) (caseStates e) 0.
Proof.
  intros Hrun. unfold encodeStates, bind, ret in Hrun.
  destruct (selectStates fuel (length labels) [] g) as [[cs|] g1] eqn:Esel;
    [|discriminate].
  pose proof (selectStates_spec _ _ _ _ _ _ Esel NoDup_nil_2
                (fun _ => Forall_nil_2 _)) as (Hlen & Hnd & _).
  pose proof (getRandomInteger_range 2 5 g1 ltac:(lia)) as Hk.
  destruct (getRandomInteger 2 5 g1) as [k g2]; simpl in Hk.
  pose proof (replicateM_length (Z.to_nat k) Placeholder.getPlaceholder g2) as Hvars.
  destruct (replicateM (Z.to_nat k) Placeholder.getPlaceholder g2) as [vars g3];
    simpl in Hvars.
  destruct (Placeholder.getPlaceholder g3) as [sw g4].
  assert (Hkpos : (0 < length vars)%nat) by lia.
  pose proof (assignStates_vectors (length vars) (combine labels cs) ∅ g4 Hkpos) as Hvec.
  pose proof (fun i l st => assignStates_lookup (length vars) (combine labels cs) ∅ g4 i l st)
    as Hmap.
  destruct (assignStates (length vars) (combine labels cs) ∅ g4) as [[vs m] g5];
    simpl in *.
  injection Hrun as <- <-. simpl.
  split; [exact Hlen|]. split; [exact Hnd|].
  intros l v Hlast Hv.
  destruct labels as [|l' front _] using rev_ind; [discriminate|].
  rewrite map_app in Hlast. cbn [map] in Hlast. rewrite last_last in Hlast.
  injection Hlast as ->.
  rewrite length_app in *. cbn [length] in *.
  assert (Hi : nth_error (front ++ [l]) (length front) = Some l).
  { rewrite nth_error_app2, Nat.sub_diag; [reflexivity|lia]. }
  destruct (nth_error_combine_same_length (front ++ [l]) cs (length front) l
              ltac:(rewrite length_app; cbn; lia) Hi) as [st Hst].
  specialize (Hmap (length front) l st Hst).
  rewrite skipn_all2 in Hmap by (rewrite length_combine, length_app; cbn; lia).
  specialize (Hmap ltac:(intros [])). rewrite Hv in Hmap. symmetry in Hmap.
  replace (length front + 1 - 1)%nat with (length front) by lia.
  rewrite getCurrentState_sum.
  assert (Hcs : nth_error cs (length front) = Some st).
  { clear - Hst. revert cs Hst. generalize (front ++ [l])%list (length front).
    intros ls n. revert ls. induction n as [|n IH]; intros [|a ls] [|c cs] H;
      try discriminate; cbn in *; [congruence|eapply IH, H]. }
  rewrite (nth_error_nth _ _ _ Hcs).
  clear - Hvec Hmap Hst. revert vs Hvec Hmap Hst.
  generalize (combine (front ++ [l]) cs) (length front). intros cb n. revert cb.
  induction n as [|n IH]; intros cb vs Hvec Hmap Hst.
  - destruct Hvec as [|v0 c0 ? ? [_ Hs] _]; [discriminate|].
    cbn in *. injection Hmap as ->. injection Hst as ->. exact Hs.
  - destruct Hvec as [|v0 c0 ? ? _ Hrest]; [discriminate|]. cbn in *.
    eapply IH; eassumption.
Qed.

Lemma makeCases_orders (e : encoding) (endLabel : string) (chunks : list chunk) :
  forall (i : nat) (g g' : RNG) (cases : list case),
    makeCases e endLabel chunks i g = (Some cases, g') ->
    Forall (fun c => state c = nth (order c) (caseStates e) 0 /\
                     (i <= order c)%nat /\
                     exists ch, nth_error chunks (order c - i) = Some ch /\
                                label ch <> endLabel) cases /\
    StronglySorted lt (map order cases) /\
    length cases
    = length (List.filter (fun c => negb (String.eqb (label c) endLabel)) chunks).
Proof.
  induction chunks as [|c rest IH]; intros i g g' cases H.
  - injection H as <- <-. repeat constructor.
  - cbn [makeCases] in H. cbn [List.filter].
    assert (Hshift : forall cs',
      Forall (fun c0 => state c0 = nth (order c0) (caseStates e) 0 /\
                        (S i <= order c0)%nat /\
                        exists ch, nth_error rest (order c0 - S i) = Some ch /\
                                   label ch <> endLabel) cs' ->
      Forall (fun c0 => state c0 = nth (order c0) (caseStates e) 0 /\
                        (i <= order c0)%nat /\
                        exists ch, nth_error (c :: rest) (order c0 - i) = Some ch /\
                                   label ch <> endLabel) cs').
    { intros cs'. apply List.Forall_impl. intros c0 (H1 & H2 & ch & H3 & H4).
      split; [exact H1|]. split; [lia|]. exists ch. split; [|exact H4].
      replace (order c0 - i)%nat with (S (order c0 - S i)) by lia. exact H3. }
    destruct (String.eqb (label c) endLabel) eqn:El; cbn [negb].
    + destruct (IH _ _ _ _ H) as (Hall & Hs & Hlen). auto.
    + destruct (labelToStates e !! label c) as [chunkStates|]; [|discriminate].
      unfold bindOpt, bind, ret in H.
      destruct (rewriteChunk _ _ _ _ _ g) as [[caseBody|] g1]; [|discriminate].
      destruct (makeCases e endLabel rest (S i) g1) as [[cases'|] g2] eqn:E; [|discriminate].
      injection H as <- <-. destruct (IH _ _ _ _ E) as (Hall & Hs & Hlen).
      split; [|split].
      * constructor; [|apply Hshift, Hall]. cbn [state order].
        split; [reflexivity|]. split; [lia|]. exists c. rewrite Nat.sub_diag.
        split; [reflexivity|]. apply String.eqb_neq, El.
      * cbn [map order]. constructor; [exact Hs|].
        rewrite List.Forall_map. eapply List.Forall_impl; [|exact Hall].
        intros c0 (_ & H2 & _). lia.
      * cbn [length]. rewrite Hlen. reflexivity.
Qed.

(** X14.  Every state total selects at most one case, and the total
    of the end label selects none: the tests of the cases made for the
    chunks are pairwise distinct, none of them is the total that ends the
    loop, and there is one case for every chunk that does not carry the end
    label. *)
Theorem every_total_selects_one_case (fuel : nat) (chunks : list chunk)
    (g g1 g2 : RNG) (e : encoding) (cases : list case) (endStateValues : list Z) :
  chunks <> [] ->
  encodeStates fuel (map label chunks) g = (Some e, g1) ->
  labelToStates e !! label (List.last chunks (mkChunk "" [])) = Some endStateValues ->
  makeCases e (label (List.last chunks (mkChunk "" []))) chunks 0 g1 = (Some cases, g2) ->
  NoDup (map state cases) /\
  ~ In (getCurrentState endStateValues) (map state cases) /\
  length cases
  = length (List.filter
              (fun c => negb (String.eqb (label c)
                                (label (List.last chunks (mkChunk "" []))))) chunks).
Proof.
  intros Hne. set (endLabel := label (List.last chunks (mkChunk "" []))).
  assert (Hlast : List.last (map Some (map label chunks)) None = Some endLabel).
  { subst endLabel. destruct chunks as [|c' front _] using rev_ind; [contradiction|].
    rewrite !map_app. cbn [map]. rewrite !last_last. reflexivity. }
  clearbody endLabel. intros Henc Hend Hmk.
  destruct (encodeStates_totals _ _ _ _ _ Henc) as (Hlen & Hnd & Hsum).
  rewrite length_map in Hlen, Hsum.
  specialize (Hsum _ _ Hlast Hend).
  destruct (makeCases_orders _ _ _ _ _ _ _ Hmk) as (Hall & Hs & Hn).
  assert (Hin : forall c, In c cases ->
                  state c = nth (order c) (caseStates e) 0 /\
                  (order c < length chunks - 1)%nat).
  { intros c Hc. rewrite List.Forall_forall in Hall.
    destruct (Hall c Hc) as (H1 & _ & ch & H3 & H4). split; [exact H1|].
    rewrite Nat.sub_0_r in H3.
    assert (order c < length chunks)%nat by (apply nth_error_Some; congruence).
    destruct (Nat.eq_dec (order c) (length chunks - 1)%nat) as [E|E]; [|lia].
    exfalso. apply H4. rewrite E in H3. clear Hne.
    destruct chunks as [|c' front _] using rev_ind; [discriminate|].
    rewrite !map_app in Hlast. cbn [map] in Hlast. rewrite last_last in Hlast.
    rewrite length_app in H3. cbn [length] in H3.
    rewrite nth_error_app2 in H3 by lia.
    replace (length front + 1 - 1 - length front)%nat with 0%nat in H3 by lia.
    cbn in H3, Hlast. congruence. }
  apply NoDup_ListNoDup in Hnd.
  split; [|split; [|exact Hn]].
  - clear Hmk Hall Hn. induction cases as [|c cases IH]; [constructor|].
    cbn [map] in *. apply StronglySorted_inv in Hs as [Hs Hlt].
    constructor; [|apply IH; [exact Hs|intros; apply Hin; right; assumption]].
    intros Hc. apply list_elem_of_In, in_map_iff in Hc as (c' & Hst & Hc').
    destruct (Hin c (or_introl eq_refl)) as [E1 B1].
    destruct (Hin c' (or_intror Hc')) as [E2 B2].
    rewrite List.Forall_forall in Hlt. specialize (Hlt (order c') (in_map _ _ _ Hc')).
    rewrite E1, E2 in Hst.
    apply (proj1 (NoDup_nth (caseStates e) 0) Hnd) in Hst; lia.
  - intros Hc. apply in_map_iff in Hc as (c & Hst & Hc).
    destruct (Hin c Hc) as [E1 B1]. rewrite Hsum, E1 in Hst.
    apply (proj1 (NoDup_nth (caseStates e) 0) Hnd) in Hst; lia.
Qed.

Lemma every_total_selects_one_case_witness :
  let chunks := [mkChunk "L0" [GotoStatement "L1"];
                 mkChunk "L1" [GotoStatement "END_LABEL"];
                 mkChunk "END_LABEL" []] in
  let run := encodeStates 8 (map label chunks) Samples.rng_collide in
  exists e v cases g2,
    fst run = Some e /\ labelToStates e !! "END_LABEL" = Some v /\
    makeCases e "END_LABEL" chunks 0 (snd run) = (Some cases, g2) /\
    NoDup (map state cases) /\ ~ In (getCurrentState v) (map state cases).
Proof.
  intros chunks run.
  destruct (fst run) as [e|] eqn:Ee; [|vm_compute in Ee; discriminate].
  assert (Hrun : encodeStates 8 (map label chunks) Samples.rng_collide = (Some e, snd run)).
  { rewrite <- Ee. apply surjective_pairing. }
  pose proof Ee as Ec. vm_compute in Ec. injection Ec as Ec.
  assert (Hv : exists v, labelToStates e !! "END_LABEL" = Some v).
  { rewrite <- Ec. vm_compute. eexists. reflexivity. }
  destruct Hv as [v Ev].
  assert (Hm : exists cases g2,
             makeCases e "END_LABEL" chunks 0 (snd run) = (Some cases, g2)).
  { rewrite <- Ec. vm_compute. eexists _, _. reflexivity. }
  destruct Hm as (cases & g2 & Em).
  exists e, v, cases, g2. split; [reflexivity|]. split; [exact Ev|].
  split; [exact Em|].
  destruct (every_total_selects_one_case 8 chunks Samples.rng_collide (snd run) g2 e
              cases v ltac:(discriminate) Hrun Ev Em) as (H1 & H2 & _).
  split; assumption.
Defined.

End CaseFacts.

(** *** Flatten: the inputs and outputs of a flattened function *)
Section FlattenScanFacts.
Import Ast Scope FlattenScan.

Lemma has_In (x : string) (s : list string) : has x s = true <-> In x s.
Proof.
  unfold has. rewrite existsb_exists. split.
  - intros (y & Hy & E). apply String.eqb_eq in E. subst. exact Hy.
  - intros H. exists x. split; [exact H|apply String.eqb_refl].
Qed.

Lemma add_In (x y : string) (s : list string) : In x (add y s) <-> x = y \/ In x s.
Proof.
  unfold add. destruct (has y s) eqn:E.
  - apply has_In in E. split; [auto|]. intros [->|H]; assumption.
  - rewrite in_app_iff. cbn. split; [intros [H|[H|[]]]; auto|intros [H|H]; auto].
Qed.

Lemma add_NoDup (y : string) (s : list string) : List.NoDup s -> List.NoDup (add y s).
Proof.
  intros H. unfold add. destruct (has y s) eqn:E; [exact H|].
  assert (~ In y s) by (rewrite <- has_In, E; discriminate).
  apply List.NoDup_app; [exact H|repeat constructor; intros []|].
  intros x Hx [<-|[]]. contradiction.
Qed.

Lemma delete_In (x y : string) (s : list string) : In x (delete y s) <-> In x s /\ x <> y.
Proof.
  unfold delete. rewrite filter_In, negb_true_iff, String.eqb_neq. reflexivity.
Qed.

Lemma delete_NoDup (y : string) (s : list string) : List.NoDup s -> List.NoDup (delete y s).
Proof. apply List.NoDup_filter. Qed.

Lemma setOf_from (xs s : list string) :
  List.NoDup s ->
  exists more, fold_left (fun s x => add x s) xs s = (s ++ more)%list /\
               List.NoDup (s ++ more) /\
               forall x, In x (s ++ more) <-> In x s \/ In x xs.
Proof.
  revert s. induction xs as [|y xs IH]; intros s Hs.
  - exists []. rewrite app_nil_r. split; [reflexivity|]. split; [exact Hs|]. cbn. tauto.
  - cbn [fold_left]. destruct (IH (add y s) (add_NoDup y s Hs)) as (more & E & Hnd & Hin).
    unfold add in E, Hnd, Hin |- *. destruct (has y s) eqn:Ey.
    + exists more. split; [exact E|]. split; [exact Hnd|]. intros x. rewrite Hin.
      apply has_In in Ey. cbn. split; [tauto|]. intros [H|[<-|H]]; auto.
    + exists (y :: more). rewrite <- app_assoc in E, Hnd, Hin. cbn [app] in E, Hnd, Hin.
      split; [exact E|]. split; [exact Hnd|]. intros x.
      pose proof (Hin x) as Hx. rewrite (in_app_iff s [y]) in Hx. cbn in *. tauto.
Qed.

Lemma setOf_app (xs ys : list string) :
  List.NoDup xs ->
  exists more, setOf (xs ++ ys) = (xs ++ more)%list /\ List.NoDup (xs ++ more) /\
               forall x, In x (xs ++ more) <-> In x xs \/ In x ys.
Proof.
  intros Hxs. unfold setOf. rewrite fold_left_app.
  assert (E : fold_left (fun s x => add x s) xs [] = xs).
  { assert (forall s, List.NoDup (s ++ xs) ->
                      fold_left (fun s x => add x s) xs s = (s ++ xs)%list) as H.
    { clear. induction xs as [|x xs IH]; intros s Hs; [symmetry; apply app_nil_r|].
      cbn [fold_left]. unfold add at 2. destruct (has x s) eqn:E.
      - apply has_In in E. apply List.NoDup_remove_2 in Hs. exfalso. apply Hs.
        apply in_or_app. left. exact E.
      - rewrite IH; rewrite <- app_assoc; [reflexivity|exact Hs]. }
    apply (H []). exact Hxs. }
  rewrite E. apply setOf_from, Hxs.
Qed.

Section WithOptions.
Variable globalVariables : gset string.
Variable reservedIdentifiers : gset string.
Variable definedNames : list (gset string).

Notation eligible := (eligible globalVariables reservedIdentifiers).
Notation callback := (callback globalVariables reservedIdentifiers).
Notation scan := (scan globalVariables reservedIdentifiers).
Notation counted := (counted globalVariables reservedIdentifiers).
Notation definedBy := (definedBy globalVariables reservedIdentifiers).
Notation modifiedBy := (modifiedBy globalVariables reservedIdentifiers).
Notation referencedBy := (referencedBy globalVariables reservedIdentifiers).
Notation hiddenBy := (hiddenBy globalVariables reservedIdentifiers).
Notation reached := (reached globalVariables reservedIdentifiers).
Notation collects := (collects globalVariables reservedIdentifiers).

Lemma collects_refl (s : sets) : collects [] s s.
Proof.
  split; try (intros x; split; [auto|intros [H|(v & [] & _)]; exact H]).
  - auto.
  - intros v [].
Qed.

Lemma ex_in_app {A : Type} (P : A -> Prop) (l1 l2 : list A) :
  (exists v, In v (l1 ++ l2) /\ P v) <->
  (exists v, In v l1 /\ P v) \/ (exists v, In v l2 /\ P v).
Proof.
  split.
  - intros (v & Hv & HP). apply in_app_iff in Hv as [Hv|Hv]; [left|right]; exists v; auto.
  - intros [(v & Hv & HP)|(v & Hv & HP)]; exists v; rewrite in_app_iff; auto.
Qed.

Lemma collects_trans (vs1 vs2 : list visit) (s0 s1 s2 : sets) :
  collects vs1 s0 s1 -> collects vs2 s1 s2 -> collects (vs1 ++ vs2) s0 s2.
Proof.
  intros [D1 M1 R1 I1 N1 X1] [D2 M2 R2 I2 N2 X2].
  split.
  - intros x. rewrite D2, D1. unfold FlattenScan.definedBy. rewrite ex_in_app. tauto.
  - intros x. rewrite M2, M1. unfold FlattenScan.modifiedBy. rewrite ex_in_app. tauto.
  - intros x. rewrite R2, R1. unfold FlattenScan.referencedBy. rewrite ex_in_app. tauto.
  - intros x. rewrite I2, I1. unfold FlattenScan.hiddenBy. rewrite ex_in_app. tauto.
  - intros Hd Hm Hr. destruct (N1 Hd Hm Hr) as (? & ? & ?). apply N2; assumption.
  - intros v Hv. apply in_app_iff in Hv as [Hv|Hv]; [apply X1, Hv|apply X2, Hv].
Qed.

Lemma callback_collects (v : visit) (s s' : sets) :
  callback v s = (s', false) -> collects [v] s s'.
Proof.
  unfold FlattenScan.callback. intros H.
  destruct (isOwnId v) eqn:Eo;
    [|destruct (eligible (node v)) as [name|] eqn:Ee;
      [destruct (isReferenced (info v)) eqn:Er; cbn [negb] in H;
       [destruct (hidden v) eqn:Eh;
        [|destruct (isDefined (info v)) eqn:Ed;
          [|destruct (isModified (info v)) eqn:Em]]|]|]];
    injection H; clear H; intros; subst s';
    split; cbn [defined modified references illegal].
  all: try (intros Hd Hm Hr; repeat split; try apply add_NoDup; assumption).
  all: try (intros v0 [<-|[]]; unfold FlattenScan.reached; try assumption;
            naive_solver congruence).
  all: intros x; rewrite ?add_In;
    try unfold FlattenScan.definedBy; try unfold FlattenScan.modifiedBy;
    try unfold FlattenScan.referencedBy; try unfold FlattenScan.hiddenBy;
    try unfold FlattenScan.counted; cbn [In]; naive_solver congruence.
Qed.

Lemma scan_collects (vs : list visit) :
  forall s s', scan vs s = (s', false) -> collects vs s s'.
Proof.
  induction vs as [|v rest IH]; intros s s' H.
  - injection H as <-. apply collects_refl.
  - cbn [FlattenScan.scan] in H. destruct (callback v s) as [s1 [|]] eqn:Ec; [discriminate|].
    apply (collects_trans [v] rest s s1 s'); [apply callback_collects, Ec|apply IH, H].
Qed.

Lemma withoutDefined_from (ds : list string) :
  forall s,
    let r := fold_left (fun s name =>
                          mkSets (defined s) (delete name (references s))
                            (delete name (modified s)) (illegal s)) ds s in
    (forall x, In x (modified r) <-> In x (modified s) /\ ~ In x ds) /\
    (forall x, In x (references r) <-> In x (references s) /\ ~ In x ds) /\
    (List.NoDup (modified s) -> List.NoDup (modified r)) /\
    (List.NoDup (references s) -> List.NoDup (references r)).
Proof.
  induction ds as [|d ds IH]; intros s; cbn [fold_left].
  - cbn. repeat split; tauto.
  - destruct (IH (mkSets (defined s) (delete d (references s))
                    (delete d (modified s)) (illegal s))) as (Hm & Hr & Nm & Nr).
    cbn [modified references] in *.
    assert (Hstep : forall (l : list string) (x : string) (P : Prop),
               (P <-> In x (delete d l) /\ ~ In x ds) ->
               (P <-> In x l /\ ~ In x (d :: ds))).
    { intros l x P HP. rewrite HP, delete_In. cbn [In]. split.
      - intros [[H1 H2] H3]. split; [exact H1|]. intros [E|E]; [auto|contradiction].
      - intros [H1 H2]. repeat split; [exact H1|intros ->; apply H2; left; reflexivity|].
        intros H3. apply H2. right. exact H3. }
    split; [intros x; apply Hstep, Hm|]. split; [intros x; apply Hstep, Hr|].
    split; intros H; [apply Nm|apply Nr]; apply delete_NoDup, H.
Qed.

(** X15.  What [Flatten] passes to a flattened function and
    takes back from it: when the names of the identifiers are not empty
    and the function is flattened, [input] has no name twice and starts
    with [output]; an input is a name that the function reads or writes
    and does not define, an output one that it writes and does not define;
    every input is defined in a context above and is neither a global
    variable nor reserved; and the walk met no hidden identifier and none
    of the node types that rule flattening out. *)
Theorem flattened_function_inputs (vs : list visit) (input output : list string) :
  (forall v x, In v vs -> eligible (node v) = Some x -> x <> "") ->
  classify globalVariables reservedIdentifiers definedNames vs = Some (input, output) ->
  NoDup input /\
  (exists rest, input = (output ++ rest)%list) /\
  (forall x, In x input <->
             (modifiedBy vs x \/ referencedBy vs x) /\ ~ definedBy vs x) /\
  (forall x, In x output <-> modifiedBy vs x /\ ~ definedBy vs x) /\
  (forall x, In x input ->
             x ∈ ⋃ definedNames /\ x ∉ globalVariables /\ x ∉ reservedIdentifiers) /\
  (forall v, In v vs -> reached v -> exits (node v) = false) /\
  (forall x, ~ hiddenBy vs x).
Proof.
  intros Hnames H. unfold classify in H.
  destruct (scan vs (mkSets [] [] [] [])) as [s [|]] eqn:Es; [discriminate|].
  destruct (scan_collects _ _ _ Es) as [D M R I N X].
  cbn [defined modified references illegal In] in D, M, R, I, N.
  destruct (N (List.NoDup_nil _) (List.NoDup_nil _) (List.NoDup_nil _)) as (_ & Nm & Nr).
  destruct (Nat.eqb (length (illegal s)) 0) eqn:El; [|discriminate]. cbn [negb] in H.
  apply Nat.eqb_eq, length_zero_iff_nil in El.
  unfold withoutDefined in H.
  destruct (withoutDefined_from (defined s) s) as (Hm & Hr & Nm' & Nr').
  set (s1 := fold_left _ (defined s) s) in *.
  destruct (setOf_app (modified s1) (references s1) (Nm' Nm)) as (more & E & Nin & Hin).
  rewrite E in H.
  assert (Hall : input = (modified s1 ++ more)%list /\ output = modified s1 /\
                 forall x, In x input -> x ∈ definedAbove globalVariables definedNames).
  { destruct (List.find _ (modified s1 ++ more)) as [x|] eqn:Ef.
    - apply find_some in Ef as [Hx _].
      destruct (String.eqb x "") eqn:Ex; [|discriminate].
      apply String.eqb_eq in Ex. subst x. exfalso.
      apply Hin in Hx. destruct Hx as [Hx|Hx].
      + apply Hm in Hx as [Hx _]. apply M in Hx as [[]|(v & Hv & (_ & He & _) & _)].
        exact (Hnames v "" Hv He eq_refl).
      + apply Hr in Hx as [Hx _]. apply R in Hx as [[]|(v & Hv & (_ & He & _) & _)].
        exact (Hnames v "" Hv He eq_refl).
    - injection H as <- <-. split; [reflexivity|]. split; [reflexivity|].
      intros x Hx. pose proof (find_none _ _ Ef x Hx) as Hd.
      apply negb_false_iff, bool_decide_eq_true in Hd. exact Hd. }
  destruct Hall as (-> & -> & Habove).
  assert (Hdef : forall x, In x (defined s) <-> definedBy vs x).
  { intros x. rewrite D. tauto. }
  assert (Hmod : forall x, In x (modified s1) <-> modifiedBy vs x /\ ~ definedBy vs x).
  { intros x. rewrite Hm, M, Hdef. tauto. }
  assert (Href : forall x, In x (references s1) <-> referencedBy vs x /\ ~ definedBy vs x).
  { intros x. rewrite Hr, R, Hdef. tauto. }
  split; [apply NoDup_ListNoDup, Nin|]. split; [exists more; reflexivity|].
  split; [intros x; rewrite Hin, Hmod, Href; tauto|]. split; [exact Hmod|].
  split; [|split; [exact X|]].
  - intros x Hx. pose proof (Habove x Hx) as Ha.
    assert (He : exists v, eligible (node v) = Some x).
    { apply Hin in Hx as [Hx|Hx]; [apply Hmod in Hx as [(v & _ & (_ & He & _) & _) _]
                                  |apply Href in Hx as [(v & _ & (_ & He & _) & _) _]];
        exists v; exact He. }
    destruct He as (v & He). unfold FlattenScan.eligible in He.
    destruct (node v) as [[] cs]; try discriminate.
    destruct (bool_decide (name ∈ globalVariables)) eqn:Eg; [discriminate|].
    destruct (bool_decide (name ∈ reservedIdentifiers)) eqn:Er; [discriminate|].
    injection He as ->. apply bool_decide_eq_false in Eg, Er.
    unfold definedAbove in Ha. apply elem_of_union in Ha as [Ha|Ha]; [contradiction|].
    auto.
  - intros x Hx. assert (In x (illegal s)) as Hi by (apply I; right; exact Hx).
    rewrite El in Hi. destruct Hi.
Qed.

End WithOptions.

Lemma flattened_function_inputs_witness :
  let id (x : string) (d m : bool) :=
    mkVisit (Identifier x) (mkInfo true d m false false) false false in
  let vs := [mkVisit (Identifier "f") (mkInfo true true false true false) false true;
             id "a" true false; id "x" false true; id "a" false false;
             id "y" false false; id "t" true false; id "x" false false;
             id "t" false false; mkVisit (ReturnStatement (Identifier "t"))
                                   (mkInfo false false false false false) false false] in
  classify {[ "window" ]} {[ "undefined" ]} [{[ "x"; "y" ]}] vs = Some (["x"; "y"], ["x"]) /\
  NoDup ["x"; "y"] /\
  (forall x, In x ["x"] <->
             modifiedBy {[ "window" ]} {[ "undefined" ]} vs x /\
             ~ definedBy {[ "window" ]} {[ "undefined" ]} vs x).
Proof.
  intros id vs.
  assert (E : classify {[ "window" ]} {[ "undefined" ]} [{[ "x"; "y" ]}] vs
              = Some (["x"; "y"], ["x"])) by (vm_compute; reflexivity).
  split; [exact E|].
  destruct (flattened_function_inputs {[ "window" ]} {[ "undefined" ]} [{[ "x"; "y" ]}]
              vs ["x"; "y"] ["x"]) as (H1 & _ & _ & H2 & _); [|exact E|split; assumption].
  intros v x Hv He.
  repeat (destruct Hv as [<-|Hv]; [vm_compute in He; try discriminate;
                                   injection He as <-; discriminate|]).
  destruct Hv.
Defined.

End FlattenScanFacts.

(** *** RGF: every declaration has its slot *)
Section SlotFacts.
Import Ast Slots.

Lemma declared_app (q1 q2 : list entry) :
  declared (q1 ++ q2) = (declared q1 ++ declared q2)%list.
Proof. unfold declared. apply flat_map_app. Qed.

Lemma assignNames_app (q1 q2 : list entry) :
  assignNames (q1 ++ q2) = fold_left assignIndex q2 (assignNames q1).
Proof. unfold assignNames. apply fold_left_app. Qed.

Lemma fillAll_app (names : gmap string nat) (q1 q2 : list entry) :
  fillAll names (q1 ++ q2) = fold_left (fill names) q2 (fillAll names q1).
Proof. unfold fillAll. apply fold_left_app. Qed.

(** When the declarations have distinct names, each name maps to the
    position of its declaration, and no other name is mapped. *)
Lemma assignNames_spec (queue : list entry) :
  NoDup (map fst (declared queue)) ->
  size (assignNames queue) = length (declared queue) /\
  (forall i name content, declared queue !! i = Some (name, content) ->
                          assignNames queue !! name = Some i) /\
  (forall name, name ∉ map fst (declared queue) -> assignNames queue !! name = None).
Proof.
  induction queue as [|q queue IH] using rev_ind; intros Hnd.
  - split; [reflexivity|]. split; [intros i name content H; discriminate|].
    intros name _. apply lookup_empty.
  - rewrite declared_app, map_app in Hnd. rewrite assignNames_app, declared_app.
    cbn [fold_left]. apply NoDup_app in Hnd as (Hnd1 & Hdis & Hnd2).
    destruct (IH Hnd1) as (Hsize & Hlook & Hnone). clear IH.
    destruct q as [name content|content]; cbn [assignIndex declared flat_map app].
    + assert (Hfresh : name ∉ map fst (declared queue)).
      { intros Hin. apply (Hdis name Hin). unfold declared. cbn. left. }
      rewrite length_app. cbn [length]. split; [|split].
      * rewrite map_size_insert_None; [lia|apply Hnone, Hfresh].
      * intros i name' content' Hi. apply lookup_app_Some in Hi as [Hi|[Hge Hi]].
        -- rewrite lookup_insert_ne; [apply (Hlook _ _ _ Hi)|].
           intros <-. apply Hfresh. apply list_elem_of_fmap. exists (name, content').
           split; [reflexivity|]. eapply list_elem_of_lookup_2, Hi.
        -- destruct (i - length (declared queue))%nat as [|k] eqn:Ek; [|discriminate].
           injection Hi as <- <-. rewrite lookup_insert_eq. f_equal. lia.
      * intros name' Hn. rewrite map_app in Hn. cbn in Hn.
        rewrite lookup_insert_ne; [apply Hnone|].
        -- intros Hin. apply Hn, elem_of_app. left. exact Hin.
        -- intros <-. apply Hn, elem_of_app. right. left.
    + rewrite app_nil_r. auto.
Qed.

(** With such a map, the array is filled from left to right, a slot for
    each declaration. *)
Lemma fillAll_prefix (names : gmap string nat) (whole : list entry) :
  (forall i name content, declared whole !! i = Some (name, content) ->
                          names !! name = Some i) ->
  forall front rest, whole = (front ++ rest)%list ->
    fillAll names front = map (fun d => Some d.2) (declared front).
Proof.
  intros Hnames front. induction front as [|q front IH] using rev_ind; intros rest E.
  - reflexivity.
  - rewrite fillAll_app, declared_app, map_app. cbn [fold_left].
    rewrite (IH ([q] ++ rest)%list) by (rewrite E, <- app_assoc; reflexivity).
    destruct q as [name content|content]; cbn [fill declared flat_map app map];
      [|rewrite app_nil_r; reflexivity].
    rewrite (Hnames (length (declared front)) name content).
    + unfold store. rewrite length_map, Nat.ltb_irrefl, Nat.sub_diag. reflexivity.
    + rewrite E, !declared_app, <- app_assoc.
      change (declared [Declaration name content]) with [(name, content)].
      apply list_lookup_middle. reflexivity.
Qed.

(** X16.  When the function declarations of the queue have pairwise
    distinct names, the reference array has one slot for each of them and no
    hole, in the order of the queue, and the index recorded under the name
    of a declaration is the slot that holds its function. *)
Theorem every_declaration_has_its_slot (queue : list entry) :
  NoDup (map fst (declared queue)) ->
  fillAll (assignNames queue) queue = map (fun d => Some d.2) (declared queue) /\
  forall i name content,
    declared queue !! i = Some (name, content) ->
    assignNames queue !! name = Some i /\
    fillAll (assignNames queue) queue !! i = Some (Some content).
Proof.
  intros Hnd. destruct (assignNames_spec queue Hnd) as (_ & Hlook & _).
  assert (E : fillAll (assignNames queue) queue
              = map (fun d => Some d.2) (declared queue)).
  { apply (fillAll_prefix _ queue Hlook queue []). symmetry. apply app_nil_r. }
  split; [exact E|]. intros i name content Hi. split; [apply (Hlook _ _ _ Hi)|].
  rewrite E. change (map ?f ?l) with (f <$> l). rewrite list_lookup_fmap, Hi. reflexivity.
Qed.

Lemma every_declaration_has_its_slot_witness :
  let queue := [Declaration "f" (NumLit 1); Expression (NumLit 2);
                Declaration "g" (NumLit 3)] in
  assignNames queue !! "g" = Some 1%nat /\
  fillAll (assignNames queue) queue = [Some (NumLit 1); Some (NumLit 3)].
Proof.
  intros queue.
  assert (Hnd : NoDup (map fst (declared queue))) by (vm_compute; repeat constructor; set_solver).
  destruct (every_declaration_has_its_slot queue Hnd) as [E H].
  split; [|exact E]. apply (H 1%nat "g" (NumLit 3)). reflexivity.
Defined.

End SlotFacts.

(** *** Dispatcher: a dispatched function is declared once and never reassigned *)
Section DispatcherScanFacts.
Import Ast Scope DispatcherScan.
Variable reservedIdentifiers : gset string.

Notation callback := (callback reservedIdentifiers).
Notation collect := (collect reservedIdentifiers).
Notation spoils := (spoils reservedIdentifiers).
Notation pushed := (pushed reservedIdentifiers).

Lemma identifier_spec (v : visit) (st : state) :
  isObject v = false ->
  functionDeclarations (identifier reservedIdentifiers v st) = functionDeclarations st /\
  illegalFnNames st ⊆ illegalFnNames (identifier reservedIdentifiers v st) /\
  (forall name, spoils v name ->
                name ∈ illegalFnNames (identifier reservedIdentifiers v st)) /\
  identifiers (identifier reservedIdentifiers v st)
  = (identifiers st ++ if pushed v then [identity v] else [])%list.
Proof.
  intros Eo.
  unfold identifier, DispatcherScan.spoils, DispatcherScan.pushed, Dispatcher.collected, flag.
  rewrite Eo. destruct (node v) as [k cs]. cbn [kind_of negb andb].
  destruct k; cbn beta iota;
    try (split; [reflexivity|]; split; [reflexivity|]; split;
         [intros name (_ & Hk & _); discriminate
         |symmetry; apply app_nil_r]).
  rename select string into name.
  destruct (bool_decide (name ∈ reservedIdentifiers)) eqn:Er; cbn [negb andb];
    [apply bool_decide_eq_true in Er|apply bool_decide_eq_false in Er];
  destruct (isReferenced (info v)) eqn:Ef; cbn [negb andb];
  destruct (isDefined (info v)) eqn:Ed; cbn [negb andb];
  destruct (isFunctionDeclaration (info v)) eqn:Efd;
  destruct (isModified (info v)) eqn:Em; cbn [negb andb];
  try destruct (parentDeclaration v) as [[parentName parent]|];
  try destruct (functionDeclarations st !! parentName) as [d|];
  try destruct (Nat.eqb d parent);
  cbn [functionDeclarations illegalFnNames identifiers];
  (split; [reflexivity|]; split; [clear; set_solver|]; split;
   [|rewrite ?app_nil_r; reflexivity]);
  intros name' (_ & [= <-] & Hres & Href & [[H1 H2]|[H1 H2]]);
  try congruence; try contradiction; clear; set_solver.
Qed.

Lemma declaration_kind (o : Node) (name : string) :
  declaration o = Some name -> exists a g, kind_of o = Ty.FunctionDeclaration a g.
Proof.
  destruct o as [k cs]. destruct k; try discriminate. intros _. eauto.
Qed.

(** A visit that declares a function is neither pushed nor an occurrence
    that spoils a name, and the second half of the callback passes it by. *)
Lemma declares_not_identifier (v : visit) (name : string) (st : state) :
  declares v name ->
  pushed v = false /\ (forall x, ~ spoils v x) /\ identifier reservedIdentifiers v st = st.
Proof.
  intros (_ & _ & Hd). apply declaration_kind in Hd as (a & g & Hk).
  unfold DispatcherScan.pushed, DispatcherScan.spoils, identifier.
  destruct (node v) as [k cs]. cbn [kind_of] in *. subst k.
  split; [apply andb_false_r|]. split; [|reflexivity].
  intros x (_ & Hk & _). discriminate.
Qed.

Lemma callback_spec (st : state) (v : visit) :
  let st' := callback st v in
  illegalFnNames st ⊆ illegalFnNames st' /\
  (forall x, spoils v x -> x ∈ illegalFnNames st') /\
  identifiers st' = (identifiers st ++ if pushed v then [identity v] else [])%list /\
  ((forall name, ~ declares v name) /\ functionDeclarations st' = functionDeclarations st \/
   exists name, declares v name /\
     (is_Some (functionDeclarations st !! name) /\
      functionDeclarations st' = functionDeclarations st /\ name ∈ illegalFnNames st' \/
      functionDeclarations st !! name = None /\
      functionDeclarations st' = <[ name := identity v ]> (functionDeclarations st) /\
      (unsuitable v = true \/ usesThis v = true -> name ∈ illegalFnNames st'))).
Proof.
  unfold DispatcherScan.callback. destruct (isObject v) eqn:Eo.
  { cbn zeta. split; [reflexivity|]. split; [intros x (Hx & _); congruence|].
    split; [unfold DispatcherScan.pushed; rewrite Eo, app_nil_r; reflexivity|].
    left. split; [intros name (Hx & _); congruence|reflexivity]. }
  unfold declare. destruct (inContext v) eqn:Ec;
    [destruct (declaration (node v)) as [name|] eqn:Ed|].
  - assert (Hdec : declares v name) by (repeat split; assumption).
    destruct (declares_not_identifier v name st Hdec) as (Hp & Hs & _).
    destruct (functionDeclarations st !! name) as [d|] eqn:Ef; cbn zeta.
    + cbn [illegalFnNames identifiers functionDeclarations].
      split; [destruct (unsuitable v); clear; set_solver|].
      split; [intros x Hx; destruct (Hs x Hx)|].
      split; [rewrite Hp, app_nil_r; reflexivity|].
      right. exists name. split; [exact Hdec|]. left.
      split; [eauto|]. split; [reflexivity|clear; set_solver].
    + rewrite (proj2 (proj2 (declares_not_identifier v name _ Hdec))).
      cbn [illegalFnNames identifiers functionDeclarations].
      split; [destruct (unsuitable v), (usesThis v); clear; set_solver|].
      split; [intros x Hx; destruct (Hs x Hx)|].
      split; [rewrite Hp, app_nil_r; reflexivity|].
      right. exists name. split; [exact Hdec|]. right.
      split; [first [reflexivity|exact Ef]|]. split; [reflexivity|].
      intros [H|H]; rewrite H; [destruct (usesThis v)|]; clear; set_solver.
  - cbn zeta. destruct (identifier_spec v st Eo) as (H1 & H2 & H3 & H4).
    split; [exact H2|]. split; [exact H3|]. split; [exact H4|].
    left. split; [intros name (_ & _ & Hx); congruence|exact H1].
  - cbn zeta. destruct (identifier_spec v st Eo) as (H1 & H2 & H3 & H4).
    split; [exact H2|]. split; [exact H3|]. split; [exact H4|].
    left. split; [intros name (_ & Hx & _); congruence|exact H1].
Qed.

Lemma collect_snoc (vs : list visit) (v : visit) :
  collect (vs ++ [v]) = callback (collect vs) v.
Proof. unfold DispatcherScan.collect. apply fold_left_app. Qed.

Lemma collect_inv (vs : list visit) :
  (forall name id,
      functionDeclarations (collect vs) !! name = Some id ->
      name ∉ illegalFnNames (collect vs) ->
      exists l1 v l2, vs = (l1 ++ v :: l2)%list /\ declares v name /\ identity v = id /\
                      unsuitable v = false /\ usesThis v = false /\
                      forall v', In v' (l1 ++ l2) -> ~ declares v' name) /\
  (forall v name, In v vs -> declares v name ->
                  is_Some (functionDeclarations (collect vs) !! name)) /\
  (forall v name, In v vs -> spoils v name -> name ∈ illegalFnNames (collect vs)) /\
  identifiers (collect vs) = map identity (List.filter pushed vs).
Proof.
  induction vs as [|v vs IH] using rev_ind.
  - split; [intros name id H; discriminate|]. split; [intros v name []|].
    split; [intros v name []|reflexivity].
  - destruct IH as (A & B & C & D). rewrite collect_snoc.
    destruct (callback_spec (collect vs) v) as (Hill & Hsp & Hids & Hdecl).
    cbn zeta in *. set (st := collect vs) in *. set (st' := callback st v) in *.
    split; [|split; [|split]].
    + intros name id Hlook Hnot.
      assert (Hnot0 : name ∉ illegalFnNames st) by (clear - Hill Hnot; set_solver).
      assert (Hext : functionDeclarations st !! name = Some id -> ~ declares v name ->
                exists l1 v0 l2, (vs ++ [v])%list = (l1 ++ v0 :: l2)%list /\
                  declares v0 name /\ identity v0 = id /\
                  unsuitable v0 = false /\ usesThis v0 = false /\
                  forall v', In v' (l1 ++ l2) -> ~ declares v' name).
      { intros Hl Hv. destruct (A name id Hl Hnot0) as (l1 & v0 & l2 & -> & H1 & H2 & H3 & H4 & H5).
        exists l1, v0, (l2 ++ [v])%list. split; [rewrite <- app_assoc; reflexivity|].
        split; [exact H1|]. split; [exact H2|]. split; [exact H3|]. split; [exact H4|].
        intros v' Hv'. rewrite app_assoc in Hv'.
        apply in_app_iff in Hv' as [Hv'|[<-|[]]]; [apply H5, Hv'|exact Hv]. }
      destruct Hdecl as [[Hno E]|(name' & Hd & [(Hsome & E & Hflag)|(Hnone & E & Hbad)])].
      * rewrite E in Hlook. apply Hext; [exact Hlook|apply Hno].
      * rewrite E in Hlook.
        assert (name <> name') by (intros ->; contradiction).
        apply Hext; [exact Hlook|].
        intros (_ & _ & Hx). destruct Hd as (_ & _ & Hy). congruence.
      * rewrite E in Hlook. destruct (decide (name = name')) as [->|Hne].
        -- rewrite lookup_insert_eq in Hlook. injection Hlook as <-.
           exists vs, v, []. split; [reflexivity|]. split; [exact Hd|].
           split; [reflexivity|].
           split; [destruct (unsuitable v); [exfalso; apply Hnot, Hbad; auto|reflexivity]|].
           split; [destruct (usesThis v); [exfalso; apply Hnot, Hbad; auto|reflexivity]|].
           intros v' Hv' Hd'. rewrite app_nil_r in Hv'.
           destruct (B v' name' Hv' Hd') as [d Hsome]. fold st in Hsome. congruence.
        -- rewrite lookup_insert_ne in Hlook by congruence.
           apply Hext; [exact Hlook|].
           intros (_ & _ & Hx). destruct Hd as (_ & _ & Hy). congruence.
    + intros v' name Hv' Hd'.
      assert (Hkeep : forall x, is_Some (functionDeclarations st !! x) ->
                                is_Some (functionDeclarations st' !! x)).
      { intros x Hx.
        destruct Hdecl as [[_ E]|(name' & _ & [(_ & E & _)|(_ & E & _)])]; rewrite E;
          [exact Hx|exact Hx|].
        destruct (decide (x = name')) as [->|Hne];
          [rewrite lookup_insert_eq; eauto|rewrite lookup_insert_ne by congruence; exact Hx]. }
      apply in_app_iff in Hv' as [Hv'|[<-|[]]]; [apply Hkeep, (B v' name Hv' Hd')|].
      destruct Hdecl as [[Hno _]|(name' & Hd & Hcase)]; [destruct (Hno name Hd')|].
      assert (name' = name) as ->.
      { destruct Hd as (_ & _ & Hx). destruct Hd' as (_ & _ & Hy). congruence. }
      destruct Hcase as [(Hsome & E & _)|(_ & E & _)]; rewrite E;
        [exact Hsome|rewrite lookup_insert_eq; eauto].
    + intros v' name Hv' Hs'. apply in_app_iff in Hv' as [Hv'|[<-|[]]];
        [apply Hill, (C v' name Hv' Hs')|apply Hsp, Hs'].
    + rewrite Hids, D, List.filter_app, map_app. cbn [List.filter].
      destruct (pushed v); reflexivity.
Qed.

(** X17.  A function is dispatched only when it is declared once
    in the context, by a declaration that is suitable and uses neither
    [arguments], [this] nor [super], and when no occurrence of its name is
    an assignment or another kind of definition; the occurrences kept for
    rewriting are the references that are neither definitions nor
    modifications, in the order of the walk. *)
Theorem dispatched_functions_are_declared_once (vs : list visit) (name : string) (id : nat) :
  dispatched reservedIdentifiers vs !! name = Some id ->
  (exists l1 v l2, vs = (l1 ++ v :: l2)%list /\ declares v name /\ identity v = id /\
                   unsuitable v = false /\ usesThis v = false /\
                   forall v', In v' (l1 ++ l2) -> ~ declares v' name) /\
  (forall v, In v vs -> ~ spoils v name) /\
  identifiers (collect vs) = map identity (List.filter pushed vs).
Proof.
  unfold dispatched. cbn zeta. intros H.
  apply map_lookup_filter_Some in H as [Hlook Hnot]. cbn [fst] in Hnot.
  destruct (collect_inv vs) as (A & _ & C & D).
  split; [exact (A name id Hlook Hnot)|]. split; [|exact D].
  intros v Hv Hs. apply Hnot, (C v name Hv Hs).
Qed.

End DispatcherScanFacts.

Lemma dispatched_functions_are_declared_once_witness :
  let fn (name : string) := Ast.Nd (Ast.Ty.FunctionDeclaration false false)
                              [Ast.Identifier name; Ast.Arr []; Ast.BlockStatement []] in
  let none := Scope.mkInfo false false false false false in
  let vs :=
    [DispatcherScan.mkVisit (fn "f") 1 false true false false false none None;
     DispatcherScan.mkVisit (Ast.Identifier "f") 2 false true false false false
       (Scope.mkInfo true true false true false) (Some ("f", 1%nat));
     DispatcherScan.mkVisit (fn "g") 3 false true false false true none None;
     DispatcherScan.mkVisit (Ast.Identifier "f") 4 false true false false false
       (Scope.mkInfo true false false false true) None;
     DispatcherScan.mkVisit (Ast.Identifier "h") 5 false true false false false
       (Scope.mkInfo true false true false false) None] in
  DispatcherScan.dispatched {[ "undefined" ]} vs = {[ "f" := 1%nat ]} /\
  (forall v, In v vs -> ~ DispatcherScan.spoils {[ "undefined" ]} v "f") /\
  DispatcherScan.identifiers (DispatcherScan.collect {[ "undefined" ]} vs) = [4%nat].
Proof.
  intros fn none vs.
  assert (E : DispatcherScan.dispatched {[ "undefined" ]} vs = {[ "f" := 1%nat ]})
    by (vm_compute; reflexivity).
  split; [exact E|].
  destruct (dispatched_functions_are_declared_once {[ "undefined" ]} vs "f" 1)
    as (_ & H1 & H2); [rewrite E; apply lookup_singleton_eq|].
  split; [exact H1|]. rewrite H2. vm_compute. reflexivity.
Defined.

(** *** Worked instances of the properties above *)
Lemma generator_names_are_distinct_witness :
  exists ids gen' o' g',
    Generator.generateMany {["do"; "if"]} {["eval"]} (fun n => pretty n)
      (Random.ret "number") 3 3 Generator.fresh (Identifiers.mkObfuscator 0 ∅)
      Samples.rng_a = (Identifiers.Returned ids, gen', o', g') /\
    NoDup ids.
Proof.
  destruct (Generator.generateMany {["do"; "if"]} {["eval"]} (fun n => pretty n)
              (Random.ret "number") 3 3 Generator.fresh (Identifiers.mkObfuscator 0 ∅)
              Samples.rng_a) as [[[[ids|m|] gen'] o'] g'] eqn:E.
  - exists ids, gen', o', g'. split; [reflexivity|].
    refine (proj1 (proj2 (generator_names_are_distinct _ _ _ _ 3 3 _ _ _ _ _ _ _ _ E))).
    vm_compute. discriminate.
  - vm_compute in E. discriminate.
  - vm_compute in E. discriminate.
Defined.

Lemma random_names_are_well_formed_witness :
  exists s g',
    Identifiers.byMode ∅ ∅ (fun n => pretty n) 0 "randomized" 6 1 Samples.rng_c
    = (Identifiers.Returned (s, 1), g') /\
    String.length s = 6%nat /\ Shape.wellFormed s = true.
Proof.
  destruct (random_names_are_well_formed ∅ ∅ (fun n => pretty n) 0 6 1 Samples.rng_c)
    as [(s & g' & H) _]; [lia|].
  exists s, g'. exact H.
Defined.

Lemma replace_copies_the_new_node_witness :
  exists h',
    Objects.replace "CFF" 1 2
      (<[1%nat := {[ "type" := Objects.Text "Identifier";
                     "leadingComments" := Objects.Comments ["old"] ]}]>
         (<[2%nat := {[ "type" := Objects.Text "Literal" ]}]> ∅)) = Some h' /\
    h' !! 1%nat = h' !! 2%nat.
Proof.
  destruct (replace_copies_the_new_node "CFF" 1 2
              (<[1%nat := {[ "type" := Objects.Text "Identifier";
                             "leadingComments" := Objects.Comments ["old"] ]}]>
                 (<[2%nat := {[ "type" := Objects.Text "Literal" ]}]> ∅))
              {[ "type" := Objects.Text "Identifier";
                 "leadingComments" := Objects.Comments ["old"] ]}
              {[ "type" := Objects.Text "Literal" ]} [])
    as (h' & H & _ & Hd & _); [reflexivity|reflexivity|reflexivity|].
  exists h'. split; [exact H|].
  destruct (Hd ltac:(discriminate)) as [-> ->]. reflexivity.
Defined.

Lemma breaks_follow_their_statements_witness :
  exists out idxs g',
    Assemble.rewriteChunk ["a"; "b"] {["L" := [1; 2]]} "S" [3; 4]
      [CFFSamples.assign "x" (Ast.Identifier "y"); Ast.GotoStatement "L"] Samples.rng_b
    = (Some (BreakSpec.breaksAfter (Assemble.breakOut "S") idxs 0 out), g') /\
    idxs = [1%nat].
Proof.
  destruct (Assemble.rewriteStatements ["a"; "b"] {["L" := [1; 2]]} "S" [3; 4]
              [CFFSamples.assign "x" (Ast.Identifier "y"); Ast.GotoStatement "L"]
              0 1%positive Samples.rng_b) as [[[out idxs]|] g'] eqn:E.
  - exists out, idxs, g'. split.
    + apply (breaks_follow_their_statements ["a"; "b"] {["L" := [1; 2]]} "S" [3; 4]
               _ out idxs Samples.rng_b g'); [cbn; lia|exact E].
    + vm_compute in E. injection E as _ <- _. reflexivity.
  - vm_compute in E. discriminate.
Defined.

Lemma nested_functions_are_untouched_witness :
  exists g',
    Assemble.rewriteNode ["a"; "b"] ∅ "S" [3; 4] true false
      (Ast.FunctionExpression [] [Ast.ReturnStatement (Ast.NumLit 7)]) 1%positive
      Samples.rng_a
    = (Some (Assemble.mkVisited
               (Ast.FunctionExpression [] [Ast.ReturnStatement (Ast.NumLit 7)]) 0 false,
             1%positive), g').
Proof.
  apply (nested_functions_are_untouched ["a"; "b"] ∅ "S" [3; 4]). reflexivity.
Defined.

Lemma obscured_literal_keeps_its_value_witness :
  exists v made' g',
    Assemble.rewriteNode ["a"; "b"] ∅ "S" [3; 4] false false (Ast.NumLit 7) 1%positive
      Samples.rng_a = (Some (v, made'), g') /\
    Eval.eval (Assemble.node v) (<["a" := 3]> (<["b" := 4]> ∅))
    = Some (Eval.VNum 7, <["a" := 3]> (<["b" := 4]> ∅)).
Proof.
  destruct (Assemble.rewriteNode ["a"; "b"] ∅ "S" [3; 4] false false (Ast.NumLit 7)
              1%positive Samples.rng_a) as [[[v made']|] g'] eqn:E.
  - exists v, made', g'. split; [reflexivity|].
    refine (proj1 (obscured_literal_keeps_its_value ["a"; "b"] ∅ "S" [3; 4] 7 false false
                     1%positive made' Samples.rng_a g' v _ _ _ E)).
    + cbn. lia.
    + repeat constructor.
  - vm_compute in E. discriminate.
Defined.

Lemma every_chunk_ends_with_a_jump_witness :
  exists cs g' cs',
    Chunking.flattenBody 6 (1 # 10) true CFFSamples.block (Some "start") Samples.rng_d
    = (Some cs, g') /\
    Assemble.closeChunks cs = (cs' ++ [Chunking.mkChunk "END_LABEL" []])%list /\
    Forall (fun c => Targets.endsWithGoto (Chunking.body c) = true) cs'.
Proof.
  destruct (Chunking.flattenBody 6 (1 # 10) true CFFSamples.block (Some "start")
              Samples.rng_d) as [[cs|] g'] eqn:E.
  - destruct (every_chunk_ends_with_a_jump _ _ _ _ _ _ _ _ E)
      as (first & rest & cs' & _ & _ & _ & H1 & _ & H2).
    exists cs, g', cs'. split; [reflexivity|]. split; assumption.
  - vm_compute in E. discriminate.
Defined.

Lemma every_jump_leads_to_a_chunk_witness :
  exists cs g',
    Chunking.flattenBody 6 (1 # 10) true CFFSamples.block (Some "start") Samples.rng_d
    = (Some cs, g') /\
    (forall t, t ∈ Targets.chunkTargets cs -> exists c, In c cs /\ Chunking.label c = t).
Proof.
  destruct (Chunking.flattenBody 6 (1 # 10) true CFFSamples.block (Some "start")
              Samples.rng_d) as [[cs|] g'] eqn:E.
  - exists cs, g'. split; [reflexivity|].
    refine (proj1 (every_jump_leads_to_a_chunk _ _ _ _ _ _ _ _ _ E)).
    repeat constructor.
  - vm_compute in E. discriminate.
Defined.

Lemma chunk_rewriting_never_fails_an_assertion_witness :
  exists g' g0 cs g1,
    Assemble.transform CFFSamples.reverse false (Random.ret true) false 0
      CFFSamples.block Samples.rng_d = (None, g') /\
    Chunking.flattenBody (Chunking.height (Ast.Arr CFFSamples.block))
      (Fraction.fraction (length CFFSamples.block)) true CFFSamples.block None g0
    = (Some cs, g1) /\
    StateEncoding.encodeStates 0 (map Chunking.label (Assemble.closeChunks cs)) g1
    = (None, g').
Proof.
  destruct (Assemble.transform CFFSamples.reverse false (Random.ret true) false 0
              CFFSamples.block Samples.rng_d) as [[r|] g'] eqn:E.
  - vm_compute in E. discriminate.
  - destruct (chunk_rewriting_never_fails_an_assertion CFFSamples.reverse false
                (Random.ret true) false 0 CFFSamples.block Samples.rng_d g')
      as (g0 & cs & g1 & H1 & H2); [repeat constructor|exact E|].
    exists g', g0, cs, g1. split; [reflexivity|]. split; assumption.
Defined.
